(** * Hybrid search of the Ms. Lilly archive: BM25, embeddings and
      Reciprocal Rank Fusion

    A shallow embedding of [src/lib/hybrid-search.ts] and
    [src/lib/semantic-search.ts], followed by the properties of the ranking
    engine.  The code around the engine is embedded as well: the media URLs of
    [src/lib/supabase.ts], the routes [api/search], [api/posts] and
    [api/chat], and the script that generates the embeddings file.

    Modelling conventions.
    - A JavaScript [number] that holds an index is an integer ([Z]); a rank is
      a 1-indexed position ([positive]); the RRF constant [k] is a natural
      number ([N], 60 at the only call site); [topK] is an integer ([Z]), and
      a negative one makes [slice] count from the end.
    - A JavaScript [number] that holds a score is the rational it denotes
      ([Q]): every finite double is a rational, and the arithmetic on scores
      ([1 / (k + rank)], [+], the sign of [b - a]) is taken exactly, without
      rounding.
    - Strings are sequences of 8-bit characters; white space and letters are
      the ASCII ones.
    - The packages [ai] (embed, cosineSimilarity), [@ai-sdk/google] and
      [okapibm25] (BM25) are not part of the sources: they are parameters of
      the search functions.
    - A [Map] is a list of entries in insertion order, as iteration over a
      JavaScript [Map] observes it.
    - What a route or script reads from outside is an argument: the
      environment variables, the parsed files ([None] when a file cannot be
      read), the answers of the embedding provider and the value of
      [Math.random()].  Integers parsed from a request are exact. *)

From Stdlib Require Import ZArith NArith PArith QArith Qabs Qround List String Ascii Bool Lia.
From Stdlib Require Import Permutation Sorted.
From Stdlib Require Import Reals Qreals Lra.
From Stdlib Require Import DecimalString DecimalZ DecimalN DecimalPos DecimalFacts.
Import ListNotations.

Local Open Scope string_scope.
Local Open Scope list_scope.

(** ** Strings: template literals, [split], [Number], [trim] *)

(** [`${n}`] for an integer [n]: decimal digits, with a leading minus sign
    for a negative number. *)
Definition numberToString (n : Z) : string :=
  NilZero.string_of_int (Z.to_int n).

Definition hyphen : ascii := "-"%char.

(** [s.split('-')]: the pieces between the hyphens; always at least one. *)
Fixpoint split (sep : ascii) (s : string) : list string :=
  match s with
  | EmptyString => [EmptyString]
  | String c rest =>
      if Ascii.eqb c sep then EmptyString :: split sep rest
      else match split sep rest with
           | [] => [String c EmptyString]
           | piece :: pieces => String c piece :: pieces
           end
  end.

(** What a JavaScript expression of type [number] can hold after
    [split('-').map(Number)] and array destructuring. *)
Inductive jsnumber : Type :=
  | Num (z : Z)
  | NaN
  | Undefined.

(** [Number(s)] on the pieces of a key: the empty string is [0], a string of
    decimal digits is its value, anything else is [NaN].  (The other numeric
    literals of JavaScript cannot occur in a piece of a key built from
    integers.) *)
Definition Number (s : string) : jsnumber :=
  match s with
  | EmptyString => Num 0
  | _ => match NilEmpty.uint_of_string s with
         | Some d => Num (Z.of_uint d)
         | None => NaN
         end
  end.

(** [`${x}`] for such a value. *)
Definition jsnumberToString (x : jsnumber) : string :=
  match x with
  | Num z => numberToString z
  | NaN => "NaN"
  | Undefined => "undefined"
  end.

Definition isWhiteSpace (c : ascii) : bool :=
  let n := N_of_ascii c in
  ((9 <=? n) && (n <=? 13))%N || (n =? 32)%N.

Fixpoint trimStart (s : string) : string :=
  match s with
  | EmptyString => EmptyString
  | String c rest => if isWhiteSpace c then trimStart rest else s
  end.

Fixpoint trimEnd (s : string) : string :=
  match s with
  | EmptyString => EmptyString
  | String c rest =>
      match trimEnd rest with
      | EmptyString => if isWhiteSpace c then EmptyString else String c EmptyString
      | rest' => String c rest'
      end
  end.

Definition trim (s : string) : string := trimEnd (trimStart s).

(** The guard [!query || query.trim() === ''] that opens every search
    function. *)
Definition isBlank (query : string) : bool :=
  (query =? "") || (trim query =? "").

(** ** Tokenizer *)

Definition toLowerCaseChar (c : ascii) : ascii :=
  let n := N_of_ascii c in
  if ((65 <=? n) && (n <=? 90))%N then ascii_of_N (n + 32) else c.

Fixpoint toLowerCase (s : string) : string :=
  match s with
  | EmptyString => EmptyString
  | String c rest => String (toLowerCaseChar c) (toLowerCase rest)
  end.

(** The character class [[a-z0-9]]. *)
Definition isTokenChar (c : ascii) : bool :=
  let n := N_of_ascii c in
  ((97 <=? n) && (n <=? 122))%N || ((48 <=? n) && (n <=? 57))%N.

(** [s.split(/[^a-z0-9]+/)]: the maximal runs of token characters, with an
    empty string where the text starts or ends with a separator. *)
Fixpoint splitNonAlnum (s : string) : list string :=
  match s with
  | EmptyString => [EmptyString]
  | String c rest =>
      if isTokenChar c then
        match splitNonAlnum rest with
        | [] => [String c EmptyString]
        | piece :: pieces => String c piece :: pieces
        end
      else
        match rest with
        | EmptyString => [EmptyString; EmptyString]
        | String c' _ =>
            if isTokenChar c' then EmptyString :: splitNonAlnum rest
            else splitNonAlnum rest
        end
  end.

Definition tokenize (text : string) : list string :=
  filter (fun token => (0 <? String.length token)%nat)
         (splitNonAlnum (toLowerCase text)).

(** ** Arrays and Maps *)

(** [array.slice(0, end)]: a negative [end] counts from the end of the
    array. *)
Definition slice0 {A : Type} (l : list A) (topK : Z) : list A :=
  if (topK <? 0)%Z
  then firstn (Z.to_nat (Z.max 0 (Z.of_nat (List.length l) + topK))) l
  else firstn (Z.to_nat topK) l.

(** [array.map((x, index) => f x index)]. *)
Fixpoint mapi_from {A B : Type} (f : A -> nat -> B) (start : nat) (l : list A) : list B :=
  match l with
  | [] => []
  | x :: rest => f x start :: mapi_from f (S start) rest
  end.

Definition mapi {A B : Type} (f : A -> nat -> B) (l : list A) : list B :=
  mapi_from f 0 l.

(** [array.sort(compare)].  The sort of ECMAScript is stable; for a comparator
    that orders by a numeric score the stable sorted arrangement is unique,
    and insertion from the right computes it: an element moves past exactly
    the elements that the comparator puts strictly before it. *)
Section Sort.
Context {A : Type} (compare : A -> A -> Q).

Fixpoint insert (x : A) (l : list A) : list A :=
  match l with
  | [] => [x]
  | y :: rest =>
      if Qle_bool (compare x y) 0 then x :: y :: rest
      else y :: insert x rest
  end.

Definition sort (l : list A) : list A := fold_right insert [] l.
End Sort.

(** A [Map<string, V>]: entries in insertion order, one per key. *)
Definition JsMap (V : Type) : Type := list (string * V).

Section JsMapOps.
Context {V : Type}.

Fixpoint map_get (key : string) (m : JsMap V) : option V :=
  match m with
  | [] => None
  | (k, v) :: rest => if (k =? key)%string then Some v else map_get key rest
  end.

(** [m.set(key, v)] keeps the position of an existing key and appends a
    new one. *)
Fixpoint map_set (key : string) (v : V) (m : JsMap V) : JsMap V :=
  match m with
  | [] => [(key, v)]
  | (k, v') :: rest =>
      if (k =? key)%string then (k, v) :: rest
      else (k, v') :: map_set key v rest
  end.

(** [new Map(entries)]. *)
Definition map_of_entries (entries : list (string * V)) : JsMap V :=
  fold_left (fun m e => map_set (fst e) (snd e) m) entries [].
End JsMapOps.

(** ** Data model *)

Module PostEmbedding.
Record t : Type := mk {
  postIndex : Z;
  mediaIndex : Z;
  title : string;
  uri : string;
  isVideo : bool;
  creationTimestamp : Z;
  embedding : list Q
}.
End PostEmbedding.

Module SearchResult.
Record t : Type := mk {
  postIndex : Z;
  mediaIndex : Z;
  title : string;
  uri : string;
  isVideo : bool;
  creationTimestamp : Z;
  similarity : Q
}.
End SearchResult.

Module RankedResult.
Record t : Type := mk {
  postIndex : Z;
  mediaIndex : Z;
  rank : positive
}.
End RankedResult.

Module KeywordSearchResult.
Record t : Type := mk {
  postIndex : Z;
  mediaIndex : Z;
  rank : positive;
  score : Q
}.

(** A keyword result read through the [RankedResult] interface. *)
Definition toRanked (r : t) : RankedResult.t :=
  RankedResult.mk (postIndex r) (mediaIndex r) (rank r).
End KeywordSearchResult.

Module FusedResult.
Record t : Type := mk {
  postIndex : jsnumber;
  mediaIndex : jsnumber;
  rrfScore : Q
}.
End FusedResult.

(** ** Reciprocal Rank Fusion *)

Local Open Scope Q_scope.

(** [`${postIndex}-${mediaIndex}`]. *)
Definition getKey (postIndex mediaIndex : Z) : string :=
  (numberToString postIndex ++ "-" ++ numberToString mediaIndex)%string.

(** [rrfScores.get(key) || 0]. *)
Definition orZero (x : option Q) : Q :=
  match x with
  | Some v => if Qeq_bool v 0 then 0 else v
  | None => 0
  end.

(** One iteration of either [forEach] loop of [fuseRRF]. *)
Definition addContribution (k : N) (rrfScores : JsMap Q)
    (postIndex mediaIndex : Z) (rank : positive) : JsMap Q :=
  let key := getKey postIndex mediaIndex in
  let currentScore := orZero (map_get key rrfScores) in
  map_set key (currentScore + 1 / inject_Z (Z.of_N k + Z.pos rank)) rrfScores.

(** The score map of [fuseRRF] after both loops. *)
Definition rrfScoresOf (semanticRanks : list RankedResult.t)
    (keywordRanks : list KeywordSearchResult.t) (k : N) : JsMap Q :=
  let rrfScores : JsMap Q := [] in
  let rrfScores :=
    fold_left (fun m result =>
                 addContribution k m (RankedResult.postIndex result)
                   (RankedResult.mediaIndex result) (RankedResult.rank result))
              semanticRanks rrfScores in
  fold_left (fun m result =>
               addContribution k m (KeywordSearchResult.postIndex result)
                 (KeywordSearchResult.mediaIndex result)
                 (KeywordSearchResult.rank result))
            keywordRanks rrfScores.

(** [const [postIndex, mediaIndex] = key.split('-').map(Number)] and the
    object built from it. *)
Definition entryToFused (entry : string * Q) : FusedResult.t :=
  let numbers := map Number (split hyphen (fst entry)) in
  FusedResult.mk (nth 0 numbers Undefined) (nth 1 numbers Undefined) (snd entry).

Definition byRrfScore (a b : FusedResult.t) : Q :=
  FusedResult.rrfScore b - FusedResult.rrfScore a.

Definition fuseRRF (semanticRanks : list RankedResult.t)
    (keywordRanks : list KeywordSearchResult.t) (k : N) : list FusedResult.t :=
  let fusedResults := map entryToFused (rrfScoresOf semanticRanks keywordRanks k) in
  sort byRrfScore fusedResults.

(** The default value of the parameter [k]. *)
Definition defaultK : N := 60.

(** ** Failures and calls to the embedding provider *)

(** The errors the search functions throw.  The sources throw plain [Error]
    objects; the constructors name them after their message. *)
Inductive Error : Type :=
  | ConfigurationError          (* 'GOOGLE_GENERATIVE_AI_API_KEY environment variable is not set' *)
  | EmbeddingProviderError      (* the rejection of [embed] *)
  | LoadEmbeddingsError         (* 'Failed to load embeddings: ...' *)
  | PostNotFound (key : string) (* `Post not found: ${key}` *).

(** A run of an [async] function: the queries sent to the embedding provider,
    in order, and the value returned or the error thrown. *)
Record Run (A : Type) : Type := mkRun {
  calls : list string;
  outcome : Error + A
}.
Arguments mkRun {A} _ _.
Arguments calls {A} _.
Arguments outcome {A} _.

Definition ret {A : Type} (x : A) : Run A := mkRun [] (inr x).

Definition throw {A : Type} (e : Error) : Run A := mkRun [] (inl e).

Definition bind {A B : Type} (m : Run A) (f : A -> Run B) : Run B :=
  match outcome m with
  | inl e => mkRun (calls m) (inl e)
  | inr x => mkRun (calls m ++ calls (f x)) (outcome (f x))
  end.

Notation "x <- m ;; f" := (bind m (fun x => f))
  (at level 61, m at next level, right associativity).

(** [array.map(f)] for a callback that may throw: the first failure, in array
    order, ends the map. *)
Fixpoint mapM {A B : Type} (f : A -> Run B) (l : list A) : Run (list B) :=
  match l with
  | [] => ret []
  | x :: rest =>
      y <- f x ;;
      ys <- mapM f rest ;;
      ret (y :: ys)
  end.

(** What a search reads from outside: the environment variable, the file
    [public/embeddings.json] ([None] when it cannot be read or parsed) and the
    answer of the embedding provider to a query ([None] when the call
    fails). *)
Record Env : Type := mkEnv {
  GOOGLE_GENERATIVE_AI_API_KEY : option string;
  embeddingsJson : option (list PostEmbedding.t);
  provider : string -> option (list Q)
}.

(** [!process.env.GOOGLE_GENERATIVE_AI_API_KEY]. *)
Definition apiKeyMissing (env : Env) : bool :=
  match GOOGLE_GENERATIVE_AI_API_KEY env with
  | None => true
  | Some key => (key =? "")%string
  end.

(** [loadEmbeddings()]: the cached posts, or the posts of the file. *)
Definition loadEmbeddings (env : Env) : Run (list PostEmbedding.t) :=
  match embeddingsJson env with
  | Some posts => ret posts
  | None => throw LoadEmbeddingsError
  end.

(** [await embed({ model, value })]. *)
Definition embed (env : Env) (value : string) : Run (list Q) :=
  mkRun [value]
        (match provider env value with
         | Some embedding => inr embedding
         | None => inl EmbeddingProviderError
         end).

(** ** The scorers and the three search modes *)

Module ScoredPost.
Record t : Type := mk {
  postIndex : Z;
  mediaIndex : Z;
  score : Q
}.
End ScoredPost.

Definition byScore (a b : ScoredPost.t) : Q :=
  ScoredPost.score b - ScoredPost.score a.

Definition bySimilarity (a b : SearchResult.t) : Q :=
  SearchResult.similarity b - SearchResult.similarity a.

(** [{ k1: 1.3, b: 0.9 }]. *)
Definition bm25_k1 : Q := 13 # 10.
Definition bm25_b : Q := 9 # 10.

Definition postKey (post : PostEmbedding.t) : string :=
  getKey (PostEmbedding.postIndex post) (PostEmbedding.mediaIndex post).

(** [new Map(embeddings.map((post) => [`${post.postIndex}-${post.mediaIndex}`, post]))]. *)
Definition embeddingMapOf (embeddings : list PostEmbedding.t) : JsMap PostEmbedding.t :=
  map_of_entries (map (fun post => (postKey post, post)) embeddings).

Definition toSearchResult (post : PostEmbedding.t) (similarity : Q) : SearchResult.t :=
  SearchResult.mk (PostEmbedding.postIndex post) (PostEmbedding.mediaIndex post)
    (PostEmbedding.title post) (PostEmbedding.uri post) (PostEmbedding.isVideo post)
    (PostEmbedding.creationTimestamp post) similarity.

(** The lookup in the embedding map and its failure branch. *)
Definition resolve (embeddingMap : JsMap PostEmbedding.t) (key : string)
    (similarity : Q) : Run SearchResult.t :=
  match map_get key embeddingMap with
  | None => throw (PostNotFound key)
  | Some post => ret (toSearchResult post similarity)
  end.

Section Search.

(** [BM25(documents, keywords, { k1, b })] of package [okapibm25]: one score
    per document. *)
Variable BM25 : list string -> list string -> Q -> Q -> list Q.

(** [cosineSimilarity(vector1, vector2)] of package [ai]. *)
Variable cosineSimilarity : list Q -> list Q -> Q.

(** [scores[index]] is [undefined] beyond the end of [scores], and
    [undefined > 0] is false: the [map] and the [filter] of the source keep
    the posts that have a score above zero. *)
Definition resultsWithScores (embeddings : list PostEmbedding.t) (scores : list Q)
    : list ScoredPost.t :=
  List.concat (mapi (fun post index =>
                  match nth_error scores index with
                  | Some score =>
                      if negb (Qle_bool score 0)
                      then [ScoredPost.mk (PostEmbedding.postIndex post)
                              (PostEmbedding.mediaIndex post) score]
                      else []
                  | None => []
                  end) embeddings).

Definition getKeywordRanks (query : string) (embeddings : list PostEmbedding.t)
    : list KeywordSearchResult.t :=
  if isBlank query then []
  else
    let queryTokens := tokenize query in
    match queryTokens with
    | [] => []
    | _ =>
        let documents := map PostEmbedding.title embeddings in
        let scores := BM25 documents queryTokens bm25_k1 bm25_b in
        mapi (fun result index =>
                KeywordSearchResult.mk (ScoredPost.postIndex result)
                  (ScoredPost.mediaIndex result) (Pos.of_succ_nat index)
                  (ScoredPost.score result))
             (sort byScore (resultsWithScores embeddings scores))
    end.

Definition getSemanticRanks (env : Env) (query : string)
    (embeddings : list PostEmbedding.t) : Run (list RankedResult.t) :=
  if isBlank query then ret []
  else if apiKeyMissing env then throw ConfigurationError
  else
    queryEmbedding <- embed env query ;;
    let resultsWithScores :=
      map (fun post =>
             ScoredPost.mk (PostEmbedding.postIndex post) (PostEmbedding.mediaIndex post)
               (cosineSimilarity queryEmbedding (PostEmbedding.embedding post)))
          embeddings in
    ret (mapi (fun result index =>
                 RankedResult.mk (ScoredPost.postIndex result)
                   (ScoredPost.mediaIndex result) (Pos.of_succ_nat index))
              (sort byScore resultsWithScores)).

Definition hybridSearch (env : Env) (query : string) (topK : Z)
    : Run (list SearchResult.t) :=
  if isBlank query then ret []
  else
    embeddings <- loadEmbeddings env ;;
    semanticRanks <- getSemanticRanks env query embeddings ;;
    let keywordRanks := getKeywordRanks query embeddings in
    let fusedResults := fuseRRF semanticRanks keywordRanks defaultK in
    let embeddingMap := embeddingMapOf embeddings in
    mapM (fun fused =>
            let key := (jsnumberToString (FusedResult.postIndex fused) ++ "-" ++
                        jsnumberToString (FusedResult.mediaIndex fused))%string in
            resolve embeddingMap key (FusedResult.rrfScore fused))
         (slice0 fusedResults topK).

Definition keywordSearch (env : Env) (query : string) (topK : Z)
    : Run (list SearchResult.t) :=
  if isBlank query then ret []
  else
    embeddings <- loadEmbeddings env ;;
    let keywordRanks := getKeywordRanks query embeddings in
    let embeddingMap := embeddingMapOf embeddings in
    mapM (fun ranked =>
            let key := getKey (KeywordSearchResult.postIndex ranked)
                         (KeywordSearchResult.mediaIndex ranked) in
            resolve embeddingMap key (KeywordSearchResult.score ranked))
         (slice0 keywordRanks topK).

(** [searchPosts] of [semantic-search.ts], the semantic mode. *)
Definition searchPosts (env : Env) (query : string) (topK : Z)
    : Run (list SearchResult.t) :=
  if isBlank query then ret []
  else if apiKeyMissing env then throw ConfigurationError
  else
    embeddings <- loadEmbeddings env ;;
    queryEmbedding <- embed env query ;;
    let results :=
      map (fun post =>
             toSearchResult post
               (cosineSimilarity queryEmbedding (PostEmbedding.embedding post)))
          embeddings in
    ret (slice0 (sort bySimilarity results) topK).

End Search.

(** ** Cosine similarity *)

Module CosineSimilarity.
Local Open Scope R_scope.

Definition dotProduct (vector1 vector2 : list R) : R :=
  fold_right Rplus 0 (map (fun p => fst p * snd p) (combine vector1 vector2)).

Definition magnitude (vector : list R) : R := sqrt (dotProduct vector vector).

(** Modelled from the spec: the function [cosineSimilarity] of package [ai],
    which the search functions import and whose source is not part of the
    repository.  The cosine similarity is the dot product divided by the
    product of the magnitudes of the two vectors, and it is 0 when a vector
    has zero magnitude. *)
Definition cosineSimilarity (vector1 vector2 : list R) : R :=
  if Req_dec_T (magnitude vector1) 0 then 0
  else if Req_dec_T (magnitude vector2) 0 then 0
  else dotProduct vector1 vector2 / (magnitude vector1 * magnitude vector2).

(** The vector of reals that an embedding denotes. *)
Definition vectorOf (embedding : list Q) : list R := map Q2R embedding.

End CosineSimilarity.

(** ** Notions used in the statements *)

(** The denominator [k + rank] as a positive number. *)
Definition rrfDenominator (k : N) (rank : positive) : positive :=
  match k with
  | N0 => rank
  | Npos p => (p + rank)%positive
  end.


(** The comparator of every sort in the sources: [b.score - a.score]. *)
Definition descending {A : Type} (score : A -> Q) (a b : A) : Q := score b - score a.

(** Sorted by descending score. *)
Definition descendingBy {A : Type} (score : A -> Q) (a b : A) : Prop :=
  score b <= score a.

(** The contribution of one ranked entry, as a pair of its key and rank. *)
Definition rankedKey (r : RankedResult.t) : string * positive :=
  (getKey (RankedResult.postIndex r) (RankedResult.mediaIndex r), RankedResult.rank r).

Definition keywordKey (r : KeywordSearchResult.t) : string * positive :=
  (getKey (KeywordSearchResult.postIndex r) (KeywordSearchResult.mediaIndex r),
   KeywordSearchResult.rank r).

(** The sum of [1 / (k + rank)] over the entries of a ranked list that carry
    the key [key], starting from [start]. *)
Definition sumFor (k : N) (key : string) (start : Q) (l : list (string * positive)) : Q :=
  fold_left (fun acc e =>
               if (fst e =? key)%string
               then acc + 1 / inject_Z (Z.of_N k + Z.pos (snd e))
               else acc) l start.

(** The keys of a list in order of first occurrence: the insertion order of
    a [Map] filled from the list. *)
Definition appendNew (keys : list string) (key : string) : list string :=
  if existsb (fun k => (k =? key)%string) keys then keys else keys ++ [key].

Definition firstOccurrences (keys : list string) : list string :=
  fold_left appendNew keys [].

(** Both loops of [fuseRRF] as one pass over the pairs of key and rank. *)
Definition accumulate (k : N) (rrfScores : JsMap Q) (l : list (string * positive)) : JsMap Q :=
  fold_left (fun m e =>
               map_set (fst e)
                 (orZero (map_get (fst e) m) + 1 / inject_Z (Z.of_N k + Z.pos (snd e))) m)
            l rrfScores.

(** The pairs of key and rank that [fuseRRF] reads, in the order it reads
    them. *)
Definition contributions (semanticRanks : list RankedResult.t)
    (keywordRanks : list KeywordSearchResult.t) : list (string * positive) :=
  map rankedKey semanticRanks ++ map keywordKey keywordRanks.

(** Every score in the map is above zero. *)
Definition positiveValues (m : JsMap Q) : Prop := Forall (fun e => 0 < snd e) m.

(** The string has no hyphen. *)
Fixpoint noHyphen (s : string) : bool :=
  match s with
  | EmptyString => true
  | String c rest => negb (Ascii.eqb c hyphen) && noHyphen rest
  end.

(** The key that [hybridSearch] rebuilds from a fused result. *)
Definition fusedKey (fused : FusedResult.t) : string :=
  (jsnumberToString (FusedResult.postIndex fused) ++ "-" ++
   jsnumberToString (FusedResult.mediaIndex fused))%string.

(** The indices of the post are non-negative integers. *)
Definition nonNegativeIndices (post : PostEmbedding.t) : Prop :=
  (0 <= PostEmbedding.postIndex post)%Z /\ (0 <= PostEmbedding.mediaIndex post)%Z.

(** The keys of the entries of the two input lists. *)
Definition semanticKeys (semanticRanks : list RankedResult.t) : list string :=
  map fst (map rankedKey semanticRanks).

Definition keywordKeys (keywordRanks : list KeywordSearchResult.t) : list string :=
  map fst (map keywordKey keywordRanks).

(** [1 / (k + rank)]. *)
Definition reciprocalRank (k : N) (rank : positive) : Q :=
  1 / inject_Z (Z.of_N k + Z.pos rank).

(** The ranked lists of the scenario of the specification: list 1 ranks A
    then B, list 2 ranks B then C. *)
Definition scenarioList1 : list RankedResult.t :=
  [RankedResult.mk 0 0 1; RankedResult.mk 0 1 2].

Definition scenarioList2 : list KeywordSearchResult.t :=
  [KeywordSearchResult.mk 0 1 1 (7 # 2); KeywordSearchResult.mk 1 0 2 (3 # 2)].

(** The position in the corpus of the first post that has the indices of a
    fused result. *)
Definition jsnumber_eqb (x : jsnumber) (z : Z) : bool :=
  match x with
  | Num z' => (z' =? z)%Z
  | _ => false
  end.

Fixpoint corpusPosition (corpus : list PostEmbedding.t) (fused : FusedResult.t)
    : option nat :=
  match corpus with
  | [] => None
  | post :: rest =>
      if jsnumber_eqb (FusedResult.postIndex fused) (PostEmbedding.postIndex post) &&
         jsnumber_eqb (FusedResult.mediaIndex fused) (PostEmbedding.mediaIndex post)
      then Some O
      else option_map S (corpusPosition rest fused)
  end.

(** Results of equal fused score appear in the order of the corpus. *)
Definition tiesInCorpusOrder (corpus : list PostEmbedding.t)
    (fusedResults : list FusedResult.t) : Prop :=
  forall i j a b,
    (i < j)%nat ->
    nth_error fusedResults i = Some a ->
    nth_error fusedResults j = Some b ->
    FusedResult.rrfScore a == FusedResult.rrfScore b ->
    exists pa pb,
      corpusPosition corpus a = Some pa /\
      corpusPosition corpus b = Some pb /\
      (pa < pb)%nat.

(** No two results have the same fused score. *)
Definition noTies (fusedResults : list FusedResult.t) : Prop :=
  ForallOrdPairs (fun a b => ~ FusedResult.rrfScore a == FusedResult.rrfScore b)
                 fusedResults.

(** A corpus of two posts, B before A, and two rankings of it: the semantic
    one prefers A, the keyword one prefers B. *)
Definition postA : PostEmbedding.t :=
  PostEmbedding.mk 0 0 "Lilly digs the garden" "a.jpg" false 1625097600 [1; 0].

Definition postB : PostEmbedding.t :=
  PostEmbedding.mk 0 1 "garden garden" "b.mp4" true 1625184000 [3 # 5; 4 # 5].

Definition corpusBA : list PostEmbedding.t := [postB; postA].

Definition semanticAB : list RankedResult.t :=
  [RankedResult.mk 0 0 1; RankedResult.mk 0 1 2].

Definition keywordBA : list KeywordSearchResult.t :=
  [KeywordSearchResult.mk 0 1 1 2; KeywordSearchResult.mk 0 0 2 1].

Definition keywordAB : list KeywordSearchResult.t :=
  [KeywordSearchResult.mk 0 0 1 2; KeywordSearchResult.mk 0 1 2 1].

(** The string is empty or holds white space only. *)
Fixpoint allWhiteSpace (s : string) : bool :=
  match s with
  | EmptyString => true
  | String c rest => isWhiteSpace c && allWhiteSpace rest
  end.

(** A post with its BM25 score, and the test [score > 0]. *)
Definition scoredOf (p : PostEmbedding.t * Q) : ScoredPost.t :=
  ScoredPost.mk (PostEmbedding.postIndex (fst p)) (PostEmbedding.mediaIndex (fst p)) (snd p).

Definition positiveScore (p : PostEmbedding.t * Q) : bool :=
  negb (Qle_bool (snd p) 0).

(** A keyword result without its rank. *)
Definition toScored (r : KeywordSearchResult.t) : ScoredPost.t :=
  ScoredPost.mk (KeywordSearchResult.postIndex r) (KeywordSearchResult.mediaIndex r)
    (KeywordSearchResult.score r).

(** The ranks [1, 2, ..., n]. *)
Definition ranksUpTo (n : nat) : list positive := map Pos.of_succ_nat (seq 0 n).

(** The key of a scored post. *)
Definition scoredKey (s : ScoredPost.t) : string :=
  getKey (ScoredPost.postIndex s) (ScoredPost.mediaIndex s).

(** The posts that a search reads: those of the embeddings file, none when
    the file cannot be loaded. *)
Definition corpusOf (env : Env) : list PostEmbedding.t :=
  match embeddingsJson env with
  | Some posts => posts
  | None => []
  end.

(** The ranked list that [getSemanticRanks] returns once the provider has
    answered with [queryEmbedding]. *)
Definition semanticRanksOf (cosineSimilarity : list Q -> list Q -> Q)
    (queryEmbedding : list Q) (embeddings : list PostEmbedding.t) : list RankedResult.t :=
  mapi (fun result index =>
          RankedResult.mk (ScoredPost.postIndex result)
            (ScoredPost.mediaIndex result) (Pos.of_succ_nat index))
       (sort byScore
          (map (fun post =>
                  ScoredPost.mk (PostEmbedding.postIndex post) (PostEmbedding.mediaIndex post)
                    (cosineSimilarity queryEmbedding (PostEmbedding.embedding post)))
               embeddings)).

(** Stand-ins for the packages, to run the search on a concrete corpus: a
    scorer that counts the tokens of a document that are keywords, and the
    dot product, which is the cosine similarity of vectors of length 1. *)
Definition sampleBM25 (documents keywords : list string) (k1 b : Q) : list Q :=
  map (fun document =>
         inject_Z (Z.of_nat (List.length
                               (filter (fun token => existsb (String.eqb token) keywords)
                                       (tokenize document)))))
      documents.

Definition sampleCosine (vector1 vector2 : list Q) : Q :=
  fold_right Qplus 0 (map (fun p => fst p * snd p) (combine vector1 vector2)).

(** Three environments over the corpus B, A: a working one, one without the
    credential, one whose provider fails. *)
Definition sampleEnv : Env :=
  mkEnv (Some "secret") (Some corpusBA) (fun _ => Some [1; 0]).

Definition sampleEnvNoKey : Env :=
  mkEnv None (Some corpusBA) (fun _ => Some [1; 0]).

Definition sampleEnvProviderDown : Env :=
  mkEnv (Some "secret") (Some corpusBA) (fun _ => None).

(** The corpus of the keyword scenario of the specification. *)
Definition scenarioCorpus : list PostEmbedding.t :=
  [PostEmbedding.mk 0 0 "Lilly digs the garden" "a.jpg" false 1625097600 [1; 0];
   PostEmbedding.mk 1 0 "Lilly eats cheese" "b.jpg" false 1625184000 [0; 1]].

(** A corpus with a negative index. *)
Definition sampleEnvNegativeIndex : Env :=
  mkEnv (Some "secret")
        (Some [PostEmbedding.mk (-1) 2 "garden" "c.jpg" false 1625270400 [1; 0]])
        (fun _ => Some [1; 0]).

(** ** Notions used in the further properties *)

(** A post with its cosine similarity to the query, as [getSemanticRanks]
    builds it. *)
Definition semanticScored (cosineSimilarity : list Q -> list Q -> Q)
    (queryEmbedding : list Q) (post : PostEmbedding.t) : ScoredPost.t :=
  ScoredPost.mk (PostEmbedding.postIndex post) (PostEmbedding.mediaIndex post)
    (cosineSimilarity queryEmbedding (PostEmbedding.embedding post)).

(** The indices of a record. *)
Definition postIndices (post : PostEmbedding.t) : Z * Z :=
  (PostEmbedding.postIndex post, PostEmbedding.mediaIndex post).

Definition rankedIndices (r : RankedResult.t) : Z * Z :=
  (RankedResult.postIndex r, RankedResult.mediaIndex r).

Definition resultIndices (r : SearchResult.t) : Z * Z :=
  (SearchResult.postIndex r, SearchResult.mediaIndex r).


(** The fused result of a ranked entry that is alone under its key. *)
Definition fusedOfRanked (k : N) (r : RankedResult.t) : FusedResult.t :=
  entryToFused (fst (rankedKey r), reciprocalRank k (snd (rankedKey r))).

Definition fusedOfKeyword (k : N) (r : KeywordSearchResult.t) : FusedResult.t :=
  entryToFused (fst (keywordKey r), reciprocalRank k (snd (keywordKey r))).

(** Every character of the string is in [[a-z0-9]]. *)
Fixpoint allTokenChars (s : string) : bool :=
  match s with
  | EmptyString => true
  | String c rest => isTokenChar c && allTokenChars rest
  end.





(** ** Media URLs ([src/lib/supabase.ts]) *)





(** ** The search route ([src/app/api/search/route.ts]) *)

Definition isDigit (c : ascii) : bool :=
  let n := N_of_ascii c in ((48 <=? n) && (n <=? 57))%N.

Definition digitValue (c : ascii) : Z := Z.of_N (N_of_ascii c) - 48.

(** The value of the longest prefix of decimal digits, after the digits
    already read. *)
Fixpoint parseDigits (s : string) (acc : Z) : Z :=
  match s with
  | EmptyString => acc
  | String c rest =>
      if isDigit c then parseDigits rest (10 * acc + digitValue c) else acc
  end.

Definition parseUnsigned (s : string) : jsnumber :=
  match s with
  | String c _ => if isDigit c then Num (parseDigits s 0) else NaN
  | EmptyString => NaN
  end.

(** [parseInt(s, 10)]: leading white space, an optional sign, then the
    longest prefix of digits; [NaN] when there is no digit. *)
Definition parseInt (s : string) : jsnumber :=
  match trimStart s with
  | String "-" rest =>
      match parseUnsigned rest with
      | Num z => Num (- z)
      | other => other
      end
  | String "+" rest => parseUnsigned rest
  | unsigned => parseUnsigned unsigned
  end.

Module SearchRoute.

Inductive SearchMode : Type := semantic | keyword | hybrid.

(** [request.nextUrl.searchParams.get(name)] for the three parameters:
    [None] is [null]. *)
Record Request : Type := mkRequest {
  q : option string;
  limit : option string;
  mode : option string
}.

(** The JSON responses of the route, by status. *)
Inductive Response : Type :=
  | Json200 (query : string) (mode : SearchMode) (results : list SearchResult.t)
            (count : nat)
  | Json400 (error : string)
  | Json500 (error : Error).

(** [validModes.includes(mode)], with the mode it names. *)
Definition validMode (mode : string) : option SearchMode :=
  if (mode =? "semantic")%string then Some semantic
  else if (mode =? "keyword")%string then Some keyword
  else if (mode =? "hybrid")%string then Some hybrid
  else None.

(** [(modeParam?.toLowerCase() as SearchMode) || 'hybrid']. *)
Definition modeOf (modeParam : option string) : string :=
  match modeParam with
  | None => "hybrid"
  | Some m => if (toLowerCase m =? EmptyString)%string then "hybrid" else toLowerCase m
  end.

(** The limit after parsing and validation: [None] when the route answers
    'Limit must be a positive number'. *)
Definition limitOf (limitParam : option string) : option Z :=
  match limitParam with
  | None => Some 10%Z
  | Some l =>
      if (l =? EmptyString)%string then Some 10%Z
      else match parseInt l with
           | Num parsedLimit =>
               if (parsedLimit <? 1)%Z then None else Some (Z.min parsedLimit 50)
           | _ => None
           end
  end.

(** The message 'Query parameter "q" is required'. *)
Definition queryRequired : string :=
  ("Query parameter " ++ String (ascii_of_nat 34) ("q" ++ String (ascii_of_nat 34) " is required"))%string.

(** A response of the route with the queries sent to the embedding provider
    while it was computed. *)
Record Served : Type := mkServed {
  providerCalls : list string;
  response : Response
}.

Section Route.

Variable BM25 : list string -> list string -> Q -> Q -> list Q.
Variable cosineSimilarity : list Q -> list Q -> Q.

Definition GET (env : Env) (request : Request) : Served :=
  match q request with
  | None => mkServed [] (Json400 queryRequired)
  | Some query =>
      if isBlank query then mkServed [] (Json400 queryRequired)
      else
        match limitOf (limit request) with
        | None => mkServed [] (Json400 "Limit must be a positive number")
        | Some limit =>
            match validMode (modeOf (mode request)) with
            | None =>
                mkServed [] (Json400 "Invalid mode. Must be one of: semantic, keyword, hybrid")
            | Some mode =>
                let run :=
                  match mode with
                  | semantic => searchPosts cosineSimilarity env query limit
                  | keyword => keywordSearch BM25 env query limit
                  | hybrid => hybridSearch BM25 cosineSimilarity env query limit
                  end in
                match outcome run with
                | inr results =>
                    mkServed (calls run)
                             (Json200 query mode results (List.length results))
                | inl error => mkServed (calls run) (Json500 error)
                end
            end
        end
  end.

End Route.

End SearchRoute.

(** ** The generator of the embeddings file ([scripts/generate-embeddings.ts]) *)

(** [s.endsWith(searchString)]: the search string is a tail of [s]. *)
Fixpoint endsWith (s searchString : string) : bool :=
  (s =? searchString)%string ||
  match s with
  | EmptyString => false
  | String _ rest => endsWith rest searchString
  end.

Module Generator.

(** A media entry of [posts_1.json]; [None] is an absent field. *)
Record Media : Type := mkMedia {
  uri : string;
  title : option string;
  creation_timestamp : option Z
}.

Record Post : Type := mkPost {
  media : option (list Media)
}.

(** An element of [itemsToEmbed]. *)
Record Item : Type := mkItem {
  postIndex : Z;
  mediaIndex : Z;
  itemTitle : string;
  itemUri : string;
  isVideo : bool;
  creationTimestamp : Z
}.

(** A record of the written file: the item and [batchEmbeddings[j]], which
    is [undefined] ([None]) when the provider returned fewer vectors than
    titles. *)
Record Generated : Type := mkGenerated {
  item : Item;
  embedding : option (list Q)
}.

(** How the script ends: [process.exit(1)], an error of [embedMany] thrown
    on, or the posts written to [embeddings.json]; [OutOfFuel] when the bound
    on the number of batches was too small. *)
Inductive Ending : Type :=
  | Exit1
  | Thrown
  | Written (posts : list Generated)
  | OutOfFuel.

(** The ending and the batches of titles sent to [embedMany], in order. *)
Record ScriptRun : Type := mkScriptRun {
  batches : list (list string);
  ending : Ending
}.

Definition batchSize : nat := 100.

Section Script.

(** [existsSync(join(process.cwd(), 'public', uri))]. *)
Variable existsSync : string -> bool.

(** [embedMany({ model, values })] of package [ai]: the vectors, or [None]
    when the call rejects. *)
Variable embedMany : list string -> option (list (list Q)).

(** The body of the inner loop: the item of a media entry, or nothing when
    the entry is skipped. *)
Definition itemOfMedia (postIndex : nat) (m : Media) (mediaIndex : nat) : list Item :=
  match title m with
  | None => []
  | Some t =>
      if isBlank t then []
      else if negb (existsSync (uri m)) then []
      else match creation_timestamp m with
           | None => []
           | Some timestamp =>
               if (timestamp =? 0)%Z then []
               else [mkItem (Z.of_nat postIndex) (Z.of_nat mediaIndex) t (uri m)
                       (endsWith (uri m) ".mp4") timestamp]
           end
  end.

(** The body of the outer loop; a post without media contributes nothing. *)
Definition itemsOfPost (post : Post) (postIndex : nat) : list Item :=
  match media post with
  | None => []
  | Some medias => List.concat (mapi (itemOfMedia postIndex) medias)
  end.

Definition itemsToEmbed (posts : list Post) : list Item :=
  List.concat (mapi itemsOfPost posts).

(** [batch[j]] with [batchEmbeddings[j]], for every [j] below
    [batch.length]. *)
Fixpoint withEmbeddings (batch : list Item) (batchEmbeddings : list (list Q))
    : list Generated :=
  match batch with
  | [] => []
  | it :: rest =>
      mkGenerated it (hd_error batchEmbeddings) ::
      withEmbeddings rest (tl batchEmbeddings)
  end.

(** The loop over the batches: [remaining] is [itemsToEmbed.slice(i)]. *)
Fixpoint embedBatches (fuel : nat) (remaining : list Item) (embeddings : list Generated)
    : ScriptRun :=
  match remaining with
  | [] => mkScriptRun [] (Written embeddings)
  | _ =>
      match fuel with
      | O => mkScriptRun [] OutOfFuel
      | S fuel' =>
          let batch := firstn batchSize remaining in
          let titles := map itemTitle batch in
          match embedMany titles with
          | None => mkScriptRun [titles] Thrown
          | Some batchEmbeddings =>
              let rest :=
                embedBatches fuel' (skipn batchSize remaining)
                  (embeddings ++ withEmbeddings batch batchEmbeddings) in
              mkScriptRun (titles :: batches rest) (ending rest)
          end
      end
  end.

Definition generateEmbeddings (apiKey : option string) (posts : list Post) : ScriptRun :=
  let items := itemsToEmbed posts in
  match items with
  | [] => mkScriptRun [] Exit1
  | _ =>
      match apiKey with
      | None => mkScriptRun [] Exit1
      | Some key =>
          if (key =? EmptyString)%string then mkScriptRun [] Exit1
          else embedBatches (List.length items) items []
      end
  end.

End Script.

(** The key under which the search finds a generated record. *)
Definition itemKey (it : Item) : string := getKey (postIndex it) (mediaIndex it).

End Generator.

(** ** Sample inputs for the further properties *)

Definition sampleRequest : SearchRoute.Request :=
  SearchRoute.mkRequest (Some "garden") (Some "1") (Some "KEYWORD").

Definition samplePosts : list Generator.Post :=
  [Generator.mkPost
     (Some [Generator.mkMedia "media/posts/202107/a.jpg" (Some "Lilly digs the garden")
              (Some 1625097600%Z);
            Generator.mkMedia "media/posts/202107/b.mp4" (Some "   ") (Some 1625097700%Z);
            Generator.mkMedia "media/posts/202107/c.mp4" (Some "Biscuit dance")
              (Some 1625097800%Z)]);
   Generator.mkPost None;
   Generator.mkPost
     (Some [Generator.mkMedia "media/posts/202108/d.jpg" (Some "No timestamp") None;
            Generator.mkMedia "media/posts/202108/e.jpg" (Some "Cheese") (Some 1627776000%Z)])].

(** A file system where every media file exists and a provider that returns
    one vector per title. *)
Definition sampleExistsSync (path : string) : bool := true.

Definition sampleEmbedMany (titles : list string) : option (list (list Q)) :=
  Some (map (fun _ => [1; 0]) titles).

(** ** The posts route ([src/app/api/posts/route.ts]) *)

(** [array.slice(start, end)]: a negative index counts from the end, and
    both are clamped to the array. *)
Definition sliceIndex (len i : Z) : Z :=
  if (i <? 0)%Z then Z.max (len + i) 0 else Z.min i len.

Definition slice {A : Type} (l : list A) (start finish : Z) : list A :=
  let len := Z.of_nat (List.length l) in
  let first := sliceIndex len start in
  let final := sliceIndex len finish in
  firstn (Z.to_nat (final - first)) (skipn (Z.to_nat first) l).

Module PostsRoute.

(** A media entry of [posts_1.json]. The route looks only at whether [uri]
    and [title] are truthy, so an absent one is the empty string here;
    [video_metadata] is [!!media.media_metadata?.video_metadata] and an
    absent or zero [creation_timestamp] is [None] or [Some 0]. *)
Record PostMedia : Type := mkPostMedia {
  uri : string;
  creation_timestamp : option Z;
  title : string;
  video_metadata : bool
}.

(** [media] is [None] when the field is absent or not an array. *)
Record Post : Type := mkPost {
  media : option (list PostMedia)
}.

Record PostResult : Type := mkPostResult {
  postIndex : Z;
  mediaIndex : Z;
  resultTitle : string;
  resultUri : string;
  isVideo : bool;
  creationTimestamp : Z
}.

(** The body of the inner [forEach]. *)
Definition resultOfMedia (postIndex : nat) (m : PostMedia) (mediaIndex : nat)
    : list PostResult :=
  if negb (uri m =? EmptyString)%string && negb (title m =? EmptyString)%string
  then [mkPostResult (Z.of_nat postIndex) (Z.of_nat mediaIndex) (title m) (uri m)
          (video_metadata m)
          (match creation_timestamp m with Some t => t | None => 0%Z end)]
  else [].

(** The body of the outer [forEach]. *)
Definition resultsOfPost (post : Post) (postIndex : nat) : list PostResult :=
  match media post with
  | None => []
  | Some medias => List.concat (mapi (resultOfMedia postIndex) medias)
  end.

Definition flattenPosts (posts : list Post) : list PostResult :=
  List.concat (mapi resultsOfPost posts).

Inductive MediaType : Type := all | photos | videos.
Inductive SortOrder : Type := newest | oldest.

(** [request.nextUrl.searchParams.get(name)] for the five parameters. *)
Record Request : Type := mkRequest {
  pageParam : option string;
  limitParam : option string;
  typeParam : option string;
  sortParam : option string;
  randomParam : option string
}.

Record Pagination : Type := mkPagination {
  pageNumber : Z;
  pageLimit : Z;
  total : Z;
  totalPages : Z;
  hasNextPage : bool;
  hasPreviousPage : bool
}.

(** The JSON responses of the route, by status; [Json200Random] is the
    answer [{ result }] to a random request, where [None] is an index
    outside the array. *)
Inductive Response : Type :=
  | Json200 (results : list PostResult) (pagination : Pagination)
  | Json200Random (result : option PostResult)
  | Json400 (error : string)
  | Json404 (error : string)
  | Json500.

Definition pageOf (param : option string) : Z :=
  match param with
  | None => 1%Z
  | Some p =>
      if (p =? EmptyString)%string then 1%Z
      else match parseInt p with
           | Num parsedPage => if (1 <=? parsedPage)%Z then parsedPage else 1%Z
           | _ => 1%Z
           end
  end.

Definition limitOf (param : option string) : Z :=
  match param with
  | None => 20%Z
  | Some l =>
      if (l =? EmptyString)%string then 20%Z
      else match parseInt l with
           | Num parsedLimit =>
               if (1 <=? parsedLimit)%Z then Z.min parsedLimit 100 else 20%Z
           | _ => 20%Z
           end
  end.

(** [(param?.toLowerCase() as T) || fallback]. *)
Definition lowerOr (param : option string) (fallback : string) : string :=
  match param with
  | None => fallback
  | Some value =>
      if (toLowerCase value =? EmptyString)%string then fallback else toLowerCase value
  end.

(** [validTypes.includes(type)], with the type it names. *)
Definition validType (type : string) : option MediaType :=
  if (type =? "all")%string then Some all
  else if (type =? "photos")%string then Some photos
  else if (type =? "videos")%string then Some videos
  else None.

Definition validSort (sort : string) : option SortOrder :=
  if (sort =? "newest")%string then Some newest
  else if (sort =? "oldest")%string then Some oldest
  else None.

(** [randomParam === 'true']. *)
Definition isTrue (param : option string) : bool :=
  match param with
  | Some value => (value =? "true")%string
  | None => false
  end.

Definition filterByType (type : MediaType) (results : list PostResult) : list PostResult :=
  match type with
  | all => results
  | photos => filter (fun r => negb (isVideo r)) results
  | videos => filter (fun r => isVideo r) results
  end.

(** The comparator given to [results.sort]. *)
Definition byTimestamp (sort : SortOrder) (a b : PostResult) : Q :=
  match sort with
  | newest => inject_Z (creationTimestamp b - creationTimestamp a)
  | oldest => inject_Z (creationTimestamp a - creationTimestamp b)
  end.

(** The page of the sorted results and the pagination object. *)
Definition paginate (results : list PostResult) (page limit : Z)
    : list PostResult * Pagination :=
  let total := Z.of_nat (List.length results) in
  let totalPages := Qceiling (inject_Z total / inject_Z limit) in
  let offset := ((page - 1) * limit)%Z in
  (slice results offset (offset + limit),
   mkPagination page limit total totalPages (page <? totalPages)%Z (1 <? page)%Z).

Section Route.

(** The posts of [public/posts_1.json], [None] when the file cannot be read
    or parsed, and the value of [Math.random()] for this request. *)
Variable postsJson : option (list Post).
Variable mathRandom : Q.

Definition GET (request : Request) : Response :=
  let page := pageOf (pageParam request) in
  let limit := limitOf (limitParam request) in
  match validType (lowerOr (typeParam request) "all") with
  | None => Json400 "Invalid type. Must be one of: all, photos, videos"
  | Some type =>
      match validSort (lowerOr (sortParam request) "newest") with
      | None => Json400 "Invalid sort. Must be one of: newest, oldest"
      | Some sortOrder =>
          match postsJson with
          | None => Json500
          | Some posts =>
              let results := filterByType type (flattenPosts posts) in
              if isTrue (randomParam request) then
                match results with
                | [] => Json404 "No posts available"
                | _ =>
                    let randomIndex :=
                      Qfloor (mathRandom * inject_Z (Z.of_nat (List.length results))) in
                    Json200Random
                      (if (randomIndex <? 0)%Z then None
                       else nth_error results (Z.to_nat randomIndex))
                end
              else
                let (paginatedResults, pagination) :=
                  paginate (sort (byTimestamp sortOrder) results) page limit in
                Json200 paginatedResults pagination
          end
      end
  end.

End Route.

(** The walk through the pages [1 .. totalPages] of a listing. *)
Definition allPages (results : list PostResult) (limit : Z) : list (list PostResult) :=
  map (fun p => fst (paginate results (Z.of_nat p) limit))
      (seq 1 (Z.to_nat (totalPages (snd (paginate results 1 limit))))).

Definition resultKey (r : PostResult) : string := getKey (postIndex r) (mediaIndex r).

(** Newest first, or oldest first. *)
Definition inOrder (sort : SortOrder) (a b : PostResult) : Prop :=
  match sort with
  | newest => (creationTimestamp b <= creationTimestamp a)%Z
  | oldest => (creationTimestamp a <= creationTimestamp b)%Z
  end.

(** A result is of the requested media type. *)
Definition ofType (type : MediaType) (r : PostResult) : bool :=
  match type with
  | all => true
  | photos => negb (isVideo r)
  | videos => isVideo r
  end.

(** The same request for another media type. *)
Definition withType (request : Request) (type : string) : Request :=
  mkRequest (pageParam request) (limitParam request) (Some type) (sortParam request)
    (randomParam request).

End PostsRoute.

Definition sampleListing : list PostsRoute.Post :=
  [PostsRoute.mkPost
     (Some [PostsRoute.mkPostMedia "media/posts/202107/a.jpg" (Some 1625097600%Z)
              "Lilly digs the garden" false;
            PostsRoute.mkPostMedia "media/posts/202107/b.mp4" (Some 1625097700%Z)
              EmptyString true;
            PostsRoute.mkPostMedia "media/posts/202107/c.mp4" None "Biscuit dance" true]);
   PostsRoute.mkPost None;
   PostsRoute.mkPost
     (Some [PostsRoute.mkPostMedia "media/posts/202108/d.jpg" (Some 1627776000%Z)
              "Cheese" false])].

Definition sampleListingRequest : PostsRoute.Request :=
  PostsRoute.mkRequest (Some "2") (Some "1") None (Some "Oldest") None.

Definition sampleRandomRequest : PostsRoute.Request :=
  PostsRoute.mkRequest None None (Some "videos") None (Some "true").

(** ** The chat route ([src/app/api/chat/route.ts]) *)

Module ChatRoute.

(** A message of the request body, with the fields the route reads. The
    body is not typed; a field that is present is taken to be a string, and
    [parts] to be the texts of an array of text parts. [None] is an absent
    field. *)
Record Message : Type := mkMessage {
  prompt : option string;
  content : option string;
  parts : option (list string)
}.

(** The request body: [InvalidJson] when [request.json()] rejects, and
    [messages] is [None] when the field is absent or not an array. *)
Inductive Body : Type :=
  | InvalidJson
  | Json (messages : option (list Message)).

(** What the route hands to the language model: the posts listed in the
    system prompt, in order, and the transformed messages. *)
Inductive Response : Type :=
  | Text400                       (* 'Messages array is required' *)
  | Text500                       (* 'GOOGLE_GENERATIVE_AI_API_KEY environment variable is not set' *)
  | Json500 (error : option Error) (* the catch; [None] is the error of the body *)
  | Streamed (moments : list SearchResult.t) (messages : list Message).

(** A response with the queries sent to the embedding provider while it was
    computed. *)
Record Served : Type := mkServed {
  providerCalls : list string;
  response : Response
}.

(** [value || fallback] for a string or [undefined]. *)
Definition orString (value : option string) (fallback : string) : string :=
  match value with
  | Some v => if (v =? EmptyString)%string then fallback else v
  | None => fallback
  end.

(** The callback of [messages.map]: [msg.prompt && !msg.parts]. *)
Definition transform (msg : Message) : Message :=
  match prompt msg, parts msg with
  | Some text, None =>
      if (text =? EmptyString)%string then msg
      else mkMessage (prompt msg) (content msg) (Some [text])
  | _, _ => msg
  end.

(** [messages[messages.length - 1]], [undefined] for an empty array. *)
Definition lastMessage (messages : list Message) : option Message :=
  match messages with
  | [] => None
  | _ => nth_error messages (List.length messages - 1)
  end.

(** [lastMessage?.prompt || lastMessage?.content || '']. *)
Definition searchQueryOf (messages : list Message) : string :=
  match lastMessage messages with
  | None => EmptyString
  | Some last => orString (prompt last) (orString (content last) EmptyString)
  end.

Section Route.

Variable BM25 : list string -> list string -> Q -> Q -> list Q.
Variable cosineSimilarity : list Q -> list Q -> Q.

Definition POST (env : Env) (body : Body) : Served :=
  match body with
  | InvalidJson => mkServed [] (Json500 None)
  | Json None => mkServed [] Text400
  | Json (Some messages) =>
      let transformedMessages := map transform messages in
      if apiKeyMissing env then mkServed [] Text500
      else
        let searchQuery := searchQueryOf messages in
        let search := hybridSearch BM25 cosineSimilarity env searchQuery 5 in
        match outcome search with
        | inr searchResults =>
            mkServed (calls search) (Streamed searchResults transformedMessages)
        | inl error => mkServed (calls search) (Json500 (Some error))
        end
  end.

End Route.

(** The message has no text for the search: neither a [prompt] nor a
    [content] that is truthy. *)
Definition textOnlyInParts (msg : Message) : bool :=
  (orString (prompt msg) (orString (content msg) EmptyString) =? EmptyString)%string.

End ChatRoute.

(** The message that the chat component sends: its text is in [parts]. *)
Definition sampleChatMessage : ChatRoute.Message :=
  ChatRoute.mkMessage None None (Some ["Do you like the garden?"]).

(** A message in the format with [prompt]. *)
Definition samplePromptMessage : ChatRoute.Message :=
  ChatRoute.mkMessage (Some "garden") None None.

(** An environment without the embeddings file. *)
Definition sampleEnvNoFile : Env :=
  mkEnv (Some "secret") None (fun _ => Some [1; 0]).
(** * Properties *)

(** ** Exact arithmetic on scores *)

Lemma Qplus_0_l_eq (x : Q) : 0 + x = x.
Proof.
  destruct x as [n d]. unfold Qplus. cbn [Qnum Qden].
  f_equal. lia.
Qed.

Lemma Qplus_0_r_eq (x : Q) : x + 0 = x.
Proof.
  destruct x as [n d]. unfold Qplus. cbn [Qnum Qden].
  f_equal; lia.
Qed.

Lemma Qplus_comm_eq (x y : Q) : x + y = y + x.
Proof.
  destruct x as [n d], y as [n' d']. unfold Qplus. cbn [Qnum Qden].
  f_equal; lia.
Qed.

Lemma Qplus_assoc_eq (x y z : Q) : (x + y) + z = x + (y + z).
Proof.
  destruct x as [n d], y as [n' d'], z as [n'' d'']. unfold Qplus. cbn [Qnum Qden].
  f_equal; [rewrite !Pos2Z.inj_mul; ring | lia].
Qed.

Lemma reciprocal_eq (k : N) (rank : positive) :
  1 / inject_Z (Z.of_N k + Z.pos rank) = 1 # rrfDenominator k rank.
Proof. destruct k; reflexivity. Qed.

Lemma reciprocal_pos (k : N) (rank : positive) :
  0 < 1 / inject_Z (Z.of_N k + Z.pos rank).
Proof. rewrite reciprocal_eq. reflexivity. Qed.

Lemma reciprocal_le (k : N) (rank : positive) :
  1 / inject_Z (Z.of_N k + Z.pos rank) <= 1 / inject_Z (Z.of_N k + 1).
Proof.
  change 1%Z with (Z.pos 1) at 3. rewrite !reciprocal_eq.
  unfold Qle. cbn [Qnum Qden]. destruct k; cbn [rrfDenominator]; lia.
Qed.

Lemma Qplus_nonneg_pos (a b : Q) : 0 <= a -> 0 < b -> 0 < a + b.
Proof.
  intros Ha Hb. rewrite Qplus_comm.
  apply (Qplus_lt_le_compat 0 b 0 a Hb Ha).
Qed.

(** ** The stable sort *)

Section SortFacts.
Context {A : Type} (score : A -> Q).

Lemma descending_le (x y : A) :
  Qle_bool (descending score x y) 0 = true <-> score y <= score x.
Proof.
  unfold descending. rewrite Qle_bool_iff.
  split; intro H.
  - apply Qplus_le_l with (z := - score x). rewrite Qplus_opp_r. exact H.
  - apply Qplus_le_l with (z := - score x) in H. rewrite Qplus_opp_r in H. exact H.
Qed.

Lemma descending_gt (x y : A) :
  Qle_bool (descending score x y) 0 = false <-> score x < score y.
Proof.
  rewrite <- Bool.not_true_iff_false, descending_le.
  split; [apply Qnot_le_lt | apply Qlt_not_le].
Qed.

Lemma insert_perm (x : A) (l : list A) :
  Permutation (insert (descending score) x l) (x :: l).
Proof.
  induction l as [|y rest IH]; cbn [insert].
  - reflexivity.
  - destruct (Qle_bool (descending score x y) 0).
    + reflexivity.
    + rewrite IH. apply perm_swap.
Qed.

Lemma sort_perm (l : list A) : Permutation (sort (descending score) l) l.
Proof.
  induction l as [|x rest IH]; cbn [sort fold_right].
  - reflexivity.
  - fold (sort (descending score) rest). rewrite insert_perm. now constructor.
Qed.

Lemma sort_length (l : list A) : List.length (sort (descending score) l) = List.length l.
Proof. apply Permutation_length, sort_perm. Qed.


Lemma insert_sorted (x : A) (l : list A) :
  StronglySorted (descendingBy score) l ->
  StronglySorted (descendingBy score) (insert (descending score) x l).
Proof.
  induction 1 as [|y rest Hrest IH Hy]; cbn [insert].
  - repeat constructor.
  - destruct (Qle_bool (descending score x y) 0) eqn:E.
    + apply descending_le in E.
      constructor; [now constructor|].
      constructor; [exact E|].
      rewrite Forall_forall in Hy |- *. intros z Hz.
      unfold descendingBy in *. eapply Qle_trans; [apply Hy, Hz | exact E].
    + apply descending_gt in E.
      constructor; [exact IH|].
      rewrite Forall_forall in Hy |- *. intros z Hz.
      apply (Permutation_in _ (insert_perm x rest)) in Hz.
      destruct Hz as [<-|Hz]; [apply Qlt_le_weak, E | apply Hy, Hz].
Qed.

Lemma sort_sorted (l : list A) :
  StronglySorted (descendingBy score) (sort (descending score) l).
Proof.
  induction l as [|x rest IH]; cbn [sort fold_right].
  - constructor.
  - apply insert_sorted, IH.
Qed.

(** Stability: elements of equal score keep their relative order. *)
Lemma insert_stable (s : Q) (x : A) (l : list A) :
  filter (fun a => Qeq_bool (score a) s) (insert (descending score) x l) =
  filter (fun a => Qeq_bool (score a) s) (x :: l).
Proof.
  induction l as [|y rest IH]; cbn [insert].
  - reflexivity.
  - destruct (Qle_bool (descending score x y) 0) eqn:E; [reflexivity|].
    apply descending_gt in E.
    cbn [filter] in *. rewrite IH.
    destruct (Qeq_bool (score x) s) eqn:Ex, (Qeq_bool (score y) s) eqn:Ey;
      try reflexivity.
    apply Qeq_bool_iff in Ex, Ey. rewrite Ex, Ey in E.
    now apply Qlt_irrefl in E.
Qed.

Lemma sort_stable (s : Q) (l : list A) :
  filter (fun a => Qeq_bool (score a) s) (sort (descending score) l) =
  filter (fun a => Qeq_bool (score a) s) l.
Proof.
  induction l as [|x rest IH]; cbn [sort fold_right].
  - reflexivity.
  - fold (sort (descending score) rest). rewrite insert_stable.
    cbn [filter]. now rewrite IH.
Qed.

(** A list sorted by strictly decreasing score is determined by its
    elements. *)
Lemma strictly_sorted_unique (l1 l2 : list A) :
  StronglySorted (fun a b => score b < score a) l1 ->
  StronglySorted (fun a b => score b < score a) l2 ->
  Permutation l1 l2 -> l1 = l2.
Proof.
  intros H1. revert l2.
  induction H1 as [|x rest Hrest IH Hx]; intros l2 H2 HP.
  - now apply Permutation_nil in HP.
  - destruct H2 as [|y rest2 Hrest2 Hy].
    + symmetry in HP. now apply Permutation_nil in HP.
    + assert (Hxy : x = y).
      { assert (In x (y :: rest2)) as [Heq|Hin]
          by (apply (Permutation_in _ HP); now left); [now symmetry|].
        assert (In y (x :: rest)) as [Heq|Hin']
          by (apply (Permutation_in _ (Permutation_sym HP)); now left); [easy|].
        rewrite Forall_forall in Hx, Hy.
        specialize (Hx _ Hin'). specialize (Hy _ Hin).
        exfalso. apply (Qlt_irrefl (score x)). eapply Qlt_trans; eassumption. }
      subst y. f_equal. apply IH; [exact Hrest2|].
      eapply Permutation_cons_inv, HP.
Qed.

End SortFacts.

(** ** Maps in insertion order *)

Section JsMapFacts.
Context {V : Type}.

Lemma map_get_set (key key' : string) (v : V) (m : JsMap V) :
  map_get key' (map_set key v m) =
  if (key =? key')%string then Some v else map_get key' m.
Proof.
  induction m as [|[k0 v0] rest IH]; cbn [map_set map_get].
  - reflexivity.
  - destruct (String.eqb_spec k0 key) as [->|Hne]; cbn [map_get].
    + destruct (String.eqb_spec key key'); reflexivity.
    + rewrite IH.
      destruct (String.eqb_spec k0 key') as [->|]; [|reflexivity].
      destruct (String.eqb_spec key key'); congruence.
Qed.

Lemma map_get_In (key : string) (v : V) (m : JsMap V) :
  map_get key m = Some v -> In (key, v) m.
Proof.
  induction m as [|[k0 v0] rest IH]; cbn [map_get]; [discriminate|].
  destruct (String.eqb_spec k0 key) as [->|].
  - intros [= ->]. now left.
  - intros H. right. now apply IH.
Qed.

Lemma map_get_None (key : string) (m : JsMap V) :
  map_get key m = None <-> ~ In key (map fst m).
Proof.
  induction m as [|[k0 v0] rest IH]; cbn [map_get map fst In].
  - tauto.
  - destruct (String.eqb_spec k0 key) as [->|Hne].
    + split; [discriminate | tauto].
    + rewrite IH. tauto.
Qed.

Lemma In_map_get (key : string) (v : V) (m : JsMap V) :
  NoDup (map fst m) -> In (key, v) m -> map_get key m = Some v.
Proof.
  induction m as [|[k0 v0] rest IH]; cbn [map_get map fst In]; [tauto|].
  intros Hnd [[= -> ->]|Hin].
  - now rewrite String.eqb_refl.
  - inversion Hnd as [|? ? Hnotin Hnd']; subst.
    destruct (String.eqb_spec k0 key) as [->|].
    + exfalso. apply Hnotin. change key with (fst (key, v)). now apply in_map.
    + now apply IH.
Qed.

Lemma map_fst_map_set (key : string) (v : V) (m : JsMap V) :
  map fst (map_set key v m) = appendNew (map fst m) key.
Proof.
  unfold appendNew.
  induction m as [|[k0 v0] rest IH]; cbn [map_set map fst existsb app].
  - reflexivity.
  - destruct (String.eqb_spec k0 key) as [->|Hne]; cbn [orb map fst].
    + reflexivity.
    + rewrite IH. now destruct (existsb _ (map fst rest)).
Qed.

End JsMapFacts.

Lemma existsb_eqb_In (key : string) (keys : list string) :
  existsb (fun k => (k =? key)%string) keys = true <-> In key keys.
Proof.
  rewrite existsb_exists. split.
  - intros (k & Hin & Heq). apply String.eqb_eq in Heq. now subst.
  - intros Hin. exists key. split; [exact Hin | apply String.eqb_refl].
Qed.

Lemma appendNew_In (keys : list string) (key x : string) :
  In x (appendNew keys key) <-> In x keys \/ x = key.
Proof.
  unfold appendNew. destruct (existsb _ keys) eqn:E.
  - apply existsb_eqb_In in E. split; [tauto|]. intros [H| ->]; assumption.
  - rewrite in_app_iff. cbn [In]. intuition congruence.
Qed.

Lemma appendNew_NoDup (keys : list string) (key : string) :
  NoDup keys -> NoDup (appendNew keys key).
Proof.
  unfold appendNew. intros Hnd. destruct (existsb _ keys) eqn:E; [exact Hnd|].
  apply NoDup_app; [exact Hnd | repeat constructor; easy |].
  intros x Hx [<-|[]].
  apply existsb_eqb_In in Hx. congruence.
Qed.

Lemma fold_appendNew_In (l keys : list string) (x : string) :
  In x (fold_left appendNew l keys) <-> In x keys \/ In x l.
Proof.
  revert keys. induction l as [|key rest IH]; intros keys; cbn [fold_left In].
  - tauto.
  - rewrite IH, appendNew_In. intuition congruence.
Qed.

Lemma fold_appendNew_NoDup (l keys : list string) :
  NoDup keys -> NoDup (fold_left appendNew l keys).
Proof.
  revert keys. induction l as [|key rest IH]; intros keys Hnd; cbn [fold_left].
  - exact Hnd.
  - apply IH, appendNew_NoDup, Hnd.
Qed.

Lemma firstOccurrences_In (l : list string) (x : string) :
  In x (firstOccurrences l) <-> In x l.
Proof. unfold firstOccurrences. rewrite fold_appendNew_In. cbn [In]. tauto. Qed.

Lemma firstOccurrences_NoDup (l : list string) : NoDup (firstOccurrences l).
Proof. apply fold_appendNew_NoDup. constructor. Qed.

(** ** The score map of [fuseRRF] *)

Lemma fold_left_map_list {A B C : Type} (f : A -> C -> A) (g : B -> C) (l : list B) (a : A) :
  fold_left (fun acc x => f acc (g x)) l a = fold_left f (map g l) a.
Proof. revert a. induction l as [|x rest IH]; intros a; cbn; [reflexivity | apply IH]. Qed.

Lemma rrfScoresOf_accumulate sem kw k :
  rrfScoresOf sem kw k = accumulate k [] (contributions sem kw).
Proof.
  unfold rrfScoresOf, accumulate, contributions.
  rewrite fold_left_app.
  rewrite <- (fold_left_map_list
                (fun m e => map_set (fst e)
                   (orZero (map_get (fst e) m) + 1 / inject_Z (Z.of_N k + Z.pos (snd e))) m)
                keywordKey).
  rewrite <- (fold_left_map_list
                (fun m e => map_set (fst e)
                   (orZero (map_get (fst e) m) + 1 / inject_Z (Z.of_N k + Z.pos (snd e))) m)
                rankedKey).
  reflexivity.
Qed.

Lemma accumulate_keys k m l :
  map fst (accumulate k m l) = fold_left appendNew (map fst l) (map fst m).
Proof.
  revert m. induction l as [|e rest IH]; intros m; cbn [accumulate fold_left map].
  - reflexivity.
  - unfold accumulate in IH. rewrite IH, map_fst_map_set. reflexivity.
Qed.

Lemma positiveValues_get key v m :
  positiveValues m -> map_get key m = Some v -> 0 < v.
Proof.
  intros Hpos Hget. apply map_get_In in Hget.
  unfold positiveValues in Hpos. rewrite Forall_forall in Hpos.
  exact (Hpos _ Hget).
Qed.

Lemma positiveValues_set key v m :
  positiveValues m -> 0 < v -> positiveValues (map_set key v m).
Proof.
  intros Hpos Hv. induction m as [|[k0 v0] rest IH]; cbn [map_set].
  - repeat constructor. exact Hv.
  - inversion Hpos as [|? ? H0 Hrest]; subst.
    destruct (k0 =? key)%string; constructor; cbn [snd] in *; auto.
    now apply IH.
Qed.

Lemma orZero_pos v : 0 < v -> orZero (Some v) = v.
Proof.
  intros Hv. unfold orZero. destruct (Qeq_bool v 0) eqn:E; [|reflexivity].
  apply Qeq_bool_iff in E. rewrite E in Hv. now apply Qlt_irrefl in Hv.
Qed.

Lemma orZero_get_nonneg key m : positiveValues m -> 0 <= orZero (map_get key m).
Proof.
  intros Hpos. destruct (map_get key m) as [v|] eqn:E; cbn [orZero].
  - destruct (Qeq_bool v 0); [apply Qle_refl|].
    apply Qlt_le_weak. eapply positiveValues_get; eassumption.
  - apply Qle_refl.
Qed.

Lemma positiveValues_accumulate k m l :
  positiveValues m -> positiveValues (accumulate k m l).
Proof.
  revert m. induction l as [|e rest IH]; intros m Hpos; cbn [accumulate fold_left].
  - exact Hpos.
  - apply IH. apply positiveValues_set; [exact Hpos|].
    apply Qplus_nonneg_pos; [apply orZero_get_nonneg, Hpos | apply reciprocal_pos].
Qed.

Lemma accumulate_get k key m l :
  positiveValues m ->
  map_get key (accumulate k m l) =
  match map_get key m with
  | Some v => Some (sumFor k key v l)
  | None =>
      if existsb (fun e => (fst e =? key)%string) l
      then Some (sumFor k key 0 l) else None
  end.
Proof.
  revert m. induction l as [|e rest IH]; intros m Hpos;
    cbn [accumulate fold_left sumFor existsb].
  - now destruct (map_get key m).
  - fold (accumulate k (map_set (fst e)
            (orZero (map_get (fst e) m) + 1 / inject_Z (Z.of_N k + Z.pos (snd e))) m) rest).
    rewrite IH.
    2:{ apply positiveValues_set; [exact Hpos|].
        apply Qplus_nonneg_pos; [apply orZero_get_nonneg, Hpos | apply reciprocal_pos]. }
    rewrite map_get_set.
    destruct (String.eqb_spec (fst e) key) as [<-|Hne]; cbn [orb].
    + destruct (map_get (fst e) m) as [v|] eqn:Eget.
      * rewrite (orZero_pos v) by (eapply positiveValues_get; eassumption).
        reflexivity.
      * cbn [orZero]. reflexivity.
    + reflexivity.
Qed.

(** ** The key of a document and its decoding *)

Lemma string_of_uint_noHyphen (d : Decimal.uint) :
  noHyphen (NilEmpty.string_of_uint d) = true.
Proof. induction d; cbn; auto. Qed.

Lemma string_of_uint_nonempty (d : Decimal.uint) :
  d <> Decimal.Nil -> NilEmpty.string_of_uint d <> EmptyString.
Proof. destruct d; cbn; congruence. Qed.

(** The decimal digits of a non-negative integer. *)
Lemma numberToString_digits (n : Z) :
  (0 <= n)%Z ->
  exists d, d <> Decimal.Nil /\
            numberToString n = NilEmpty.string_of_uint d /\
            Z.of_uint d = n.
Proof.
  intros Hn. unfold numberToString. destruct n as [|p|p]; [| |lia].
  - exists (Decimal.D0 Decimal.Nil). repeat split. discriminate.
  - exists (Pos.to_uint p). cbn [Z.to_int NilZero.string_of_int].
    pose proof (DecimalPos.Unsigned.to_uint_nonnil p) as Hnil.
    split; [exact Hnil|]. split.
    + unfold NilZero.string_of_uint. destruct (Pos.to_uint p); congruence.
    + unfold Z.of_uint. now rewrite DecimalPos.Unsigned.of_to.
Qed.

Lemma numberToString_noHyphen (n : Z) :
  (0 <= n)%Z -> noHyphen (numberToString n) = true.
Proof.
  intros Hn. destruct (numberToString_digits n Hn) as (d & _ & -> & _).
  apply string_of_uint_noHyphen.
Qed.

Lemma Number_numberToString (n : Z) :
  (0 <= n)%Z -> Number (numberToString n) = Num n.
Proof.
  intros Hn. destruct (numberToString_digits n Hn) as (d & Hnil & -> & <-).
  unfold Number.
  destruct (NilEmpty.string_of_uint d) eqn:E.
  - now apply string_of_uint_nonempty in E.
  - rewrite <- E, NilEmpty.usu. reflexivity.
Qed.

Lemma split_noHyphen (s : string) :
  noHyphen s = true -> split hyphen s = [s].
Proof.
  induction s as [|c rest IH]; cbn [noHyphen split]; [reflexivity|].
  intros H. apply andb_prop in H as [Hc Hrest].
  apply negb_true_iff in Hc. rewrite Hc, (IH Hrest). reflexivity.
Qed.

Lemma split_append (s1 s2 : string) :
  noHyphen s1 = true ->
  split hyphen (s1 ++ String hyphen s2) = s1 :: split hyphen s2.
Proof.
  induction s1 as [|c rest IH]; cbn [noHyphen split String.append].
  - intros _. now rewrite Ascii.eqb_refl.
  - intros H. apply andb_prop in H as [Hc Hrest].
    apply negb_true_iff in Hc. rewrite Hc, (IH Hrest). reflexivity.
Qed.

(** The encoding [`${postIndex}-${mediaIndex}`] of two non-negative integers
    is decoded by [split('-').map(Number)] to the same two integers. *)
Lemma entryToFused_getKey (postIndex mediaIndex : Z) (score : Q) :
  (0 <= postIndex)%Z -> (0 <= mediaIndex)%Z ->
  entryToFused (getKey postIndex mediaIndex, score) =
  FusedResult.mk (Num postIndex) (Num mediaIndex) score.
Proof.
  intros Hp Hm. unfold entryToFused, getKey. cbn [fst snd].
  change ("-" ++ numberToString mediaIndex)%string
    with (String hyphen (numberToString mediaIndex)).
  rewrite split_append by now apply numberToString_noHyphen.
  rewrite split_noHyphen by now apply numberToString_noHyphen.
  cbn [map nth]. now rewrite !Number_numberToString.
Qed.

Lemma fusedKey_entryToFused (postIndex mediaIndex : Z) (score : Q) :
  (0 <= postIndex)%Z -> (0 <= mediaIndex)%Z ->
  fusedKey (entryToFused (getKey postIndex mediaIndex, score)) =
  getKey postIndex mediaIndex.
Proof. intros Hp Hm. now rewrite entryToFused_getKey. Qed.

(** ** Sums of reciprocal ranks *)

Lemma sumFor_cons k key s e l :
  sumFor k key s (e :: l) =
  sumFor k key (if (fst e =? key)%string
                then s + 1 / inject_Z (Z.of_N k + Z.pos (snd e)) else s) l.
Proof. reflexivity. Qed.

Lemma sumFor_start k key s l :
  sumFor k key s l = s + sumFor k key 0 l.
Proof.
  revert s. induction l as [|e rest IH]; intros s.
  - cbn. now rewrite Qplus_0_r_eq.
  - rewrite !sumFor_cons. destruct (fst e =? key)%string.
    + rewrite (IH (s + _)), (IH (0 + _)), Qplus_0_l_eq. apply Qplus_assoc_eq.
    + apply IH.
Qed.

Lemma sumFor_app k key s l1 l2 :
  sumFor k key s (l1 ++ l2) = sumFor k key s l1 + sumFor k key 0 l2.
Proof.
  unfold sumFor at 1. rewrite fold_left_app. fold (sumFor k key).
  apply sumFor_start.
Qed.

Lemma sumFor_absent k key s l :
  ~ In key (map fst l) -> sumFor k key s l = s.
Proof.
  revert s. induction l as [|e rest IH]; intros s Hnotin.
  - reflexivity.
  - rewrite sumFor_cons. cbn [map In] in Hnotin.
    destruct (String.eqb_spec (fst e) key); [tauto|]. apply IH. tauto.
Qed.

Lemma sumFor_single k key rank l :
  NoDup (map fst l) -> In (key, rank) l ->
  sumFor k key 0 l = 1 / inject_Z (Z.of_N k + Z.pos rank).
Proof.
  induction l as [|e rest IH]; cbn [map In]; [tauto|].
  intros Hnd Hin. inversion Hnd as [|? ? Hnotin Hnd']; subst.
  rewrite sumFor_cons.
  destruct Hin as [->|Hin]; cbn [fst snd] in *.
  - rewrite String.eqb_refl, sumFor_absent by exact Hnotin.
    apply Qplus_0_l_eq.
  - destruct (String.eqb_spec (fst e) key) as [Heq|_].
    + exfalso. apply Hnotin. rewrite Heq.
      change key with (fst (key, rank)). now apply in_map.
    + now apply IH.
Qed.

Lemma sumFor_pos k key s l : 0 < s -> 0 < sumFor k key s l.
Proof.
  revert s. induction l as [|e rest IH]; intros s Hs.
  - exact Hs.
  - rewrite sumFor_cons. destruct (fst e =? key)%string; apply IH; [|exact Hs].
    apply Qplus_nonneg_pos; [now apply Qlt_le_weak | apply reciprocal_pos].
Qed.

Lemma sumFor_nonneg k key l : 0 <= sumFor k key 0 l.
Proof.
  induction l as [|e rest IH].
  - apply Qle_refl.
  - rewrite sumFor_cons. destruct (fst e =? key)%string; [|exact IH].
    apply Qlt_le_weak, sumFor_pos. rewrite Qplus_0_l_eq. apply reciprocal_pos.
Qed.


(** With one entry per key, the sum has at most one term and that term is at
    most [1 / (k + 1)]. *)
Lemma sumFor_le_one_term k key l :
  NoDup (map fst l) -> sumFor k key 0 l <= 1 / inject_Z (Z.of_N k + 1).
Proof.
  intros Hnd. destruct (in_dec string_dec key (map fst l)) as [Hin|Hnotin].
  - apply in_map_iff in Hin as ([key' rank] & Heq & Hin). cbn [fst] in Heq. subst key'.
    rewrite (sumFor_single k key rank l Hnd Hin). apply reciprocal_le.
  - rewrite sumFor_absent by exact Hnotin.
    apply Qlt_le_weak. apply (reciprocal_pos k 1).
Qed.

(** ** The score map after both loops *)

Lemma existsb_fst_In (key : string) (l : list (string * positive)) :
  existsb (fun e => (fst e =? key)%string) l = true <-> In key (map fst l).
Proof.
  rewrite existsb_exists, in_map_iff. split.
  - intros (e & Hin & Heq). apply String.eqb_eq in Heq. eauto.
  - intros (e & Heq & Hin). exists e. split; [exact Hin|]. now apply String.eqb_eq.
Qed.

Lemma rrfScoresOf_keys sem kw k :
  map fst (rrfScoresOf sem kw k) = firstOccurrences (map fst (contributions sem kw)).
Proof. rewrite rrfScoresOf_accumulate. apply accumulate_keys. Qed.

Lemma rrfScoresOf_NoDup sem kw k : NoDup (map fst (rrfScoresOf sem kw k)).
Proof. rewrite rrfScoresOf_keys. apply firstOccurrences_NoDup. Qed.

Lemma rrfScoresOf_get sem kw k key :
  map_get key (rrfScoresOf sem kw k) =
  if existsb (fun e => (fst e =? key)%string) (contributions sem kw)
  then Some (sumFor k key 0 (contributions sem kw)) else None.
Proof.
  rewrite rrfScoresOf_accumulate, accumulate_get by constructor. reflexivity.
Qed.

Lemma rrfScoresOf_In sem kw k key score :
  In (key, score) (rrfScoresOf sem kw k) <->
  In key (map fst (contributions sem kw)) /\
  score = sumFor k key 0 (contributions sem kw).
Proof.
  split.
  - intros Hin. apply In_map_get in Hin; [|apply rrfScoresOf_NoDup].
    rewrite rrfScoresOf_get in Hin.
    destruct (existsb _ _) eqn:E; [|discriminate].
    apply existsb_fst_In in E. now injection Hin as <-.
  - intros [Hin ->]. apply map_get_In. rewrite rrfScoresOf_get.
    apply existsb_fst_In in Hin. now rewrite Hin.
Qed.

Lemma contributions_sum sem kw k key :
  sumFor k key 0 (contributions sem kw) =
  sumFor k key 0 (map rankedKey sem) + sumFor k key 0 (map keywordKey kw).
Proof. apply sumFor_app. Qed.

Lemma fuseRRF_perm sem kw k :
  Permutation (fuseRRF sem kw k) (map entryToFused (rrfScoresOf sem kw k)).
Proof. apply (sort_perm FusedResult.rrfScore). Qed.

(** ** Fused scores *)

(** C1.  [fuseRRF] turns the entries of its score map, one per key that
    appears in an input list and none for any other key, into the fused
    results; the score of a key is the sum, over the entries of the two lists
    that carry the key, of [1 / (k + rank)].  When each list holds a key at
    most once, a key at ranks [r1] and [r2] of the two lists scores exactly
    [1 / (k + r1) + 1 / (k + r2)] and a key at rank [r] of one list only
    scores exactly [1 / (k + r)]; a document with non-negative indices is
    reported under its own indices with that score. *)
Theorem fuseRRF_score_is_sum_of_reciprocal_ranks
    (semanticRanks : list RankedResult.t) (keywordRanks : list KeywordSearchResult.t)
    (k : N) :
  let rrfScores := rrfScoresOf semanticRanks keywordRanks k in
  Permutation (fuseRRF semanticRanks keywordRanks k) (map entryToFused rrfScores) /\
  NoDup (map fst rrfScores) /\
  (forall key,
      In key (map fst rrfScores) <->
      In key (semanticKeys semanticRanks) \/ In key (keywordKeys keywordRanks)) /\
  (forall key score,
      In (key, score) rrfScores ->
      score = sumFor k key 0 (map rankedKey semanticRanks) +
              sumFor k key 0 (map keywordKey keywordRanks)) /\
  (NoDup (semanticKeys semanticRanks) -> NoDup (keywordKeys keywordRanks) ->
   forall key score,
     In (key, score) rrfScores ->
     (forall r1 r2,
         In (key, r1) (map rankedKey semanticRanks) ->
         In (key, r2) (map keywordKey keywordRanks) ->
         score = reciprocalRank k r1 + reciprocalRank k r2) /\
     (forall r,
         In (key, r) (map rankedKey semanticRanks) ->
         ~ In key (keywordKeys keywordRanks) ->
         score = reciprocalRank k r) /\
     (forall r,
         ~ In key (semanticKeys semanticRanks) ->
         In (key, r) (map keywordKey keywordRanks) ->
         score = reciprocalRank k r)) /\
  (forall postIndex mediaIndex score,
      (0 <= postIndex)%Z -> (0 <= mediaIndex)%Z ->
      In (getKey postIndex mediaIndex, score) rrfScores ->
      In (FusedResult.mk (Num postIndex) (Num mediaIndex) score)
         (fuseRRF semanticRanks keywordRanks k)).
Proof.
  intros rrfScores. subst rrfScores.
  split; [apply fuseRRF_perm|].
  split; [apply rrfScoresOf_NoDup|].
  split.
  { intros key. rewrite rrfScoresOf_keys, firstOccurrences_In.
    unfold contributions, semanticKeys, keywordKeys.
    rewrite map_app, in_app_iff. reflexivity. }
  split.
  { intros key score Hin. apply rrfScoresOf_In in Hin as [_ ->].
    apply contributions_sum. }
  split.
  { intros Hsem Hkw key score Hin.
    apply rrfScoresOf_In in Hin as [_ ->]. rewrite contributions_sum.
    unfold reciprocalRank, semanticKeys, keywordKeys in *.
    repeat split.
    - intros r1 r2 H1 H2.
      now rewrite (sumFor_single k key r1 _ Hsem H1), (sumFor_single k key r2 _ Hkw H2).
    - intros r H1 H2.
      rewrite (sumFor_single k key r _ Hsem H1), sumFor_absent by exact H2.
      apply Qplus_0_r_eq.
    - intros r H1 H2.
      rewrite (sumFor_single k key r _ Hkw H2), sumFor_absent by exact H1.
      apply Qplus_0_l_eq. }
  intros postIndex mediaIndex score Hp Hm Hin.
  apply (Permutation_in _ (Permutation_sym (fuseRRF_perm _ _ _))).
  rewrite <- (entryToFused_getKey postIndex mediaIndex score Hp Hm).
  now apply in_map.
Qed.

(** The scenario of the specification: with [k = 60], list 1 = A, B and
    list 2 = B, C give B the score [1/62 + 1/61], A the score [1/61] and C the
    score [1/62], in the order B, A, C. *)
Example fuseRRF_scenario :
  fuseRRF scenarioList1 scenarioList2 60 =
  [FusedResult.mk (Num 0) (Num 1) (reciprocalRank 60 2 + reciprocalRank 60 1);
   FusedResult.mk (Num 0) (Num 0) (reciprocalRank 60 1);
   FusedResult.mk (Num 1) (Num 0) (reciprocalRank 60 2)].
Proof. reflexivity. Qed.

(** ** Order of the fused results *)

Lemma fuseRRF_sorted sem kw k :
  StronglySorted (descendingBy FusedResult.rrfScore) (fuseRRF sem kw k).
Proof. apply (sort_sorted FusedResult.rrfScore). Qed.

(** C4, as stated, fails: the semantic ranking A, B and the keyword ranking
    B, A of the corpus B, A give both posts the score [1/61 + 1/62], and the
    fused output lists A before B, against the order of the corpus. *)
Lemma fuseRRF_ties_not_in_corpus_order :
  ~ tiesInCorpusOrder corpusBA (fuseRRF semanticAB keywordBA defaultK).
Proof.
  intros H.
  destruct (H 0%nat 1%nat
              (FusedResult.mk (Num 0) (Num 0) (123 # 3782))
              (FusedResult.mk (Num 0) (Num 1) (123 # 3782)))
    as (pa & pb & Ha & Hb & Hlt); try reflexivity; [lia|].
  cbn in Ha, Hb. injection Ha as <-. injection Hb as <-. lia.
Qed.

(** C4, amended.  The fused results are sorted by descending score, and
    results of equal score keep the order in which their keys entered the
    score map: the keys of the semantic list in its order, then the keys that
    only the keyword list holds, in its order. *)
Theorem fuseRRF_ties_in_insertion_order
    (semanticRanks : list RankedResult.t) (keywordRanks : list KeywordSearchResult.t)
    (k : N) (score : Q) :
  StronglySorted (descendingBy FusedResult.rrfScore)
                 (fuseRRF semanticRanks keywordRanks k) /\
  filter (fun fused => Qeq_bool (FusedResult.rrfScore fused) score)
         (fuseRRF semanticRanks keywordRanks k) =
  filter (fun fused => Qeq_bool (FusedResult.rrfScore fused) score)
         (map entryToFused (rrfScoresOf semanticRanks keywordRanks k)) /\
  map fst (rrfScoresOf semanticRanks keywordRanks k) =
  firstOccurrences (semanticKeys semanticRanks ++ keywordKeys keywordRanks).
Proof.
  split; [apply fuseRRF_sorted|].
  split; [apply (sort_stable FusedResult.rrfScore)|].
  rewrite rrfScoresOf_keys. unfold contributions, semanticKeys, keywordKeys.
  now rewrite map_app.
Qed.

(** Exchanging the input lists. *)

Lemma rankedKey_toRanked (r : KeywordSearchResult.t) :
  rankedKey (KeywordSearchResult.toRanked r) = keywordKey r.
Proof. reflexivity. Qed.

Lemma contributions_toRanked (a b : list KeywordSearchResult.t) :
  contributions (map KeywordSearchResult.toRanked a) b =
  map keywordKey a ++ map keywordKey b.
Proof.
  unfold contributions. rewrite map_map.
  f_equal.
Qed.

Lemma rrfScoresOf_swap (a b : list KeywordSearchResult.t) (k : N) :
  Permutation (rrfScoresOf (map KeywordSearchResult.toRanked a) b k)
              (rrfScoresOf (map KeywordSearchResult.toRanked b) a k).
Proof.
  apply NoDup_Permutation.
  - eapply NoDup_map_inv, rrfScoresOf_NoDup.
  - eapply NoDup_map_inv, rrfScoresOf_NoDup.
  - intros [key score]. rewrite !rrfScoresOf_In, !contributions_toRanked.
    rewrite !map_app, !in_app_iff, !sumFor_app.
    rewrite (Qplus_comm_eq (sumFor k key 0 (map keywordKey a))). tauto.
Qed.

Lemma fuseRRF_swap_perm (a b : list KeywordSearchResult.t) (k : N) :
  Permutation (fuseRRF (map KeywordSearchResult.toRanked a) b k)
              (fuseRRF (map KeywordSearchResult.toRanked b) a k).
Proof.
  rewrite !fuseRRF_perm. apply Permutation_map, rrfScoresOf_swap.
Qed.

Lemma noTies_perm (l1 l2 : list FusedResult.t) :
  Permutation l1 l2 -> noTies l1 -> noTies l2.
Proof.
  unfold noTies. induction 1 as [|x l l' HP IH|x y l|l l' l'' _ IH1 _ IH2]; intros H.
  - exact H.
  - inversion H as [|? ? Hx Hl]; subst. constructor; [|now apply IH].
    eapply Permutation_Forall; eassumption.
  - inversion H as [|? ? Hy Hrest]; subst.
    inversion Hrest as [|? ? Hx Hl]; subst.
    inversion Hy as [|? ? Hyx Hyl]; subst.
    constructor; [constructor; [|exact Hx] | constructor; assumption].
    intros Heq. apply Hyx. now symmetry.
  - auto.
Qed.

Lemma noTies_strictly_sorted (l : list FusedResult.t) :
  noTies l -> StronglySorted (descendingBy FusedResult.rrfScore) l ->
  StronglySorted (fun a b => FusedResult.rrfScore b < FusedResult.rrfScore a) l.
Proof.
  unfold noTies. induction 1 as [|x l Hx Hl IH]; intros Hs; [constructor|].
  inversion Hs as [|? ? Hs' Hle]; subst.
  constructor; [now apply IH|].
  rewrite Forall_forall in *. intros y Hy.
  specialize (Hx y Hy). specialize (Hle y Hy). unfold descendingBy in Hle.
  apply Qle_lteq in Hle as [Hlt|Heq]; [exact Hlt|].
  exfalso. apply Hx. now symmetry.
Qed.

(** C5, as stated, fails: A and B tie at [1/61 + 1/62], and each order of
    the two lists puts first the post that its first list ranks first. *)
Lemma fuseRRF_not_commutative :
  map fusedKey (fuseRRF (map KeywordSearchResult.toRanked keywordAB) keywordBA defaultK) <>
  map fusedKey (fuseRRF (map KeywordSearchResult.toRanked keywordBA) keywordAB defaultK).
Proof. vm_compute. discriminate. Qed.

(** C5, amended.  Exchanging the two input lists leaves the fused results,
    each with its score, the same up to their order, and the order itself is
    unchanged when no two results have the same fused score. *)
Theorem fuseRRF_commutative_up_to_ties (a b : list KeywordSearchResult.t) (k : N) :
  Permutation (fuseRRF (map KeywordSearchResult.toRanked a) b k)
              (fuseRRF (map KeywordSearchResult.toRanked b) a k) /\
  (noTies (fuseRRF (map KeywordSearchResult.toRanked a) b k) ->
   fuseRRF (map KeywordSearchResult.toRanked a) b k =
   fuseRRF (map KeywordSearchResult.toRanked b) a k).
Proof.
  split; [apply fuseRRF_swap_perm|].
  intros Hties.
  apply (strictly_sorted_unique FusedResult.rrfScore).
  - apply noTies_strictly_sorted; [exact Hties | apply fuseRRF_sorted].
  - apply noTies_strictly_sorted; [|apply fuseRRF_sorted].
    eapply noTies_perm; [apply fuseRRF_swap_perm | exact Hties].
  - apply fuseRRF_swap_perm.
Qed.

(** ** Blank queries and the tokenizer *)

Lemma trimEnd_empty (s : string) :
  trimEnd s = EmptyString <-> allWhiteSpace s = true.
Proof.
  induction s as [|c rest IH]; cbn [trimEnd allWhiteSpace]; [tauto|].
  destruct (trimEnd rest) eqn:E.
  - destruct (isWhiteSpace c); cbn [andb]; [tauto|]. split; discriminate.
  - split; [discriminate|]. intros H. apply andb_prop in H as [_ H].
    apply IH in H. discriminate.
Qed.

Lemma trimStart_allWhiteSpace (s : string) :
  allWhiteSpace (trimStart s) = allWhiteSpace s.
Proof.
  induction s as [|c rest IH]; cbn [trimStart allWhiteSpace]; [reflexivity|].
  destruct (isWhiteSpace c) eqn:E; cbn [andb allWhiteSpace]; [exact IH|].
  now rewrite E.
Qed.

(** The guard of the search functions holds exactly for the queries that are
    empty or made of white space. *)
Lemma isBlank_allWhiteSpace (query : string) :
  isBlank query = allWhiteSpace query.
Proof.
  unfold isBlank, trim.
  destruct (allWhiteSpace query) eqn:E.
  - rewrite <- trimStart_allWhiteSpace in E. apply trimEnd_empty in E.
    rewrite E. apply orb_true_r.
  - apply orb_false_iff. split.
    + apply String.eqb_neq. intros ->. discriminate.
    + apply String.eqb_neq. intros H. apply trimEnd_empty in H.
      rewrite trimStart_allWhiteSpace in H. congruence.
Qed.

Lemma isWhiteSpace_not_token (c : ascii) :
  isWhiteSpace c = true -> toLowerCaseChar c = c /\ isTokenChar c = false.
Proof.
  destruct c as [[] [] [] [] [] [] [] []]; cbn; intros H;
    try discriminate H; split; reflexivity.
Qed.

Lemma splitNonAlnum_whiteSpace (s : string) :
  allWhiteSpace s = true ->
  Forall (fun token => token = EmptyString) (splitNonAlnum (toLowerCase s)).
Proof.
  induction s as [|c rest IH]; cbn [allWhiteSpace toLowerCase splitNonAlnum].
  - repeat constructor.
  - intros H. apply andb_prop in H as [Hc Hrest].
    destruct (isWhiteSpace_not_token c Hc) as [-> ->].
    specialize (IH Hrest).
    destruct (toLowerCase rest) as [|c' rest'] eqn:E.
    + repeat constructor.
    + destruct (isTokenChar c'); [constructor; [reflexivity|]|]; exact IH.
Qed.

Lemma isBlank_tokenize (query : string) :
  isBlank query = true -> tokenize query = [].
Proof.
  rewrite isBlank_allWhiteSpace. intros H.
  apply splitNonAlnum_whiteSpace in H. unfold tokenize.
  induction H as [|token tokens -> _ IH]; cbn; [reflexivity | exact IH].
Qed.

(** ** The keyword scorer *)

Lemma skipn_nth_error {A : Type} (n : nat) (l : list A) :
  skipn n l = match nth_error l n with
              | Some x => x :: skipn (S n) l
              | None => []
              end.
Proof.
  revert l. induction n as [|n IH]; intros [|x rest]; cbn; try reflexivity.
  apply IH.
Qed.

Lemma combine_nil_r {A B : Type} (l : list A) : combine l (@nil B) = [].
Proof. now destruct l. Qed.

Lemma resultsWithScores_from (embeddings : list PostEmbedding.t) (scores : list Q) (n : nat) :
  List.concat
    (mapi_from (fun post index =>
                  match nth_error scores index with
                  | Some score =>
                      if negb (Qle_bool score 0)
                      then [ScoredPost.mk (PostEmbedding.postIndex post)
                              (PostEmbedding.mediaIndex post) score]
                      else []
                  | None => []
                  end) n embeddings) =
  map scoredOf (filter positiveScore (combine embeddings (skipn n scores))).
Proof.
  revert n. induction embeddings as [|post rest IH]; intros n; [reflexivity|].
  cbn [mapi_from List.concat]. rewrite IH, (skipn_nth_error n scores).
  destruct (nth_error scores n) as [score|] eqn:E.
  - cbn [combine filter]. unfold positiveScore at 2. cbn [snd].
    destruct (negb (Qle_bool score 0)); reflexivity.
  - cbn [combine app].
    assert (Hnil : skipn (S n) scores = []).
    { apply skipn_all2. apply nth_error_None in E. lia. }
    rewrite Hnil, combine_nil_r. reflexivity.
Qed.

(** The posts that pass the filter are the posts paired with a score above
    zero, in corpus order. *)
Lemma resultsWithScores_eq (embeddings : list PostEmbedding.t) (scores : list Q) :
  resultsWithScores embeddings scores =
  map scoredOf (filter positiveScore (combine embeddings scores)).
Proof. apply (resultsWithScores_from embeddings scores 0). Qed.

Lemma positiveScore_iff (p : PostEmbedding.t * Q) :
  positiveScore p = true <-> 0 < snd p.
Proof.
  unfold positiveScore. rewrite negb_true_iff, <- Bool.not_true_iff_false, Qle_bool_iff.
  split; [apply Qnot_le_lt | apply Qlt_not_le].
Qed.

Section MapiFacts.
Context {A B C : Type} (f : A -> nat -> B) (g : B -> C) (h : A -> C).
Hypothesis g_f : forall x i, g (f x i) = h x.

Lemma map_mapi_from (n : nat) (l : list A) : map g (mapi_from f n l) = map h l.
Proof.
  revert n. induction l as [|x rest IH]; intros n; cbn; [reflexivity|].
  now rewrite g_f, IH.
Qed.

Lemma map_mapi (l : list A) : map g (mapi f l) = map h l.
Proof. apply map_mapi_from. Qed.

End MapiFacts.

Lemma mapi_from_length {A B : Type} (f : A -> nat -> B) (n : nat) (l : list A) :
  List.length (mapi_from f n l) = List.length l.
Proof. revert n. induction l as [|x rest IH]; intros n; cbn; [reflexivity | now rewrite IH]. Qed.

Lemma mapi_length {A B : Type} (f : A -> nat -> B) (l : list A) :
  List.length (mapi f l) = List.length l.
Proof. apply mapi_from_length. Qed.

Lemma map_index_mapi_from {A B C : Type} (f : A -> nat -> B) (g : B -> C) (r : nat -> C)
    (n : nat) (l : list A) :
  (forall x i, g (f x i) = r i) ->
  map g (mapi_from f n l) = map r (seq n (List.length l)).
Proof.
  intros Hg. revert n. induction l as [|x rest IH]; intros n; cbn; [reflexivity|].
  now rewrite Hg, IH.
Qed.

Lemma StronglySorted_map_iff {A B : Type} (f : A -> B) (R : B -> B -> Prop) (l : list A) :
  StronglySorted R (map f l) <-> StronglySorted (fun x y => R (f x) (f y)) l.
Proof.
  induction l as [|x rest IH]; cbn [map].
  - split; constructor.
  - split; intros H; inversion H as [|? ? Hs Hall]; subst.
    + constructor; [now apply IH|]. rewrite Forall_map in Hall. exact Hall.
    + constructor; [now apply IH|]. rewrite Forall_map. exact Hall.
Qed.

(** ** Runs *)

Lemma outcome_bind {A B : Type} (m : Run A) (f : A -> Run B) :
  outcome (bind m f) =
  match outcome m with
  | inl e => inl e
  | inr x => outcome (f x)
  end.
Proof. unfold bind. now destruct (outcome m). Qed.

Lemma mapM_cons {A B : Type} (f : A -> Run B) (x : A) (l : list A) :
  outcome (mapM f (x :: l)) =
  match outcome (f x) with
  | inl e => inl e
  | inr y => match outcome (mapM f l) with
             | inl e => inl e
             | inr ys => inr (y :: ys)
             end
  end.
Proof.
  cbn [mapM]. rewrite outcome_bind. destruct (outcome (f x)); [reflexivity|].
  rewrite outcome_bind. now destruct (outcome (mapM f l)).
Qed.

Lemma mapM_error {A B : Type} (f : A -> Run B) (l : list A) (e : Error) :
  outcome (mapM f l) = inl e -> exists x, In x l /\ outcome (f x) = inl e.
Proof.
  induction l as [|x rest IH]; [discriminate|].
  rewrite mapM_cons. destruct (outcome (f x)) as [e'|y] eqn:Ex.
  - intros [= ->]. exists x. split; [now left | exact Ex].
  - destruct (outcome (mapM f rest)) as [e'|ys]; [|discriminate].
    intros [= ->]. destruct (IH eq_refl) as (x' & Hin & Hx').
    exists x'. split; [now right | exact Hx'].
Qed.

Lemma mapM_value {A B : Type} (f : A -> Run B) (l : list A) (ys : list B) :
  outcome (mapM f l) = inr ys -> Forall2 (fun x y => outcome (f x) = inr y) l ys.
Proof.
  revert ys. induction l as [|x rest IH]; intros ys.
  - intros [= <-]. constructor.
  - rewrite mapM_cons. destruct (outcome (f x)) as [e|y] eqn:Ex; [discriminate|].
    destruct (outcome (mapM f rest)) as [e|ys']; [discriminate|].
    intros [= <-]. constructor; [exact Ex | now apply IH].
Qed.

Lemma mapM_succeeds {A B : Type} (f : A -> Run B) (l : list A) :
  (forall x, In x l -> exists y, outcome (f x) = inr y) ->
  exists ys, outcome (mapM f l) = inr ys.
Proof.
  intros Hok. destruct (outcome (mapM f l)) as [e|ys] eqn:E; [|now exists ys].
  apply mapM_error in E as (x & Hin & Hx).
  destruct (Hok x Hin) as (y & Hy). congruence.
Qed.

Lemma mapM_calls {A B : Type} (f : A -> Run B) (l : list A) :
  (forall x, calls (f x) = []) -> calls (mapM f l) = [].
Proof.
  intros Hf. induction l as [|x rest IH]; [reflexivity|].
  cbn [mapM]. unfold bind at 1.
  destruct (outcome (f x)); [apply Hf|].
  rewrite Hf. cbn [app]. unfold bind.
  destruct (outcome (mapM f rest)); [exact IH|].
  rewrite IH. reflexivity.
Qed.

Lemma resolve_calls (embeddingMap : JsMap PostEmbedding.t) key similarity :
  calls (resolve embeddingMap key similarity) = [].
Proof. unfold resolve. now destruct (map_get key embeddingMap). Qed.

(** ** The embedding map *)

Lemma map_of_entries_keys {V : Type} (entries : list (string * V)) :
  map fst (map_of_entries entries) = firstOccurrences (map fst entries).
Proof.
  unfold map_of_entries, firstOccurrences.
  change (@nil string) with (map fst (@nil (string * V))).
  generalize (@nil (string * V)) as m.
  induction entries as [|e rest IH]; intros m; cbn [fold_left map]; [reflexivity|].
  rewrite IH, map_fst_map_set. reflexivity.
Qed.

(** Every post of the corpus is found under its key. *)
Lemma embeddingMapOf_get (embeddings : list PostEmbedding.t) (key : string) :
  In key (map postKey embeddings) ->
  exists post, map_get key (embeddingMapOf embeddings) = Some post.
Proof.
  intros Hin.
  destruct (map_get key (embeddingMapOf embeddings)) as [post|] eqn:E; [now exists post|].
  exfalso. apply map_get_None in E. apply E.
  unfold embeddingMapOf. rewrite map_of_entries_keys, firstOccurrences_In.
  now rewrite map_map.
Qed.

Lemma resolve_ok (embeddings : list PostEmbedding.t) key similarity :
  In key (map postKey embeddings) ->
  exists result,
    outcome (resolve (embeddingMapOf embeddings) key similarity) = inr result /\
    SearchResult.similarity result = similarity.
Proof.
  intros Hin. destruct (embeddingMapOf_get embeddings key Hin) as (post & Hpost).
  unfold resolve. rewrite Hpost. eexists. split; reflexivity.
Qed.

Lemma resolve_error (embeddingMap : JsMap PostEmbedding.t) key similarity e :
  outcome (resolve embeddingMap key similarity) = inl e ->
  e = PostNotFound key /\ map_get key embeddingMap = None.
Proof.
  unfold resolve. destruct (map_get key embeddingMap); [discriminate|].
  now intros [= <-].
Qed.

Lemma firstn_In {A : Type} (n : nat) (l : list A) (x : A) :
  In x (firstn n l) -> In x l.
Proof.
  intros H. rewrite <- (firstn_skipn n l). apply in_or_app. now left.
Qed.

Lemma slice0_In {A : Type} (l : list A) (topK : Z) (x : A) :
  In x (slice0 l topK) -> In x l.
Proof.
  unfold slice0. destruct (topK <? 0)%Z; apply firstn_In.
Qed.

Lemma slice0_length {A : Type} (l : list A) (topK : Z) :
  (0 <= topK)%Z ->
  List.length (slice0 l topK) = Nat.min (Z.to_nat topK) (List.length l).
Proof.
  intros H. unfold slice0. destruct (Z.ltb_spec topK 0); [lia|].
  apply length_firstn.
Qed.


(** ** The ranked lists of the two scorers *)

Lemma filter_combine_keys_In (P : PostEmbedding.t * Q -> bool)
    (embeddings : list PostEmbedding.t) (scores : list Q) (key : string) :
  In key (map (fun p => postKey (fst p)) (filter P (combine embeddings scores))) ->
  In key (map postKey embeddings).
Proof.
  rewrite !in_map_iff. intros ([post score] & <- & Hin).
  apply filter_In in Hin as [Hin _]. apply in_combine_l in Hin.
  exists post. now split.
Qed.


Section SearchProperties.

Variable BM25 : list string -> list string -> Q -> Q -> list Q.
Variable cosineSimilarity : list Q -> list Q -> Q.

(** The ranked keyword list is empty, or it is the sorted list of the posts
    with a positive score, numbered from 1. *)
Lemma getKeywordRanks_cases (query : string) (embeddings : list PostEmbedding.t) :
  (tokenize query = [] /\ getKeywordRanks BM25 query embeddings = []) \/
  (tokenize query <> [] /\
   getKeywordRanks BM25 query embeddings =
   mapi (fun result index =>
           KeywordSearchResult.mk (ScoredPost.postIndex result)
             (ScoredPost.mediaIndex result) (Pos.of_succ_nat index)
             (ScoredPost.score result))
        (sort byScore
           (resultsWithScores embeddings
              (BM25 (map PostEmbedding.title embeddings) (tokenize query) bm25_k1 bm25_b)))).
Proof.
  unfold getKeywordRanks. destruct (isBlank query) eqn:Eblank.
  - left. split; [now apply isBlank_tokenize | reflexivity].
  - destruct (tokenize query) as [|token tokens] eqn:Etok.
    + left. now split.
    + right. split; [discriminate | reflexivity].
Qed.

Lemma getKeywordRanks_toScored (query : string) (embeddings : list PostEmbedding.t) :
  tokenize query <> [] ->
  map toScored (getKeywordRanks BM25 query embeddings) =
  sort byScore
    (resultsWithScores embeddings
       (BM25 (map PostEmbedding.title embeddings) (tokenize query) bm25_k1 bm25_b)).
Proof.
  intros Htok. destruct (getKeywordRanks_cases query embeddings) as [[H _]|[_ ->]];
    [contradiction|].
  rewrite (map_mapi _ toScored (fun s => s)); [apply map_id|].
  now intros [p m s] i.
Qed.

Lemma keywordKeys_toScored (ranked : list KeywordSearchResult.t) :
  keywordKeys ranked = map scoredKey (map toScored ranked).
Proof. unfold keywordKeys. rewrite !map_map. reflexivity. Qed.

Lemma getKeywordRanks_keys_perm (query : string) (embeddings : list PostEmbedding.t) :
  tokenize query <> [] ->
  Permutation (keywordKeys (getKeywordRanks BM25 query embeddings))
    (map (fun p => postKey (fst p))
       (filter positiveScore
          (combine embeddings
             (BM25 (map PostEmbedding.title embeddings) (tokenize query) bm25_k1 bm25_b)))).
Proof.
  intros Htok. rewrite keywordKeys_toScored, getKeywordRanks_toScored by exact Htok.
  rewrite (sort_perm ScoredPost.score), resultsWithScores_eq, map_map. reflexivity.
Qed.

Lemma getKeywordRanks_keys_In (query : string) (embeddings : list PostEmbedding.t) key :
  In key (keywordKeys (getKeywordRanks BM25 query embeddings)) ->
  In key (map postKey embeddings).
Proof.
  destruct (getKeywordRanks_cases query embeddings) as [[_ ->]|[Htok _]]; [intros []|].
  intros Hin. apply (Permutation_in _ (getKeywordRanks_keys_perm _ _ Htok)) in Hin.
  eapply filter_combine_keys_In, Hin.
Qed.


Lemma semanticRanksOf_keys_perm (queryEmbedding : list Q) (embeddings : list PostEmbedding.t) :
  Permutation (semanticKeys (semanticRanksOf cosineSimilarity queryEmbedding embeddings))
              (map postKey embeddings).
Proof.
  unfold semanticKeys, semanticRanksOf. rewrite map_map.
  rewrite (map_mapi _ (fun r => fst (rankedKey r)) scoredKey) by reflexivity.
  rewrite (sort_perm ScoredPost.score), map_map. reflexivity.
Qed.

Lemma semanticRanksOf_length (queryEmbedding : list Q) (embeddings : list PostEmbedding.t) :
  List.length (semanticRanksOf cosineSimilarity queryEmbedding embeddings) =
  List.length embeddings.
Proof.
  unfold semanticRanksOf.
  now rewrite mapi_length, (sort_length ScoredPost.score), length_map.
Qed.

(** ** Keyword mode *)

(** C2.  The ranked keyword list holds posts with a BM25 score above zero
    only, in descending order of score, with the ranks 1, 2, ..., n; for a
    query that has a token it holds exactly the posts of the corpus whose BM25
    score over the titles, with [k1 = 1.3] and [b = 0.9], is above zero, and
    for a query without a token it is empty.  Keyword mode reports the scores
    of the first [topK] entries of this list. *)
Theorem getKeywordRanks_positive_sorted_ranked
    (query : string) (embeddings : list PostEmbedding.t) :
  let scores := BM25 (map PostEmbedding.title embeddings) (tokenize query) (13 # 10) (9 # 10) in
  let ranked := getKeywordRanks BM25 query embeddings in
  Forall (fun r => 0 < KeywordSearchResult.score r) ranked /\
  StronglySorted (descendingBy KeywordSearchResult.score) ranked /\
  map KeywordSearchResult.rank ranked = ranksUpTo (List.length ranked) /\
  (tokenize query <> [] ->
   Permutation (map toScored ranked)
               (map scoredOf (filter positiveScore (combine embeddings scores)))) /\
  (tokenize query = [] -> ranked = []) /\
  (forall env topK,
      isBlank query = false -> embeddingsJson env = Some embeddings ->
      exists results,
        outcome (keywordSearch BM25 env query topK) = inr results /\
        map SearchResult.similarity results =
        map KeywordSearchResult.score (slice0 ranked topK)).
Proof.
  intros scores ranked.
  assert (Hperm : tokenize query <> [] ->
                  Permutation (map toScored ranked)
                    (map scoredOf (filter positiveScore (combine embeddings scores)))).
  { intros Htok. subst ranked. rewrite getKeywordRanks_toScored by exact Htok.
    rewrite (sort_perm ScoredPost.score). now rewrite resultsWithScores_eq. }
  assert (Hscore : map KeywordSearchResult.score ranked = map ScoredPost.score (map toScored ranked))
    by now rewrite map_map.
  repeat split.
  - destruct (getKeywordRanks_cases query embeddings) as [[_ H]|[Htok _]];
      [subst ranked; rewrite H; constructor|].
    apply Forall_forall. intros r Hr.
    assert (Hin : In (toScored r) (map toScored ranked)) by now apply in_map.
    apply (Permutation_in _ (Hperm Htok)) in Hin.
    apply in_map_iff in Hin as (p & Hp & Hin). apply filter_In in Hin as [_ Hpos].
    apply positiveScore_iff in Hpos.
    change (KeywordSearchResult.score r) with (ScoredPost.score (toScored r)).
    now rewrite <- Hp.
  - destruct (getKeywordRanks_cases query embeddings) as [[_ H]|[Htok _]];
      [subst ranked; rewrite H; constructor|].
    apply (StronglySorted_map_iff toScored (descendingBy ScoredPost.score)).
    subst ranked. rewrite getKeywordRanks_toScored by exact Htok.
    apply (sort_sorted ScoredPost.score).
  - destruct (getKeywordRanks_cases query embeddings) as [[_ H]|[_ H]];
      subst ranked; rewrite H; [reflexivity|].
    unfold mapi, ranksUpTo. rewrite mapi_from_length.
    now apply map_index_mapi_from.
  - exact Hperm.
  - intros Htok. destruct (getKeywordRanks_cases query embeddings) as [[_ H]|[H _]];
      [exact H | contradiction].
  - intros env topK Hblank Hload.
    unfold keywordSearch. rewrite Hblank. unfold loadEmbeddings. rewrite Hload.
    rewrite outcome_bind. cbn [ret outcome]. fold ranked.
    assert (Hok : forall l : list KeywordSearchResult.t,
               (forall r, In r l -> In r ranked) ->
               exists results,
                 outcome (mapM (fun r => resolve (embeddingMapOf embeddings)
                                           (getKey (KeywordSearchResult.postIndex r)
                                                   (KeywordSearchResult.mediaIndex r))
                                           (KeywordSearchResult.score r)) l) = inr results /\
                 map SearchResult.similarity results = map KeywordSearchResult.score l).
    { induction l as [|r rest IH]; intros Hsub.
      - exists []. now split.
      - destruct IH as (results & Hres & Hsim); [intros r' Hr'; apply Hsub; now right|].
        destruct (resolve_ok embeddings
                    (getKey (KeywordSearchResult.postIndex r) (KeywordSearchResult.mediaIndex r))
                    (KeywordSearchResult.score r)) as (result & Hresult & Hs).
        { apply (getKeywordRanks_keys_In query). unfold keywordKeys.
          rewrite map_map. apply in_map_iff. exists r. split; [reflexivity|].
          apply Hsub. now left. }
        exists (result :: results). rewrite mapM_cons, Hresult, Hres.
        split; [reflexivity|]. cbn [map]. now rewrite Hs, Hsim. }
    apply Hok. intros r. apply slice0_In.
Qed.

(** ** Blank queries *)


(** ** Semantic mode *)


(** ** Hybrid mode *)

(** The outcome of [hybridSearch], case by case. *)
Lemma hybridSearch_outcome (env : Env) (query : string) (topK : Z) :
  outcome (hybridSearch BM25 cosineSimilarity env query topK) =
  if isBlank query then inr []
  else match embeddingsJson env with
       | None => inl LoadEmbeddingsError
       | Some corpus =>
           if apiKeyMissing env then inl ConfigurationError
           else match provider env query with
                | None => inl EmbeddingProviderError
                | Some queryEmbedding =>
                    outcome
                      (mapM (fun fused =>
                               resolve (embeddingMapOf corpus) (fusedKey fused)
                                 (FusedResult.rrfScore fused))
                            (slice0
                               (fuseRRF
                                  (semanticRanksOf cosineSimilarity queryEmbedding corpus)
                                  (getKeywordRanks BM25 query corpus) defaultK)
                               topK))
                end
       end.
Proof.
  unfold hybridSearch, getSemanticRanks, loadEmbeddings, embed.
  destruct (isBlank query); [reflexivity|].
  destruct (embeddingsJson env) as [corpus|]; [|reflexivity].
  rewrite outcome_bind. cbn [ret outcome].
  destruct (apiKeyMissing env); [reflexivity|].
  rewrite !outcome_bind. cbn [outcome].
  destruct (provider env query); reflexivity.
Qed.

Lemma hybridSearch_calls (env : Env) (query : string) (topK : Z) :
  calls (hybridSearch BM25 cosineSimilarity env query topK) =
  if isBlank query then []
  else match embeddingsJson env with
       | None => []
       | Some _ => if apiKeyMissing env then [] else [query]
       end.
Proof.
  unfold hybridSearch, getSemanticRanks, loadEmbeddings, embed.
  destruct (isBlank query); [reflexivity|].
  destruct (embeddingsJson env) as [corpus|]; [|reflexivity].
  destruct (apiKeyMissing env); [reflexivity|].
  unfold bind. cbn [ret outcome calls app].
  destruct (provider env query); cbn [outcome calls app]; [|reflexivity].
  rewrite mapM_calls; [reflexivity|]. intros fused. apply resolve_calls.
Qed.

(** A fused result carries the key of an entry of the score map. *)
Lemma fuseRRF_In sem kw k fused :
  In fused (fuseRRF sem kw k) ->
  exists key, fused = entryToFused (key, FusedResult.rrfScore fused) /\
              In (key, FusedResult.rrfScore fused) (rrfScoresOf sem kw k).
Proof.
  intros Hin. apply (Permutation_in _ (fuseRRF_perm sem kw k)) in Hin.
  apply in_map_iff in Hin as ([key score] & <- & Hin). exists key. now split.
Qed.

(** In a corpus with non-negative indices, the key rebuilt from a fused
    result is the key of a post. *)
Lemma fusedKey_in_corpus corpus sem kw k fused :
  Forall nonNegativeIndices corpus ->
  (forall key, In key (semanticKeys sem) -> In key (map postKey corpus)) ->
  (forall key, In key (keywordKeys kw) -> In key (map postKey corpus)) ->
  In fused (fuseRRF sem kw k) ->
  In (fusedKey fused) (map postKey corpus).
Proof.
  intros Hnonneg Hsem Hkw Hin.
  apply fuseRRF_In in Hin as (key & -> & Hin).
  apply rrfScoresOf_In in Hin as [Hkey _].
  assert (Hcorpus : In key (map postKey corpus)).
  { unfold contributions in Hkey. rewrite map_app, in_app_iff in Hkey.
    destruct Hkey; [now apply Hsem | now apply Hkw]. }
  pose proof Hcorpus as Hpost. apply in_map_iff in Hpost as (post & <- & Hpost).
  rewrite Forall_forall in Hnonneg. destruct (Hnonneg post Hpost) as [Hp Hm].
  unfold postKey in *. now rewrite fusedKey_entryToFused.
Qed.

Lemma hybrid_fusedKey_in_corpus corpus query queryEmbedding fused :
  Forall nonNegativeIndices corpus ->
  In fused (fuseRRF (semanticRanksOf cosineSimilarity queryEmbedding corpus)
                    (getKeywordRanks BM25 query corpus) defaultK) ->
  In (fusedKey fused) (map postKey corpus).
Proof.
  intros Hnonneg. apply fusedKey_in_corpus; [exact Hnonneg| |].
  - intros key. apply Permutation_in, semanticRanksOf_keys_perm.
  - intros key. apply getKeywordRanks_keys_In.
Qed.


(** C3.  For a query that is not blank and a loaded corpus, hybrid mode
    fails when the semantic call fails: with the configuration error when the
    credential is not set, before any call to the provider, and with the error
    of the provider when the embedding call fails.  It does not fail because
    the keyword list is empty: fusion then runs on the semantic list alone,
    and for posts with non-negative indices the search returns results, one
    per fused entry up to [topK], and at least one when the corpus is not
    empty and [topK] is positive. *)
Theorem hybridSearch_fails_only_with_semantic_call
    (env : Env) (query : string) (topK : Z) (corpus : list PostEmbedding.t) :
  isBlank query = false ->
  embeddingsJson env = Some corpus ->
  (apiKeyMissing env = true ->
   hybridSearch BM25 cosineSimilarity env query topK = mkRun [] (inl ConfigurationError)) /\
  (apiKeyMissing env = false -> provider env query = None ->
   hybridSearch BM25 cosineSimilarity env query topK =
   mkRun [query] (inl EmbeddingProviderError)) /\
  (forall queryEmbedding,
      apiKeyMissing env = false -> provider env query = Some queryEmbedding ->
      Forall nonNegativeIndices corpus ->
      getKeywordRanks BM25 query corpus = [] ->
      exists results,
        outcome (hybridSearch BM25 cosineSimilarity env query topK) = inr results /\
        map SearchResult.similarity results =
        map FusedResult.rrfScore
            (slice0 (fuseRRF (semanticRanksOf cosineSimilarity queryEmbedding corpus)
                             [] defaultK) topK) /\
        (corpus <> [] -> (0 < topK)%Z -> results <> [])).
Proof.
  intros Hblank Hload. repeat split.
  - intros Hkey. unfold hybridSearch, getSemanticRanks, loadEmbeddings.
    now rewrite Hblank, Hload, Hkey.
  - intros Hkey Hembed. unfold hybridSearch, getSemanticRanks, loadEmbeddings, embed.
    now rewrite Hblank, Hload, Hkey, Hembed.
  - intros queryEmbedding Hkey Hembed Hnonneg Hkw.
    rewrite hybridSearch_outcome, Hblank, Hload, Hkey, Hembed.
    pose proof (hybrid_fusedKey_in_corpus corpus query queryEmbedding) as Hresolve.
    rewrite Hkw in *.
    set (fusedResults := fuseRRF (semanticRanksOf cosineSimilarity queryEmbedding corpus)
                                 [] defaultK) in *.
    assert (Hok : forall l : list FusedResult.t,
               (forall fused, In fused l -> In fused fusedResults) ->
               exists results,
                 outcome (mapM (fun fused =>
                                  resolve (embeddingMapOf corpus) (fusedKey fused)
                                    (FusedResult.rrfScore fused)) l) = inr results /\
                 map SearchResult.similarity results = map FusedResult.rrfScore l).
    { induction l as [|fused rest IH]; intros Hsub.
      - exists []. now split.
      - destruct IH as (results & Hres & Hsim); [intros f Hf; apply Hsub; now right|].
        destruct (resolve_ok corpus (fusedKey fused) (FusedResult.rrfScore fused))
          as (result & Hresult & Hs).
        { apply Hresolve; [exact Hnonneg|]. apply Hsub. now left. }
        exists (result :: results). rewrite mapM_cons, Hresult, Hres.
        split; [reflexivity|]. cbn [map]. now rewrite Hs, Hsim. }
    destruct (Hok (slice0 fusedResults topK)) as (results & Hres & Hsim);
      [intros fused; apply slice0_In|].
    exists results. repeat split; [exact Hres | exact Hsim|].
    intros Hcorpus HtopK ->. cbn [map] in Hsim. symmetry in Hsim.
    apply map_eq_nil in Hsim.
    assert (Hlen : List.length (slice0 fusedResults topK) = 0%nat) by now rewrite Hsim.
    rewrite slice0_length in Hlen by lia.
    destruct corpus as [|post rest]; [contradiction|].
    assert (Hin : In (postKey post)
                     (map fst (rrfScoresOf
                                 (semanticRanksOf cosineSimilarity queryEmbedding (post :: rest))
                                 [] defaultK))).
    { rewrite rrfScoresOf_keys, firstOccurrences_In.
      unfold contributions. cbn [map]. rewrite List.app_nil_r.
      apply (Permutation_in _ (Permutation_sym (semanticRanksOf_keys_perm _ _))).
      now left. }
    assert (Hfused : List.length fusedResults <> 0%nat).
    { subst fusedResults. unfold fuseRRF.
      rewrite (sort_length FusedResult.rrfScore), length_map, <- (length_map fst).
      intros Hzero. apply length_zero_iff_nil in Hzero. now rewrite Hzero in Hin. }
    lia.
Qed.

(** ** Resolution of the ranked keys *)

Lemma keywordSearch_outcome (env : Env) (query : string) (topK : Z) :
  outcome (keywordSearch BM25 env query topK) =
  if isBlank query then inr []
  else match embeddingsJson env with
       | None => inl LoadEmbeddingsError
       | Some corpus =>
           outcome
             (mapM (fun ranked =>
                      resolve (embeddingMapOf corpus)
                        (getKey (KeywordSearchResult.postIndex ranked)
                                (KeywordSearchResult.mediaIndex ranked))
                        (KeywordSearchResult.score ranked))
                   (slice0 (getKeywordRanks BM25 query corpus) topK))
       end.
Proof.
  unfold keywordSearch, loadEmbeddings.
  destruct (isBlank query); [reflexivity|].
  destruct (embeddingsJson env) as [corpus|]; [|reflexivity].
  now rewrite outcome_bind.
Qed.

(** C9.  When the indices of every loaded post are non-negative integers,
    neither hybrid mode nor keyword mode throws 'Post not found': the key of
    a post, decoded by [split('-').map(Number)], gives back the indices of
    the post, so every key that the scorers or the fusion produce is a key of
    the embedding map.  (The uniqueness of the pairs of indices is not
    needed.) *)
Theorem post_not_found_unreachable
    (env : Env) (query : string) (topK : Z) (key : string) :
  Forall nonNegativeIndices (corpusOf env) ->
  outcome (hybridSearch BM25 cosineSimilarity env query topK) <> inl (PostNotFound key) /\
  outcome (keywordSearch BM25 env query topK) <> inl (PostNotFound key) /\
  (forall post score,
      In post (corpusOf env) ->
      entryToFused (postKey post, score) =
      FusedResult.mk (Num (PostEmbedding.postIndex post))
                     (Num (PostEmbedding.mediaIndex post)) score).
Proof.
  intros Hnonneg. unfold corpusOf in Hnonneg |- *. repeat split.
  - rewrite hybridSearch_outcome.
    destruct (isBlank query); [discriminate|].
    destruct (embeddingsJson env) as [corpus|]; [|discriminate].
    destruct (apiKeyMissing env); [discriminate|].
    destruct (provider env query) as [queryEmbedding|]; [|discriminate].
    intros Herr. apply mapM_error in Herr as (fused & Hin & Herr).
    apply resolve_error in Herr as [_ Hnone].
    apply slice0_In in Hin.
    apply (hybrid_fusedKey_in_corpus corpus query queryEmbedding fused Hnonneg) in Hin.
    apply embeddingMapOf_get in Hin as (post & Hpost). congruence.
  - rewrite keywordSearch_outcome.
    destruct (isBlank query); [discriminate|].
    destruct (embeddingsJson env) as [corpus|]; [|discriminate].
    intros Herr. apply mapM_error in Herr as (ranked & Hin & Herr).
    apply resolve_error in Herr as [_ Hnone].
    apply slice0_In in Hin.
    assert (Hkey : In (getKey (KeywordSearchResult.postIndex ranked)
                              (KeywordSearchResult.mediaIndex ranked))
                      (map postKey corpus)).
    { apply (getKeywordRanks_keys_In query). unfold keywordKeys. rewrite map_map.
      apply in_map_iff. exists ranked. now split. }
    apply embeddingMapOf_get in Hkey as (post & Hpost). congruence.
  - intros post score Hin. rewrite Forall_forall in Hnonneg.
    destruct (Hnonneg post Hin) as [Hp Hm].
    now apply entryToFused_getKey.
Qed.

(** ** The range of the fused scores *)


End SearchProperties.

(** ** Cosine similarity of a vector of zero magnitude *)

Section CosineFacts.
Import CosineSimilarity.
Local Open Scope R_scope.

Lemma dotProduct_self_nonneg (vector : list R) : 0 <= dotProduct vector vector.
Proof.
  unfold dotProduct. induction vector as [|x rest IH]; cbn; [lra|].
  pose proof (Rle_0_sqr x) as Hx. unfold Rsqr in Hx. lra.
Qed.

Lemma magnitude_zero_iff (vector : list R) :
  magnitude vector = 0 <-> Forall (fun x => x = 0) vector.
Proof.
  unfold magnitude. split.
  - intros H. apply sqrt_eq_0 in H; [|apply dotProduct_self_nonneg].
    induction vector as [|x rest IH]; [constructor|].
    pose proof (dotProduct_self_nonneg rest) as Hrest.
    pose proof (Rle_0_sqr x) as Hx. unfold Rsqr in Hx.
    unfold dotProduct in H, Hrest. cbn in H.
    assert (Hxx : x * x = 0) by lra.
    constructor.
    + apply Rmult_integral in Hxx. tauto.
    + apply IH. unfold dotProduct. lra.
  - intros H. replace (dotProduct vector vector) with 0; [apply sqrt_0|].
    induction H as [|x rest -> _ IH]; [reflexivity|].
    unfold dotProduct in *. cbn. rewrite <- IH. lra.
Qed.

(** C8.  The cosine similarity of two embeddings is 0 when the query
    embedding or the document embedding has zero magnitude, that is, when all
    its components are 0; otherwise it is the dot product divided by the
    product of the two magnitudes, and that product is not zero. *)
Theorem cosineSimilarity_zero_magnitude (queryEmbedding embedding : list Q) :
  (magnitude (vectorOf queryEmbedding) = 0 \/ magnitude (vectorOf embedding) = 0 ->
   cosineSimilarity (vectorOf queryEmbedding) (vectorOf embedding) = 0) /\
  (Forall (fun x => (x == 0)%Q) queryEmbedding \/ Forall (fun x => (x == 0)%Q) embedding ->
   cosineSimilarity (vectorOf queryEmbedding) (vectorOf embedding) = 0) /\
  (magnitude (vectorOf queryEmbedding) <> 0 -> magnitude (vectorOf embedding) <> 0 ->
   magnitude (vectorOf queryEmbedding) * magnitude (vectorOf embedding) <> 0 /\
   cosineSimilarity (vectorOf queryEmbedding) (vectorOf embedding) =
   dotProduct (vectorOf queryEmbedding) (vectorOf embedding) /
   (magnitude (vectorOf queryEmbedding) * magnitude (vectorOf embedding))).
Proof.
  assert (Hzero : magnitude (vectorOf queryEmbedding) = 0 \/
                  magnitude (vectorOf embedding) = 0 ->
                  cosineSimilarity (vectorOf queryEmbedding) (vectorOf embedding) = 0).
  { unfold cosineSimilarity. intros [H|H].
    - destruct (Req_dec_T (magnitude (vectorOf queryEmbedding)) 0); [reflexivity | contradiction].
    - destruct (Req_dec_T (magnitude (vectorOf queryEmbedding)) 0); [reflexivity|].
      destruct (Req_dec_T (magnitude (vectorOf embedding)) 0); [reflexivity | contradiction]. }
  assert (Hall : forall v : list Q, Forall (fun x => (x == 0)%Q) v -> magnitude (vectorOf v) = 0).
  { intros v Hv. apply magnitude_zero_iff. unfold vectorOf.
    apply Forall_map. eapply Forall_impl; [|exact Hv].
    intros x Hx. cbn beta. rewrite (Qreals.Qeq_eqR _ _ Hx). apply RMicromega.Q2R_0. }
  split; [exact Hzero|]. split.
  - intros [H|H]; apply Hzero; [left | right]; now apply Hall.
  - intros H1 H2. split.
    + intros H. apply Rmult_integral in H. tauto.
    + unfold cosineSimilarity.
      destruct (Req_dec_T (magnitude (vectorOf queryEmbedding)) 0); [contradiction|].
      destruct (Req_dec_T (magnitude (vectorOf embedding)) 0); [contradiction | reflexivity].
Qed.

End CosineFacts.

(** ** The theorems on concrete inputs *)

Lemma fuseRRF_score_is_sum_of_reciprocal_ranks_witness :
  NoDup (semanticKeys scenarioList1) /\
  NoDup (keywordKeys scenarioList2) /\
  In ("0-1"%string, 123 # 3782) (rrfScoresOf scenarioList1 scenarioList2 60) /\
  123 # 3782 = reciprocalRank 60 2 + reciprocalRank 60 1.
Proof.
  assert (H1 : NoDup (semanticKeys scenarioList1)).
  { vm_compute. repeat constructor; cbn; intuition discriminate. }
  assert (H2 : NoDup (keywordKeys scenarioList2)).
  { vm_compute. repeat constructor; cbn; intuition discriminate. }
  assert (H3 : In ("0-1"%string, 123 # 3782) (rrfScoresOf scenarioList1 scenarioList2 60)).
  { vm_compute. right. left. reflexivity. }
  split; [exact H1|]. split; [exact H2|]. split; [exact H3|].
  destruct (fuseRRF_score_is_sum_of_reciprocal_ranks scenarioList1 scenarioList2 60)
    as (_ & _ & _ & _ & H & _).
  destruct (H H1 H2 "0-1"%string (123 # 3782) H3) as (Hboth & _ & _).
  apply Hboth; vm_compute; auto.
Defined.

Lemma getKeywordRanks_positive_sorted_ranked_witness :
  tokenize "garden" <> [] /\
  Permutation
    (map toScored (getKeywordRanks sampleBM25 "garden" scenarioCorpus))
    (map scoredOf
       (filter positiveScore
          (combine scenarioCorpus
             (sampleBM25 (map PostEmbedding.title scenarioCorpus) (tokenize "garden")
                (13 # 10) (9 # 10))))).
Proof.
  assert (H : tokenize "garden" <> []) by (vm_compute; discriminate).
  split; [exact H|].
  destruct (getKeywordRanks_positive_sorted_ranked sampleBM25 "garden" scenarioCorpus)
    as (_ & _ & _ & Hperm & _).
  exact (Hperm H).
Defined.

(** The keyword scenario of the specification: the query "garden" returns
    the post about the garden and not the post about cheese. *)
Example keywordSearch_scenario :
  map SearchResult.title
      (match outcome (keywordSearch sampleBM25
                        (mkEnv None (Some scenarioCorpus) (fun _ => None)) "garden" 10) with
       | inr results => results
       | inl _ => []
       end) = ["Lilly digs the garden"%string].
Proof. reflexivity. Qed.

Lemma hybridSearch_fails_only_with_semantic_call_witness :
  isBlank "cheese" = false /\
  embeddingsJson sampleEnvNoKey = Some corpusBA /\
  hybridSearch sampleBM25 sampleCosine sampleEnvNoKey "cheese" 10 =
    mkRun [] (inl ConfigurationError) /\
  hybridSearch sampleBM25 sampleCosine sampleEnvProviderDown "cheese" 10 =
    mkRun ["cheese"%string] (inl EmbeddingProviderError) /\
  getKeywordRanks sampleBM25 "cheese" corpusBA = [] /\
  exists results,
    outcome (hybridSearch sampleBM25 sampleCosine sampleEnv "cheese" 10) = inr results /\
    results <> [].
Proof.
  split; [reflexivity|]. split; [reflexivity|]. split.
  { apply (hybridSearch_fails_only_with_semantic_call sampleBM25 sampleCosine
             sampleEnvNoKey "cheese" 10 corpusBA); reflexivity. }
  split.
  { apply (hybridSearch_fails_only_with_semantic_call sampleBM25 sampleCosine
             sampleEnvProviderDown "cheese" 10 corpusBA); reflexivity. }
  split; [reflexivity|].
  destruct (hybridSearch_fails_only_with_semantic_call sampleBM25 sampleCosine
              sampleEnv "cheese" 10 corpusBA eq_refl eq_refl) as (_ & _ & H).
  destruct (H [1; 0] eq_refl eq_refl) as (results & Hres & _ & Hnonempty).
  - repeat constructor; cbn; lia.
  - reflexivity.
  - exists results. split; [exact Hres|]. apply Hnonempty; [discriminate | lia].
Defined.

Lemma fuseRRF_commutative_up_to_ties_witness :
  noTies (fuseRRF (map KeywordSearchResult.toRanked keywordAB) scenarioList2 60) /\
  fuseRRF (map KeywordSearchResult.toRanked keywordAB) scenarioList2 60 =
  fuseRRF (map KeywordSearchResult.toRanked scenarioList2) keywordAB 60.
Proof.
  assert (H : noTies (fuseRRF (map KeywordSearchResult.toRanked keywordAB) scenarioList2 60)).
  { vm_compute. repeat constructor; intros H; discriminate H. }
  split; [exact H|].
  apply (fuseRRF_commutative_up_to_ties keywordAB scenarioList2 60), H.
Defined.



Lemma cosineSimilarity_zero_magnitude_witness :
  Forall (fun x => x == 0) [0; 0] /\
  CosineSimilarity.cosineSimilarity
    (CosineSimilarity.vectorOf [0; 0]) (CosineSimilarity.vectorOf [3; 4]) = 0%R.
Proof.
  assert (H : Forall (fun x => x == 0) [0; 0]) by (repeat constructor).
  split; [exact H|].
  destruct (cosineSimilarity_zero_magnitude [0; 0] [3; 4]) as (_ & Hzero & _).
  apply Hzero. left. exact H.
Defined.

Lemma post_not_found_unreachable_witness :
  Forall nonNegativeIndices (corpusOf sampleEnv) /\
  outcome (hybridSearch sampleBM25 sampleCosine sampleEnv "garden" 10)
    <> inl (PostNotFound "0-0") /\
  outcome (keywordSearch sampleBM25 sampleEnv "garden" 10) <> inl (PostNotFound "0-0") /\
  (forall post score,
      In post (corpusOf sampleEnv) ->
      entryToFused (postKey post, score) =
      FusedResult.mk (Num (PostEmbedding.postIndex post))
                     (Num (PostEmbedding.mediaIndex post)) score).
Proof.
  assert (H : Forall nonNegativeIndices (corpusOf sampleEnv)).
  { repeat constructor; cbn; lia. }
  split; [exact H|].
  apply (post_not_found_unreachable sampleBM25 sampleCosine sampleEnv "garden" 10 "0-0"), H.
Defined.

(** Without the precondition the failure is reachable: the key of the post
    with the indices -1 and 2 is "-1-2", which decodes to the indices 0
    and 1. *)
Example post_not_found_with_negative_index :
  outcome (hybridSearch sampleBM25 sampleCosine sampleEnvNegativeIndex "garden" 10) =
  inl (PostNotFound "0-1").
Proof. reflexivity. Qed.


(** The sample scorers rank the corpus B, A as the lists that break the tie
    against the corpus order: hybrid mode returns A before B with the same
    score. *)
Example hybridSearch_tie_in_semantic_order :
  outcome (getSemanticRanks sampleCosine sampleEnv "garden" corpusBA) = inr semanticAB /\
  getKeywordRanks sampleBM25 "garden" corpusBA = keywordBA /\
  match outcome (hybridSearch sampleBM25 sampleCosine sampleEnv "garden" 10) with
  | inr results =>
      map (fun r => (SearchResult.uri r, SearchResult.similarity r)) results =
      [("a.jpg"%string, 123 # 3782); ("b.mp4"%string, 123 # 3782)]
  | inl _ => False
  end.
Proof. repeat split. Qed.

(** * Further properties of the search code *)

(** ** Keys never collide *)

Lemma numberToString_inj (n n' : Z) :
  numberToString n = numberToString n' -> n = n'.
Proof.
  unfold numberToString. intros H.
  assert (Hparse : forall z, NilZero.int_of_string (NilZero.string_of_int (Z.to_int z)) =
                             Some (Z.to_int z)).
  { intros z. apply NilZero.isi; destruct z; cbn; try discriminate;
      intros [= E]; now apply DecimalPos.Unsigned.to_uint_nonnil in E. }
  pose proof (Hparse n) as Hn. rewrite H, Hparse in Hn. injection Hn as Hn.
  rewrite <- (DecimalZ.of_to n), <- (DecimalZ.of_to n'). now f_equal.
Qed.

(** The decimal notation of an integer: an optional minus sign, then digits. *)
Lemma numberToString_shape (n : Z) :
  exists digits,
    noHyphen digits = true /\ digits <> EmptyString /\
    numberToString n = if (n <? 0)%Z then String hyphen digits else digits.
Proof.
  destruct n as [|p|p].
  - exists "0"%string. repeat split. discriminate.
  - destruct (numberToString_digits (Z.pos p)) as (d & Hnil & Hs & _); [lia|].
    exists (NilEmpty.string_of_uint d). repeat split.
    + apply string_of_uint_noHyphen.
    + now apply string_of_uint_nonempty.
    + exact Hs.
  - exists (NilEmpty.string_of_uint (Pos.to_uint p)).
    pose proof (DecimalPos.Unsigned.to_uint_nonnil p) as Hnil.
    repeat split.
    + apply string_of_uint_noHyphen.
    + now apply string_of_uint_nonempty.
    + unfold numberToString. cbn [Z.to_int NilZero.string_of_int Z.ltb Z.compare].
      unfold NilZero.string_of_uint. destruct (Pos.to_uint p); try reflexivity; congruence.
Qed.

Lemma append_hyphen_inj (a a' x y : string) :
  noHyphen a = true -> noHyphen a' = true ->
  (a ++ String hyphen x)%string = (a' ++ String hyphen y)%string ->
  a = a' /\ x = y.
Proof.
  revert a'. induction a as [|c rest IH]; intros [|c' rest']; cbn [noHyphen String.append].
  - intros _ _ [= ->]. now split.
  - intros _ H [= <- _]. now rewrite Ascii.eqb_refl in H.
  - intros H _ [= -> _]. now rewrite Ascii.eqb_refl in H.
  - intros H H' [= -> Heq].
    apply andb_prop in H as [_ H]. apply andb_prop in H' as [_ H'].
    destruct (IH rest' H H' Heq) as [-> ->]. now split.
Qed.

(** Equal keys have equal decimal parts. *)
Lemma getKey_parts (postIndex mediaIndex postIndex' mediaIndex' : Z) :
  getKey postIndex mediaIndex = getKey postIndex' mediaIndex' ->
  numberToString postIndex = numberToString postIndex' /\
  numberToString mediaIndex = numberToString mediaIndex'.
Proof.
  unfold getKey.
  change ("-" ++ numberToString mediaIndex)%string
    with (String hyphen (numberToString mediaIndex)).
  change ("-" ++ numberToString mediaIndex')%string
    with (String hyphen (numberToString mediaIndex')).
  intros H.
  destruct (numberToString_shape postIndex) as (d & Hd & Hne & Hs).
  destruct (numberToString_shape postIndex') as (d' & Hd' & Hne' & Hs').
  rewrite Hs, Hs' in H |- *.
  destruct (postIndex <? 0)%Z, (postIndex' <? 0)%Z; cbn [String.append] in H.
  - injection H as H. destruct (append_hyphen_inj _ _ _ _ Hd Hd' H) as [-> ->].
    now split.
  - exfalso. destruct d' as [|c rest]; [contradiction|].
    cbn [String.append] in H. injection H as <- _.
    cbn in Hd'. discriminate Hd'.
  - exfalso. destruct d as [|c rest]; [contradiction|].
    cbn [String.append] in H. injection H as -> _.
    cbn in Hd. discriminate Hd.
  - destruct (append_hyphen_inj _ _ _ _ Hd Hd' H) as [-> ->]. now split.
Qed.

(** X1.  Two documents have the same key only if they have the same
    indices, whatever the sign of the indices. *)
Theorem getKey_injective (postIndex mediaIndex postIndex' mediaIndex' : Z) :
  getKey postIndex mediaIndex = getKey postIndex' mediaIndex' ->
  postIndex = postIndex' /\ mediaIndex = mediaIndex'.
Proof.
  intros H. apply getKey_parts in H as [Hp Hm].
  split; apply numberToString_inj; assumption.
Qed.

(** ** More on the stable sort *)

Lemma sort_sorted_id {A : Type} (score : A -> Q) (l : list A) :
  StronglySorted (descendingBy score) l -> sort (descending score) l = l.
Proof.
  induction 1 as [|x rest Hrest IH Hx]; [reflexivity|].
  cbn [sort fold_right]. fold (sort (descending score) rest). rewrite IH.
  destruct rest as [|y rest']; [reflexivity|].
  cbn [insert]. inversion Hx as [|? ? Hy _]; subst.
  apply (descending_le score) in Hy. now rewrite Hy.
Qed.



Lemma StronglySorted_firstn {A : Type} (R : A -> A -> Prop) (n : nat) (l : list A) :
  StronglySorted R l -> StronglySorted R (firstn n l).
Proof.
  intros H. revert n. induction H as [|x rest Hrest IH Hx]; intros [|n]; cbn [firstn];
    try constructor.
  - apply IH.
  - rewrite Forall_forall in *. intros y Hy. apply Hx. eapply firstn_In, Hy.
Qed.

Lemma StronglySorted_slice0 {A : Type} (R : A -> A -> Prop) (topK : Z) (l : list A) :
  StronglySorted R l -> StronglySorted R (slice0 l topK).
Proof.
  intros H. unfold slice0. destruct (topK <? 0)%Z; now apply StronglySorted_firstn.
Qed.

Lemma NoDup_firstn {A : Type} (n : nat) (l : list A) : NoDup l -> NoDup (firstn n l).
Proof.
  intros H. rewrite <- (firstn_skipn n l) in H. now apply NoDup_app_remove_r in H.
Qed.

Lemma NoDup_slice0 {A : Type} (topK : Z) (l : list A) : NoDup l -> NoDup (slice0 l topK).
Proof.
  intros H. unfold slice0. destruct (topK <? 0)%Z; now apply NoDup_firstn.
Qed.

(** ** More on maps and runs *)

Lemma fold_appendNew_NoDup_id (l keys : list string) :
  NoDup (keys ++ l) -> fold_left appendNew l keys = keys ++ l.
Proof.
  revert keys. induction l as [|key rest IH]; intros keys Hnd; cbn [fold_left].
  - now rewrite List.app_nil_r.
  - assert (Hnew : appendNew keys key = keys ++ [key]).
    { unfold appendNew. destruct (existsb _ keys) eqn:E; [|reflexivity].
      apply existsb_eqb_In in E. apply NoDup_remove_2 in Hnd.
      exfalso. apply Hnd. apply in_or_app. now left. }
    rewrite Hnew, IH; rewrite <- List.app_assoc; [reflexivity | exact Hnd].
Qed.

Lemma firstOccurrences_NoDup_id (l : list string) :
  NoDup l -> firstOccurrences l = l.
Proof. intros H. now apply (fold_appendNew_NoDup_id l []). Qed.

Lemma entries_of_keys {V : Type} (m : JsMap V) (v : string -> V) :
  (forall key value, In (key, value) m -> value = v key) ->
  m = map (fun key => (key, v key)) (map fst m).
Proof.
  induction m as [|[key value] rest IH]; intros H; [reflexivity|].
  cbn [map fst]. rewrite <- IH by (intros k' v' Hin; apply H; now right).
  f_equal. f_equal. apply H. now left.
Qed.



(** The post that the embedding map returns for a key is a post of the
    corpus with that key. *)
Lemma map_of_entries_In {V : Type} (entries : list (string * V)) key value :
  map_get key (map_of_entries entries) = Some value -> In (key, value) entries.
Proof.
  unfold map_of_entries.
  assert (Hgen : forall m : JsMap V,
             map_get key (fold_left (fun m e => map_set (fst e) (snd e) m) entries m) =
               Some value ->
             In (key, value) entries \/ map_get key m = Some value).
  { induction entries as [|[k0 v0] rest IH]; intros m H; cbn [fold_left] in H.
    - now right.
    - apply IH in H as [H|H]; [left; now right|].
      cbn [fst snd] in H. rewrite map_get_set in H.
      destruct (String.eqb_spec k0 key) as [->|]; [|now right].
      injection H as ->. left. now left. }
  intros H. apply Hgen in H as [H|H]; [exact H | discriminate].
Qed.

Lemma embeddingMapOf_get_inv (embeddings : list PostEmbedding.t) key post :
  map_get key (embeddingMapOf embeddings) = Some post ->
  In post embeddings /\ postKey post = key.
Proof.
  intros H. apply map_of_entries_In in H.
  apply in_map_iff in H as (post' & [= <- <-] & Hin). now split.
Qed.

Lemma mapM_all_ok {A B : Type} (f : A -> Run B) (g : A -> B) (l : list A) :
  (forall x, In x l -> outcome (f x) = inr (g x)) ->
  outcome (mapM f l) = inr (map g l).
Proof.
  induction l as [|x rest IH]; intros H; [reflexivity|].
  rewrite mapM_cons, (H x (or_introl eq_refl)), IH; [reflexivity|].
  intros y Hy. apply H. now right.
Qed.

Lemma Forall2_map_eq {A B C : Type} (f : A -> C) (g : B -> C) (l : list A) (l' : list B) :
  Forall2 (fun x y => f x = g y) l l' -> map f l = map g l'.
Proof. induction 1; cbn; congruence. Qed.

(** ** Fusion of lists without repeated keys *)

Lemma reciprocalRank_antitone (k : N) (r r' : positive) :
  (r <= r')%positive -> reciprocalRank k r' <= reciprocalRank k r.
Proof.
  intros H. unfold reciprocalRank. rewrite !reciprocal_eq.
  unfold Qle. cbn [Qnum Qden]. destruct k; cbn [rrfDenominator]; lia.
Qed.

Lemma reciprocalRank_strict (k : N) (r r' : positive) :
  (r < r')%positive -> reciprocalRank k r' < reciprocalRank k r.
Proof.
  intros H. unfold reciprocalRank. rewrite !reciprocal_eq.
  unfold Qlt. cbn [Qnum Qden]. destruct k; cbn [rrfDenominator]; lia.
Qed.

Lemma StronglySorted_weaken {A : Type} (R R' : A -> A -> Prop) (l : list A) :
  (forall x y, R x y -> R' x y) -> StronglySorted R l -> StronglySorted R' l.
Proof.
  intros HR. induction 1 as [|x rest Hrest IH Hx]; constructor; [exact IH|].
  eapply Forall_impl; [|exact Hx]. intros y. apply HR.
Qed.

Lemma NoDup_map_In_inj {A B : Type} (f : A -> B) (l : list A) (x y : A) :
  NoDup (map f l) -> In x l -> In y l -> f x = f y -> x = y.
Proof.
  induction l as [|z rest IH]; cbn [map In]; [tauto|].
  intros Hnd Hx Hy Heq. inversion Hnd as [|? ? Hnotin Hnd']; subst.
  destruct Hx as [->|Hx], Hy as [->|Hy]; auto.
  - exfalso. apply Hnotin. rewrite Heq. now apply in_map.
  - exfalso. apply Hnotin. rewrite <- Heq. now apply in_map.
Qed.

(** When no key is repeated, the score map lists the entries in their order,
    each with its own reciprocal rank. *)
Lemma rrfScoresOf_distinct_keys sem kw k :
  NoDup (map fst (contributions sem kw)) ->
  rrfScoresOf sem kw k =
  map (fun e => (fst e, reciprocalRank k (snd e))) (contributions sem kw).
Proof.
  intros Hnd.
  rewrite (entries_of_keys (rrfScoresOf sem kw k)
             (fun key => sumFor k key 0 (contributions sem kw)))
    by (intros key value Hin; now apply rrfScoresOf_In in Hin).
  rewrite rrfScoresOf_keys, firstOccurrences_NoDup_id by exact Hnd.
  rewrite map_map. apply map_ext_in. intros [key rank] Hin. cbn [fst snd].
  f_equal. now apply sumFor_single.
Qed.

Lemma fuseRRF_semantic_alone (semanticRanks : list RankedResult.t) (k : N) :
  NoDup (semanticKeys semanticRanks) ->
  StronglySorted (fun a b => (RankedResult.rank a <= RankedResult.rank b)%positive)
                 semanticRanks ->
  fuseRRF semanticRanks [] k = map (fusedOfRanked k) semanticRanks.
Proof.
  intros Hnd Hsorted. unfold fuseRRF.
  rewrite rrfScoresOf_distinct_keys
    by (unfold contributions; cbn [map]; now rewrite List.app_nil_r).
  unfold contributions. cbn [map]. rewrite List.app_nil_r, !map_map.
  apply (sort_sorted_id FusedResult.rrfScore).
  apply (StronglySorted_map_iff (fusedOfRanked k) (descendingBy FusedResult.rrfScore)).
  eapply StronglySorted_weaken; [|exact Hsorted].
  intros a b Hab. unfold descendingBy, fusedOfRanked, entryToFused.
  cbn [FusedResult.rrfScore snd rankedKey]. now apply reciprocalRank_antitone.
Qed.

Lemma fuseRRF_keyword_alone (keywordRanks : list KeywordSearchResult.t) (k : N) :
  NoDup (keywordKeys keywordRanks) ->
  StronglySorted (fun a b =>
                    (KeywordSearchResult.rank a <= KeywordSearchResult.rank b)%positive)
                 keywordRanks ->
  fuseRRF [] keywordRanks k = map (fusedOfKeyword k) keywordRanks.
Proof.
  intros Hnd Hsorted. unfold fuseRRF.
  rewrite rrfScoresOf_distinct_keys by (unfold contributions; now cbn [map app]).
  unfold contributions. cbn [map app]. rewrite !map_map.
  apply (sort_sorted_id FusedResult.rrfScore).
  apply (StronglySorted_map_iff (fusedOfKeyword k) (descendingBy FusedResult.rrfScore)).
  eapply StronglySorted_weaken; [|exact Hsorted].
  intros a b Hab. unfold descendingBy, fusedOfKeyword, entryToFused.
  cbn [FusedResult.rrfScore snd keywordKey]. now apply reciprocalRank_antitone.
Qed.

(** X5.  Fusion of one list alone keeps the list: when the keyword list is
    empty, the keys of the semantic list are distinct and its ranks do not
    decrease, [fuseRRF] returns the documents of the semantic list in its
    order, each with the score [1 / (k + rank)]; and the same holds for the
    keyword list when the semantic list is empty. *)
Theorem fuseRRF_of_one_list_keeps_its_order
    (semanticRanks : list RankedResult.t) (keywordRanks : list KeywordSearchResult.t)
    (k : N) :
  (NoDup (semanticKeys semanticRanks) ->
   StronglySorted (fun a b => (RankedResult.rank a <= RankedResult.rank b)%positive)
                  semanticRanks ->
   fuseRRF semanticRanks [] k = map (fusedOfRanked k) semanticRanks) /\
  (NoDup (keywordKeys keywordRanks) ->
   StronglySorted (fun a b =>
                     (KeywordSearchResult.rank a <= KeywordSearchResult.rank b)%positive)
                  keywordRanks ->
   fuseRRF [] keywordRanks k = map (fusedOfKeyword k) keywordRanks).
Proof.
  split; [apply fuseRRF_semantic_alone | apply fuseRRF_keyword_alone].
Qed.

Lemma sumFor_middle k key (before after : list (string * positive)) e :
  sumFor k key 0 (before ++ e :: after) =
  sumFor k key 0 before +
  ((if (fst e =? key)%string then reciprocalRank k (snd e) else 0) +
   sumFor k key 0 after).
Proof.
  rewrite sumFor_app, sumFor_cons. unfold reciprocalRank.
  destruct (fst e =? key)%string.
  - now rewrite (sumFor_start k key (0 + _)), Qplus_0_l_eq.
  - now rewrite Qplus_0_l_eq.
Qed.

(** X6.  The fused score is monotone in the rank: when one entry of the
    semantic list gets a better rank and nothing else changes, the score of
    no key decreases and the scores of the other keys stay as they are. *)
Theorem fuseRRF_score_monotone_in_rank
    (before after : list RankedResult.t) (keywordRanks : list KeywordSearchResult.t)
    (k : N) (postIndex mediaIndex : Z) (rank rank' : positive)
    (key : string) (score score' : Q) :
  (rank' <= rank)%positive ->
  In (key, score)
     (rrfScoresOf (before ++ RankedResult.mk postIndex mediaIndex rank :: after)
                  keywordRanks k) ->
  In (key, score')
     (rrfScoresOf (before ++ RankedResult.mk postIndex mediaIndex rank' :: after)
                  keywordRanks k) ->
  score <= score' /\ (key <> getKey postIndex mediaIndex -> score = score').
Proof.
  intros Hrank Hin Hin'.
  apply rrfScoresOf_In in Hin as [_ ->]. apply rrfScoresOf_In in Hin' as [_ ->].
  rewrite !contributions_sum, !map_app. cbn [map].
  rewrite !sumFor_middle.
  change (rankedKey (RankedResult.mk postIndex mediaIndex rank))
    with (getKey postIndex mediaIndex, rank).
  change (rankedKey (RankedResult.mk postIndex mediaIndex rank'))
    with (getKey postIndex mediaIndex, rank').
  cbn [fst snd].
  destruct (String.eqb_spec (getKey postIndex mediaIndex) key) as [Heq|Hne].
  - split; [|congruence].
    apply Qplus_le_compat; [|apply Qle_refl].
    apply Qplus_le_compat; [apply Qle_refl|].
    apply Qplus_le_compat; [|apply Qle_refl].
    now apply reciprocalRank_antitone.
  - split; [apply Qle_refl | reflexivity].
Qed.

(** X7.  A document that both lists rank first is the first fused result:
    when no key is repeated within a list, the ranks of the semantic list are
    distinct and a key has rank 1 in both lists, the output of [fuseRRF]
    starts with that key and the score [1 / (k + 1) + 1 / (k + 1)]. *)
Theorem first_in_both_lists_is_first_fused
    (semanticRanks : list RankedResult.t) (keywordRanks : list KeywordSearchResult.t)
    (k : N) (key : string) :
  NoDup (semanticKeys semanticRanks) ->
  NoDup (keywordKeys keywordRanks) ->
  NoDup (map snd (map rankedKey semanticRanks)) ->
  In (key, 1%positive) (map rankedKey semanticRanks) ->
  In (key, 1%positive) (map keywordKey keywordRanks) ->
  exists rest,
    fuseRRF semanticRanks keywordRanks k =
    entryToFused (key, reciprocalRank k 1 + reciprocalRank k 1) :: rest.
Proof.
  intros Hsem Hkw Hranks Hin1 Hin2.
  set (top := reciprocalRank k 1 + reciprocalRank k 1).
  assert (Hkey : In (key, top) (rrfScoresOf semanticRanks keywordRanks k)).
  { apply rrfScoresOf_In. split.
    - unfold contributions. rewrite map_app, in_app_iff. left.
      change key with (fst (key, 1%positive)). now apply in_map.
    - rewrite contributions_sum.
      now rewrite (sumFor_single k key 1 _ Hsem Hin1), (sumFor_single k key 1 _ Hkw Hin2). }
  assert (Hothers : forall key' score,
             In (key', score) (rrfScoresOf semanticRanks keywordRanks k) ->
             key' <> key -> score < top).
  { intros key' score Hin Hne. apply rrfScoresOf_In in Hin as [_ ->].
    rewrite contributions_sum. unfold top.
    apply Qplus_lt_le_compat; [|now apply sumFor_le_one_term].
    destruct (in_dec string_dec key' (semanticKeys semanticRanks)) as [Hin'|Hnotin].
    - apply in_map_iff in Hin' as ([key'' rank] & Heq & Hin'). cbn [fst] in Heq. subst key''.
      rewrite (sumFor_single k key' rank _ Hsem Hin').
      apply (reciprocalRank_strict k 1 rank).
      destruct (Pos.eq_dec rank 1) as [->|Hrank]; [|lia].
      exfalso. apply Hne.
      assert (Heq : (key', 1%positive) = (key, 1%positive))
        by (eapply (NoDup_map_In_inj snd); eauto).
      now injection Heq.
    - rewrite sumFor_absent by exact Hnotin. apply (reciprocal_pos k 1). }
  pose proof (fuseRRF_sorted semanticRanks keywordRanks k) as Hsorted.
  pose proof (fuseRRF_perm semanticRanks keywordRanks k) as Hperm.
  assert (Hfused : In (entryToFused (key, top)) (fuseRRF semanticRanks keywordRanks k)).
  { apply (Permutation_in _ (Permutation_sym Hperm)). now apply in_map. }
  destruct (fuseRRF semanticRanks keywordRanks k) as [|head rest] eqn:E; [contradiction|].
  exists rest. f_equal.
  assert (Hhead : In head (map entryToFused (rrfScoresOf semanticRanks keywordRanks k))).
  { apply (Permutation_in _ Hperm). now left. }
  apply in_map_iff in Hhead as ([key' score] & <- & Hin').
  destruct (string_dec key' key) as [->|Hne].
  - apply rrfScoresOf_In in Hin' as [_ ->]. apply rrfScoresOf_In in Hkey as [_ Htop].
    now rewrite <- Htop.
  - exfalso. specialize (Hothers key' score Hin' Hne).
    destruct Hfused as [Heq|Htail].
    + apply (f_equal FusedResult.rrfScore) in Heq. cbn in Heq. subst score.
      now apply Qlt_irrefl in Hothers.
    + inversion Hsorted as [|? ? _ Hall]; subst.
      rewrite Forall_forall in Hall. specialize (Hall _ Htail).
      unfold descendingBy in Hall. cbn in Hall.
      apply (Qlt_irrefl top). eapply Qle_lt_trans; eassumption.
Qed.

(** ** The tokenizer *)







Lemma splitNonAlnum_pieces (s : string) :
  Forall (fun piece => allTokenChars piece = true) (splitNonAlnum s).
Proof.
  induction s as [|c rest IH]; cbn [splitNonAlnum].
  - repeat constructor.
  - destruct (isTokenChar c) eqn:Hc.
    + destruct (splitNonAlnum rest) as [|piece pieces].
      * repeat constructor. cbn. now rewrite Hc.
      * inversion IH as [|? ? Hpiece Hpieces]; subst.
        constructor; [|exact Hpieces]. cbn. now rewrite Hc, Hpiece.
    + destruct rest as [|c' rest']; [repeat constructor|].
      destruct (isTokenChar c'); [constructor; [reflexivity | exact IH] | exact IH].
Qed.

(** X10.  Every token is a non-empty string of lower-case ASCII letters and
    digits. *)
Theorem tokenize_tokens_are_lowercase_alphanumeric (text token : string) :
  In token (tokenize text) ->
  token <> EmptyString /\ allTokenChars token = true.
Proof.
  unfold tokenize. intros Hin. apply filter_In in Hin as [Hin Hlen]. split.
  - intros ->. discriminate Hlen.
  - pose proof (splitNonAlnum_pieces (toLowerCase text)) as Hall.
    rewrite Forall_forall in Hall. now apply Hall.
Qed.






Section MoreSearchProperties.

Variable BM25 : list string -> list string -> Q -> Q -> list Q.
Variable cosineSimilarity : list Q -> list Q -> Q.

(** ** The semantic ranking *)

Lemma getSemanticRanks_run (env : Env) (query : string)
    (embeddings : list PostEmbedding.t) (queryEmbedding : list Q) :
  isBlank query = false -> apiKeyMissing env = false ->
  provider env query = Some queryEmbedding ->
  getSemanticRanks cosineSimilarity env query embeddings =
  mkRun [query] (inr (semanticRanksOf cosineSimilarity queryEmbedding embeddings)).
Proof.
  intros Hblank Hkey Hembed. unfold getSemanticRanks, embed.
  now rewrite Hblank, Hkey, Hembed.
Qed.

(** X2.  When the query is not blank, the credential is set and the
    provider answers, [getSemanticRanks] calls the provider once and ranks
    every post of the corpus exactly once: the ranked list follows the posts
    sorted by descending cosine similarity, posts of equal similarity in
    corpus order, and carries the ranks 1, 2, ..., n. *)
Theorem getSemanticRanks_ranks_every_post
    (env : Env) (query : string) (embeddings : list PostEmbedding.t)
    (queryEmbedding : list Q) :
  isBlank query = false -> apiKeyMissing env = false ->
  provider env query = Some queryEmbedding ->
  exists ranked scored,
    getSemanticRanks cosineSimilarity env query embeddings = mkRun [query] (inr ranked) /\
    Permutation scored (map (semanticScored cosineSimilarity queryEmbedding) embeddings) /\
    StronglySorted (descendingBy ScoredPost.score) scored /\
    (forall s,
        filter (fun p => Qeq_bool (ScoredPost.score p) s) scored =
        filter (fun p => Qeq_bool (ScoredPost.score p) s)
               (map (semanticScored cosineSimilarity queryEmbedding) embeddings)) /\
    map rankedIndices ranked =
      map (fun p => (ScoredPost.postIndex p, ScoredPost.mediaIndex p)) scored /\
    map RankedResult.rank ranked = ranksUpTo (List.length embeddings).
Proof.
  intros Hblank Hkey Hembed.
  exists (semanticRanksOf cosineSimilarity queryEmbedding embeddings),
         (sort byScore (map (semanticScored cosineSimilarity queryEmbedding) embeddings)).
  split; [now apply getSemanticRanks_run|].
  split; [apply (sort_perm ScoredPost.score)|].
  split; [apply (sort_sorted ScoredPost.score)|].
  split; [intros s; apply (sort_stable ScoredPost.score)|].
  unfold semanticRanksOf. split.
  - now apply map_mapi.
  - unfold mapi, ranksUpTo.
    rewrite <- (length_map (semanticScored cosineSimilarity queryEmbedding) embeddings).
    rewrite <- (sort_length ScoredPost.score
                  (map (semanticScored cosineSimilarity queryEmbedding) embeddings)).
    now apply map_index_mapi_from.
Qed.

(** ** Ties within one scorer *)

(** X3.  Within one scorer, posts of equal score keep the order of the
    corpus: in semantic mode the ranking that is cut to [topK] lists posts of
    equal similarity in corpus order, and the keyword ranking lists posts of
    equal BM25 score in corpus order. *)
Theorem single_scorer_ties_in_corpus_order
    (env : Env) (query : string) (topK : Z) (corpus : list PostEmbedding.t)
    (queryEmbedding : list Q) (s : Q) :
  isBlank query = false ->
  apiKeyMissing env = false ->
  embeddingsJson env = Some corpus ->
  provider env query = Some queryEmbedding ->
  (exists ranked,
      outcome (searchPosts cosineSimilarity env query topK) = inr (slice0 ranked topK) /\
      filter (fun r => Qeq_bool (SearchResult.similarity r) s) ranked =
      filter (fun r => Qeq_bool (SearchResult.similarity r) s)
             (map (fun post =>
                     toSearchResult post
                       (cosineSimilarity queryEmbedding (PostEmbedding.embedding post)))
                  corpus)) /\
  (tokenize query <> [] ->
   filter (fun p => Qeq_bool (ScoredPost.score p) s)
          (map toScored (getKeywordRanks BM25 query corpus)) =
   filter (fun p => Qeq_bool (ScoredPost.score p) s)
          (map scoredOf
             (filter positiveScore
                (combine corpus
                   (BM25 (map PostEmbedding.title corpus) (tokenize query)
                      (13 # 10) (9 # 10)))))).
Proof.
  intros Hblank Hkey Hload Hembed. split.
  - eexists. split.
    + unfold searchPosts, loadEmbeddings, embed. rewrite Hblank, Hkey, Hload, Hembed.
      unfold bind. cbn [ret outcome]. reflexivity.
    + apply (sort_stable SearchResult.similarity).
  - intros Htok. rewrite getKeywordRanks_toScored by exact Htok.
    rewrite (sort_stable ScoredPost.score), resultsWithScores_eq. reflexivity.
Qed.

(** ** Order and number of the results *)

Lemma resolve_similarity (embeddingMap : JsMap PostEmbedding.t) key similarity result :
  outcome (resolve embeddingMap key similarity) = inr result ->
  SearchResult.similarity result = similarity.
Proof.
  unfold resolve. destruct (map_get key embeddingMap); [|discriminate].
  now intros [= <-].
Qed.

Lemma hybridSearch_value (env : Env) (query : string) (topK : Z)
    (results : list SearchResult.t) :
  outcome (hybridSearch BM25 cosineSimilarity env query topK) = inr results ->
  (isBlank query = true /\ results = []) \/
  exists corpus queryEmbedding,
    isBlank query = false /\
    embeddingsJson env = Some corpus /\
    apiKeyMissing env = false /\
    provider env query = Some queryEmbedding /\
    Forall2 (fun fused result =>
               outcome (resolve (embeddingMapOf corpus) (fusedKey fused)
                          (FusedResult.rrfScore fused)) = inr result)
            (slice0 (fuseRRF (semanticRanksOf cosineSimilarity queryEmbedding corpus)
                             (getKeywordRanks BM25 query corpus) defaultK) topK)
            results.
Proof.
  rewrite hybridSearch_outcome.
  destruct (isBlank query) eqn:Hblank; [intros [= <-]; left; now split|].
  destruct (embeddingsJson env) as [corpus|] eqn:Hload; [|discriminate].
  destruct (apiKeyMissing env) eqn:Hkey; [discriminate|].
  destruct (provider env query) as [queryEmbedding|] eqn:Hembed; [|discriminate].
  intros H. right. exists corpus, queryEmbedding. repeat split.
  now apply mapM_value.
Qed.

Lemma keywordSearch_value (env : Env) (query : string) (topK : Z)
    (results : list SearchResult.t) :
  outcome (keywordSearch BM25 env query topK) = inr results ->
  (isBlank query = true /\ results = []) \/
  exists corpus,
    isBlank query = false /\
    embeddingsJson env = Some corpus /\
    Forall2 (fun ranked result =>
               outcome (resolve (embeddingMapOf corpus)
                          (getKey (KeywordSearchResult.postIndex ranked)
                                  (KeywordSearchResult.mediaIndex ranked))
                          (KeywordSearchResult.score ranked)) = inr result)
            (slice0 (getKeywordRanks BM25 query corpus) topK)
            results.
Proof.
  rewrite keywordSearch_outcome.
  destruct (isBlank query) eqn:Hblank; [intros [= <-]; left; now split|].
  destruct (embeddingsJson env) as [corpus|] eqn:Hload; [|discriminate].
  intros H. right. exists corpus. repeat split.
  now apply mapM_value.
Qed.

Lemma getKeywordRanks_sorted (query : string) (embeddings : list PostEmbedding.t) :
  StronglySorted (descendingBy KeywordSearchResult.score)
                 (getKeywordRanks BM25 query embeddings).
Proof.
  destruct (getKeywordRanks_cases BM25 query embeddings) as [[_ ->]|[Htok _]];
    [constructor|].
  apply (StronglySorted_map_iff toScored (descendingBy ScoredPost.score)).
  rewrite getKeywordRanks_toScored by exact Htok.
  apply (sort_sorted ScoredPost.score).
Qed.

Lemma searchPosts_value (env : Env) (query : string) (topK : Z)
    (results : list SearchResult.t) :
  outcome (searchPosts cosineSimilarity env query topK) = inr results ->
  (isBlank query = true /\ results = []) \/
  exists corpus queryEmbedding,
    isBlank query = false /\
    results =
    slice0 (sort bySimilarity
              (map (fun post =>
                      toSearchResult post
                        (cosineSimilarity queryEmbedding (PostEmbedding.embedding post)))
                   corpus))
           topK.
Proof.
  unfold searchPosts, loadEmbeddings, embed.
  destruct (isBlank query); [intros [= <-]; left; now split|].
  destruct (apiKeyMissing env); [discriminate|].
  destruct (embeddingsJson env) as [corpus|]; [|discriminate].
  rewrite !outcome_bind. cbn [ret outcome].
  destruct (provider env query) as [v|]; [|discriminate].
  intros [= <-]. right. exists corpus, v. now split.
Qed.

(** Every mode returns its results in descending order of [similarity], at
    most [topK] of them when [topK] is not negative. *)
Lemma every_mode_descending (env : Env) (query : string) (topK : Z)
    (results : list SearchResult.t) :
  outcome (searchPosts cosineSimilarity env query topK) = inr results \/
  outcome (keywordSearch BM25 env query topK) = inr results \/
  outcome (hybridSearch BM25 cosineSimilarity env query topK) = inr results ->
  StronglySorted (descendingBy SearchResult.similarity) results /\
  ((0 <= topK)%Z -> (Z.of_nat (List.length results) <= topK)%Z).
Proof.
  intros [H|[H|H]].
  - apply searchPosts_value in H as [[_ ->]|(corpus & v & _ & ->)];
      [split; [constructor | cbn; lia]|].
    split.
    + apply StronglySorted_slice0, (sort_sorted SearchResult.similarity).
    + intros HtopK. rewrite slice0_length by exact HtopK. lia.
  - apply keywordSearch_value in H as [[_ ->]|(corpus & _ & _ & H)];
      [split; [constructor | cbn; lia]|].
    assert (Hsim : map KeywordSearchResult.score
                       (slice0 (getKeywordRanks BM25 query corpus) topK) =
                   map SearchResult.similarity results).
    { apply Forall2_map_eq. eapply Forall2_impl; [|exact H].
      intros ranked result Hr. cbn beta. symmetry. eapply resolve_similarity, Hr. }
    split.
    + apply (StronglySorted_map_iff SearchResult.similarity (fun a b => b <= a)).
      rewrite <- Hsim.
      apply (StronglySorted_map_iff KeywordSearchResult.score (fun a b => b <= a)).
      apply StronglySorted_slice0, getKeywordRanks_sorted.
    + intros HtopK. rewrite <- (Forall2_length H), slice0_length by exact HtopK. lia.
  - apply hybridSearch_value in H as [[_ ->]|(corpus & v & _ & _ & _ & _ & H)];
      [split; [constructor | cbn; lia]|].
    assert (Hsim : map FusedResult.rrfScore
                       (slice0 (fuseRRF (semanticRanksOf cosineSimilarity v corpus)
                                        (getKeywordRanks BM25 query corpus) defaultK) topK) =
                   map SearchResult.similarity results).
    { apply Forall2_map_eq. eapply Forall2_impl; [|exact H].
      intros fused result Hr. cbn beta. symmetry. eapply resolve_similarity, Hr. }
    split.
    + apply (StronglySorted_map_iff SearchResult.similarity (fun a b => b <= a)).
      rewrite <- Hsim.
      apply (StronglySorted_map_iff FusedResult.rrfScore (fun a b => b <= a)).
      apply StronglySorted_slice0, fuseRRF_sorted.
    + intros HtopK. rewrite <- (Forall2_length H), slice0_length by exact HtopK. lia.
Qed.

(** X4.  The results of keyword mode and of hybrid mode are in descending
    order of their [similarity], and for a [topK] that is not negative there
    are at most [topK] of them. *)
Theorem keyword_and_hybrid_results_descending
    (env : Env) (query : string) (topK : Z) (results : list SearchResult.t) :
  outcome (keywordSearch BM25 env query topK) = inr results \/
  outcome (hybridSearch BM25 cosineSimilarity env query topK) = inr results ->
  StronglySorted (descendingBy SearchResult.similarity) results /\
  ((0 <= topK)%Z -> (Z.of_nat (List.length results) <= topK)%Z).
Proof.
  intros H. apply (every_mode_descending env query topK results). now right.
Qed.

(** ** Hybrid mode over a corpus with distinct keys *)

Lemma Forall2_mapi_from {A B : Type} (f : A -> nat -> B) (P : B -> A -> Prop)
    (n : nat) (l : list A) :
  (forall x i, P (f x i) x) -> Forall2 P (mapi_from f n l) l.
Proof.
  intros H. revert n. induction l as [|x rest IH]; intros n; cbn; constructor; auto.
Qed.



Lemma Forall2_map_l {A B C : Type} (f : A -> B) (P : B -> C -> Prop) l l' :
  Forall2 (fun x y => P (f x) y) l l' -> Forall2 P (map f l) l'.
Proof. induction 1; cbn; constructor; auto. Qed.



Lemma slice0_map {A B : Type} (f : A -> B) (l : list A) (topK : Z) :
  slice0 (map f l) topK = map f (slice0 l topK).
Proof.
  unfold slice0. rewrite length_map. destruct (topK <? 0)%Z; apply firstn_map.
Qed.



Lemma fold_appendNew_known (l keys : list string) :
  (forall key, In key l -> In key keys) -> fold_left appendNew l keys = keys.
Proof.
  induction l as [|key rest IH]; intros H; cbn [fold_left]; [reflexivity|].
  assert (Hknown : appendNew keys key = keys).
  { unfold appendNew. destruct (existsb _ keys) eqn:E; [reflexivity|].
    assert (Hin : In key keys) by (apply H; now left).
    apply existsb_eqb_In in Hin. congruence. }
  rewrite Hknown. apply IH. intros k Hk. apply H. now right.
Qed.

(** In hybrid mode over distinct keys, the score map has the keys of the
    semantic list, in its order. *)
Lemma hybrid_rrfScores_keys (query : string) (queryEmbedding : list Q)
    (corpus : list PostEmbedding.t) :
  NoDup (map postKey corpus) ->
  map fst (rrfScoresOf (semanticRanksOf cosineSimilarity queryEmbedding corpus)
                       (getKeywordRanks BM25 query corpus) defaultK) =
  semanticKeys (semanticRanksOf cosineSimilarity queryEmbedding corpus).
Proof.
  intros Hnd. rewrite rrfScoresOf_keys. unfold contributions, firstOccurrences.
  rewrite map_app, fold_left_app.
  fold (semanticKeys (semanticRanksOf cosineSimilarity queryEmbedding corpus)).
  fold (keywordKeys (getKeywordRanks BM25 query corpus)).
  pose proof (semanticRanksOf_keys_perm cosineSimilarity queryEmbedding corpus) as Hperm.
  assert (Hsem : NoDup (semanticKeys (semanticRanksOf cosineSimilarity queryEmbedding corpus)))
    by (eapply Permutation_NoDup; [symmetry; exact Hperm | exact Hnd]).
  fold (firstOccurrences (semanticKeys (semanticRanksOf cosineSimilarity queryEmbedding corpus))).
  rewrite firstOccurrences_NoDup_id by exact Hsem.
  apply fold_appendNew_known. intros key Hkey.
  apply (Permutation_in _ (Permutation_sym Hperm)).
  eapply getKeywordRanks_keys_In, Hkey.
Qed.

Lemma hybrid_fusedKeys_NoDup (query : string) (queryEmbedding : list Q)
    (corpus : list PostEmbedding.t) :
  NoDup (map postKey corpus) -> Forall nonNegativeIndices corpus ->
  NoDup (map fusedKey
           (fuseRRF (semanticRanksOf cosineSimilarity queryEmbedding corpus)
                    (getKeywordRanks BM25 query corpus) defaultK)).
Proof.
  intros Hnd Hnonneg.
  eapply Permutation_NoDup;
    [symmetry; apply Permutation_map, fuseRRF_perm|].
  rewrite map_map.
  rewrite (map_ext_in _ fst).
  - apply rrfScoresOf_NoDup.
  - intros [key score] Hin. cbn [fst].
    assert (Hkey : In key (map postKey corpus)).
    { apply rrfScoresOf_In in Hin as [Hin _].
      unfold contributions in Hin. rewrite map_app, in_app_iff in Hin.
      destruct Hin as [Hin|Hin].
      - eapply Permutation_in; [apply semanticRanksOf_keys_perm | exact Hin].
      - eapply getKeywordRanks_keys_In, Hin. }
    apply in_map_iff in Hkey as (post & <- & Hpost).
    rewrite Forall_forall in Hnonneg. destruct (Hnonneg post Hpost) as [Hp Hm].
    unfold postKey. now apply fusedKey_entryToFused.
Qed.

(** X8.  Over a corpus with distinct keys and non-negative indices, hybrid
    mode never returns a post twice: every result is a post of the corpus
    with a fused score, the results have pairwise distinct indices, and for a
    query that is not blank and a [topK] that is not negative there are
    exactly min(topK, size of the corpus) of them. *)
Theorem hybridSearch_returns_distinct_posts
    (env : Env) (query : string) (topK : Z) (results : list SearchResult.t) :
  NoDup (map postKey (corpusOf env)) ->
  Forall nonNegativeIndices (corpusOf env) ->
  outcome (hybridSearch BM25 cosineSimilarity env query topK) = inr results ->
  Forall (fun result =>
            exists post similarity,
              In post (corpusOf env) /\ result = toSearchResult post similarity)
         results /\
  NoDup (map resultIndices results) /\
  (isBlank query = false -> (0 <= topK)%Z ->
   List.length results = Nat.min (Z.to_nat topK) (List.length (corpusOf env))).
Proof.
  intros Hnd Hnonneg Hok.
  apply hybridSearch_value in Hok
    as [[Hblank ->]|(corpus & v & Hblank & Hload & _ & _ & Hres)].
  { repeat split; [constructor | constructor | congruence]. }
  unfold corpusOf in *. rewrite Hload in *.
  set (fused := fuseRRF (semanticRanksOf cosineSimilarity v corpus)
                        (getKeywordRanks BM25 query corpus) defaultK) in *.
  assert (Hposts : Forall2 (fun f result =>
                              exists post, In post corpus /\ postKey post = fusedKey f /\
                                           result = toSearchResult post (FusedResult.rrfScore f))
                           (slice0 fused topK) results).
  { eapply Forall2_impl; [|exact Hres]. intros f result Hr. cbn beta in Hr.
    unfold resolve in Hr.
    destruct (map_get (fusedKey f) (embeddingMapOf corpus)) as [post|] eqn:E; [|discriminate].
    injection Hr as <-. apply embeddingMapOf_get_inv in E as [Hin Hkey].
    exists post. now repeat split. }
  repeat split.
  - clear -Hposts. induction Hposts as [|f result l l' (post & Hin & _ & ->) _ IH];
      constructor; [eauto | exact IH].
  - assert (Hkeys : map fusedKey (slice0 fused topK) =
                    map (fun r => getKey (fst (resultIndices r)) (snd (resultIndices r)))
                        results).
    { apply Forall2_map_eq. eapply Forall2_impl; [|exact Hposts].
      intros f result (post & _ & Hkey & ->). cbn. now rewrite <- Hkey. }
    assert (Hnd' : NoDup (map (fun r => getKey (fst (resultIndices r)) (snd (resultIndices r)))
                              results)).
    { rewrite <- Hkeys, <- slice0_map. apply NoDup_slice0.
      now apply hybrid_fusedKeys_NoDup. }
    rewrite <- (map_map resultIndices (fun p => getKey (fst p) (snd p))) in Hnd'.
    eapply NoDup_map_inv, Hnd'.
  - intros _ HtopK. rewrite <- (Forall2_length Hres), slice0_length by exact HtopK.
    f_equal. subst fused. unfold fuseRRF.
    rewrite (sort_length FusedResult.rrfScore), length_map, <- (length_map fst).
    rewrite hybrid_rrfScores_keys by exact Hnd.
    unfold semanticKeys. rewrite !length_map. apply semanticRanksOf_length.
Qed.

(** ** Hybrid mode without a keyword match *)


(** ** Keyword mode needs no provider *)

(** X13.  Keyword mode never calls the embedding provider and does not read
    the credential: its run depends on the environment through the embeddings
    file only, and the only error it throws is the failure to load that
    file. *)
Theorem keywordSearch_needs_no_provider (env env' : Env) (query : string) (topK : Z) :
  calls (keywordSearch BM25 env query topK) = [] /\
  (forall e, outcome (keywordSearch BM25 env query topK) = inl e ->
             e = LoadEmbeddingsError /\ embeddingsJson env = None) /\
  (embeddingsJson env' = embeddingsJson env ->
   keywordSearch BM25 env' query topK = keywordSearch BM25 env query topK).
Proof.
  split; [|split].
  - unfold keywordSearch, loadEmbeddings.
    destruct (isBlank query); [reflexivity|].
    destruct (embeddingsJson env) as [corpus|]; [|reflexivity].
    unfold bind. cbn [ret outcome calls app].
    apply mapM_calls. intros ranked. apply resolve_calls.
  - intros e. rewrite keywordSearch_outcome.
    destruct (isBlank query); [discriminate|].
    destruct (embeddingsJson env) as [corpus|]; [|intros [= <-]; now split].
    intros Herr. exfalso. apply mapM_error in Herr as (ranked & Hin & Herr).
    apply resolve_error in Herr as [_ Hnone]. apply slice0_In in Hin.
    assert (Hkey : In (getKey (KeywordSearchResult.postIndex ranked)
                              (KeywordSearchResult.mediaIndex ranked))
                      (map postKey corpus)).
    { apply (getKeywordRanks_keys_In BM25 query). unfold keywordKeys. rewrite map_map.
      apply in_map_iff. exists ranked. now split. }
    apply embeddingMapOf_get in Hkey as (post & Hpost). congruence.
  - intros Hsame. unfold keywordSearch, loadEmbeddings. now rewrite Hsame.
Qed.

(** ** The search route *)

Lemma limitOf_range (limitParam : option string) (limit : Z) :
  SearchRoute.limitOf limitParam = Some limit -> (1 <= limit <= 50)%Z.
Proof.
  unfold SearchRoute.limitOf. destruct limitParam as [l|]; [|intros [= <-]; lia].
  destruct (l =? EmptyString)%string; [intros [= <-]; lia|].
  destruct (parseInt l) as [z| |]; try discriminate.
  destruct (Z.ltb_spec z 1); [discriminate|]. intros [= <-]. lia.
Qed.

(** X14.  A response with status 200 of the search route answers a query
    that is not blank, in one of the three modes, with a limit between 1 and
    50 (10 when the request has none): it carries at most that many results,
    in descending order of [similarity], and [count] is their number. *)
Theorem GET_success_contract
    (env : Env) (request : SearchRoute.Request)
    (query : string) (mode : SearchRoute.SearchMode)
    (results : list SearchResult.t) (count : nat) :
  SearchRoute.response (SearchRoute.GET BM25 cosineSimilarity env request) =
    SearchRoute.Json200 query mode results count ->
  SearchRoute.q request = Some query /\
  isBlank query = false /\
  SearchRoute.validMode (SearchRoute.modeOf (SearchRoute.mode request)) = Some mode /\
  count = List.length results /\
  StronglySorted (descendingBy SearchResult.similarity) results /\
  exists limit,
    SearchRoute.limitOf (SearchRoute.limit request) = Some limit /\
    (1 <= limit <= 50)%Z /\
    (SearchRoute.limit request = None -> limit = 10%Z) /\
    (Z.of_nat (List.length results) <= limit)%Z.
Proof.
  unfold SearchRoute.GET.
  destruct (SearchRoute.q request) as [query'|]; [|discriminate].
  destruct (isBlank query') eqn:Hblank; [discriminate|].
  destruct (SearchRoute.limitOf (SearchRoute.limit request)) as [limit|] eqn:Hlimit;
    [|discriminate].
  destruct (SearchRoute.validMode _) as [mode'|] eqn:Hmode; [|discriminate].
  pose proof (limitOf_range _ _ Hlimit) as Hrange.
  set (run := match mode' with
              | SearchRoute.semantic => searchPosts cosineSimilarity env query' limit
              | SearchRoute.keyword => keywordSearch BM25 env query' limit
              | SearchRoute.hybrid => hybridSearch BM25 cosineSimilarity env query' limit
              end).
  destruct (outcome run) as [e|results'] eqn:Hrun; [discriminate|].
  cbn [SearchRoute.response]. intros [= <- <- <- <-].
  assert (Hany : outcome (searchPosts cosineSimilarity env query' limit) = inr results' \/
                 outcome (keywordSearch BM25 env query' limit) = inr results' \/
                 outcome (hybridSearch BM25 cosineSimilarity env query' limit) = inr results')
    by (subst run; destruct mode'; auto).
  destruct (every_mode_descending env query' limit results' Hany) as [Hsorted Hlen].
  repeat split; try assumption; try reflexivity.
  exists limit. split; [reflexivity|]. split; [exact Hrange|]. split.
  - intros Hnone. rewrite Hnone in Hlimit. cbn in Hlimit. congruence.
  - apply Hlen. lia.
Qed.

(** ** The limit of the search route *)

Lemma parseDigits_of_uint_acc (d : Decimal.uint) (acc : positive) :
  parseDigits (NilEmpty.string_of_uint d) (Z.pos acc) = Z.pos (Pos.of_uint_acc d acc).
Proof.
  revert acc. induction d; intros acc;
    cbn [NilEmpty.string_of_uint Pos.of_uint_acc]; [reflexivity|..];
    cbn [parseDigits]; (replace (isDigit _) with true by reflexivity);
    rewrite <- IHd; f_equal;
    try (unfold digitValue; simpl N_of_ascii; simpl Z.of_N; lia).
Qed.

Lemma parseDigits_of_uint (d : Decimal.uint) :
  parseDigits (NilEmpty.string_of_uint d) 0 = Z.of_uint d.
Proof.
  unfold Z.of_uint.
  induction d; cbn [NilEmpty.string_of_uint Pos.of_uint]; [reflexivity|..];
    cbn [parseDigits]; (replace (isDigit _) with true by reflexivity);
    [exact IHd|..]; apply parseDigits_of_uint_acc.
Qed.

Lemma parseUnsigned_digits (d : Decimal.uint) :
  d <> Decimal.Nil ->
  parseUnsigned (NilEmpty.string_of_uint d) = Num (Z.of_uint d).
Proof.
  intros Hnil. rewrite <- parseDigits_of_uint.
  destruct d; [contradiction|..]; reflexivity.
Qed.

Lemma parseInt_digits (d : Decimal.uint) :
  d <> Decimal.Nil ->
  parseInt (NilEmpty.string_of_uint d) = Num (Z.of_uint d).
Proof.
  intros Hnil. rewrite <- (parseUnsigned_digits d Hnil).
  destruct d; [contradiction|..]; reflexivity.
Qed.

(** [parseInt] reads back the decimal notation of an integer. *)
Lemma parseInt_numberToString (n : Z) : parseInt (numberToString n) = Num n.
Proof.
  destruct n as [|p|p].
  - reflexivity.
  - destruct (numberToString_digits (Z.pos p)) as (d & Hnil & -> & <-); [lia|].
    now apply parseInt_digits.
  - unfold numberToString. cbn [Z.to_int NilZero.string_of_int].
    pose proof (DecimalPos.Unsigned.to_uint_nonnil p) as Hnil.
    assert (Hs : NilZero.string_of_uint (Pos.to_uint p) =
                 NilEmpty.string_of_uint (Pos.to_uint p)).
    { unfold NilZero.string_of_uint. destruct (Pos.to_uint p); congruence. }
    rewrite Hs. unfold parseInt. cbn [trimStart isWhiteSpace].
    change (isWhiteSpace "-") with false. cbv iota.
    rewrite (parseUnsigned_digits _ Hnil).
    unfold Z.of_uint. now rewrite DecimalPos.Unsigned.of_to.
Qed.

Lemma numberToString_nonempty (n : Z) : numberToString n <> EmptyString.
Proof.
  destruct (numberToString_shape n) as (digits & _ & Hne & ->).
  destruct (n <? 0)%Z; [discriminate | exact Hne].
Qed.

Lemma limitOf_numberToString (n : Z) :
  SearchRoute.limitOf (Some (numberToString n)) =
  if (n <? 1)%Z then None else Some (Z.min n 50).
Proof.
  unfold SearchRoute.limitOf.
  destruct (String.eqb_spec (numberToString n) EmptyString) as [H|_];
    [now apply numberToString_nonempty in H|].
  now rewrite parseInt_numberToString.
Qed.

(** X15.  The search route validates and caps the limit: for a query that
    is not blank, a limit written as an integer below 1 is answered with
    status 400 and no search, a limit of 50 or more is served exactly like the
    limit 50, and a limit between 1 and 50 is used as it is. *)
Theorem GET_limit_validated_and_capped
    (env : Env) (query : string) (modeParam : option string) (n : Z) :
  isBlank query = false ->
  ((n < 1)%Z ->
   SearchRoute.GET BM25 cosineSimilarity env
     (SearchRoute.mkRequest (Some query) (Some (numberToString n)) modeParam) =
   SearchRoute.mkServed [] (SearchRoute.Json400 "Limit must be a positive number")) /\
  ((50 <= n)%Z ->
   SearchRoute.GET BM25 cosineSimilarity env
     (SearchRoute.mkRequest (Some query) (Some (numberToString n)) modeParam) =
   SearchRoute.GET BM25 cosineSimilarity env
     (SearchRoute.mkRequest (Some query) (Some "50"%string) modeParam)) /\
  ((1 <= n <= 50)%Z -> SearchRoute.limitOf (Some (numberToString n)) = Some n).
Proof.
  intros Hblank. split; [|split]; intros Hn.
  - unfold SearchRoute.GET. cbn [SearchRoute.q SearchRoute.limit SearchRoute.mode].
    rewrite Hblank, limitOf_numberToString.
    destruct (Z.ltb_spec n 1); [reflexivity | lia].
  - unfold SearchRoute.GET. cbn [SearchRoute.q SearchRoute.limit SearchRoute.mode].
    rewrite Hblank, limitOf_numberToString.
    destruct (Z.ltb_spec n 1); [lia|].
    change (SearchRoute.limitOf (Some "50"%string)) with (Some 50%Z).
    now rewrite Z.min_r by lia.
  - rewrite limitOf_numberToString.
    destruct (Z.ltb_spec n 1); [lia|]. now rewrite Z.min_l by lia.
Qed.

End MoreSearchProperties.

(** ** Media URLs *)


(** ** The generator of the embeddings file *)

Lemma In_concat_mapi_from {A B : Type} (f : A -> nat -> list B) (n : nat) (l : list A) (b : B) :
  In b (List.concat (mapi_from f n l)) <->
  exists i x, nth_error l i = Some x /\ In b (f x (n + i)%nat).
Proof.
  revert n. induction l as [|y rest IH]; intros n; cbn [mapi_from List.concat].
  - split; [intros [] | intros ([|i] & x & Hnth & _); discriminate].
  - rewrite in_app_iff, IH. split.
    + intros [Hin|(i & x & Hnth & Hin)].
      * exists 0%nat, y. rewrite Nat.add_0_r. now split.
      * exists (S i), x. rewrite Nat.add_succ_r. now split.
    + intros ([|i] & x & Hnth & Hin); cbn [nth_error] in Hnth.
      * injection Hnth as <-. rewrite Nat.add_0_r in Hin. now left.
      * right. exists i, x. rewrite Nat.add_succ_r in Hin. now split.
Qed.

(** Pieces that carry their index as a tag are pairwise disjoint. *)
Lemma NoDup_concat_mapi_from {A B : Type} (f : A -> nat -> list B) (tag : B -> nat)
    (n : nat) (l : list A) :
  (forall x i b, In b (f x i) -> tag b = i) ->
  (forall x i, NoDup (f x i)) ->
  NoDup (List.concat (mapi_from f n l)).
Proof.
  intros Htag Hnd. revert n. induction l as [|y rest IH]; intros n;
    cbn [mapi_from List.concat]; [constructor|].
  apply NoDup_app; [apply Hnd | apply IH |].
  intros b Hb Hrest. apply In_concat_mapi_from in Hrest as (i & x & _ & Hin).
  apply Htag in Hb. apply Htag in Hin. lia.
Qed.

Section GeneratorFacts.

Variable existsSync : string -> bool.
Variable embedMany : list string -> option (list (list Q)).

Lemma itemOfMedia_In postIndex m mediaIndex it :
  In it (Generator.itemOfMedia existsSync postIndex m mediaIndex) ->
  Generator.postIndex it = Z.of_nat postIndex /\
  Generator.mediaIndex it = Z.of_nat mediaIndex /\
  Generator.title m = Some (Generator.itemTitle it) /\
  Generator.uri m = Generator.itemUri it /\
  isBlank (Generator.itemTitle it) = false /\
  existsSync (Generator.itemUri it) = true /\
  Generator.creation_timestamp m = Some (Generator.creationTimestamp it) /\
  Generator.creationTimestamp it <> 0%Z.
Proof.
  unfold Generator.itemOfMedia.
  destruct (Generator.title m) as [t|]; [|intros []].
  destruct (isBlank t) eqn:Hblank; [intros []|].
  destruct (existsSync (Generator.uri m)) eqn:Hexists; cbn [negb]; [|intros []].
  destruct (Generator.creation_timestamp m) as [timestamp|]; [|intros []].
  destruct (Z.eqb_spec timestamp 0); [intros []|].
  intros [<-|[]]. cbn. repeat split; assumption.
Qed.

Lemma itemOfMedia_NoDup postIndex m mediaIndex :
  NoDup (Generator.itemOfMedia existsSync postIndex m mediaIndex).
Proof.
  unfold Generator.itemOfMedia.
  destruct (Generator.title m) as [t|]; [|constructor].
  destruct (isBlank t); [constructor|].
  destruct (negb _); [constructor|].
  destruct (Generator.creation_timestamp m) as [timestamp|]; [|constructor].
  destruct (timestamp =? 0)%Z; repeat constructor. intros [].
Qed.

Lemma itemsOfPost_In post postIndex it :
  In it (Generator.itemsOfPost existsSync post postIndex) ->
  exists medias mediaIndex m,
    Generator.media post = Some medias /\
    nth_error medias mediaIndex = Some m /\
    In it (Generator.itemOfMedia existsSync postIndex m mediaIndex).
Proof.
  unfold Generator.itemsOfPost.
  destruct (Generator.media post) as [medias|]; [|intros []].
  unfold mapi. intros Hin. apply In_concat_mapi_from in Hin as (i & m & Hnth & Hin).
  exists medias, i, m. now repeat split.
Qed.

Lemma itemsOfPost_NoDup post postIndex :
  NoDup (Generator.itemsOfPost existsSync post postIndex).
Proof.
  unfold Generator.itemsOfPost.
  destruct (Generator.media post) as [medias|]; [|constructor].
  apply (NoDup_concat_mapi_from _ (fun it => Z.to_nat (Generator.mediaIndex it))).
  - intros m i it Hin. apply itemOfMedia_In in Hin as (_ & -> & _). lia.
  - intros m i. apply itemOfMedia_NoDup.
Qed.

Lemma itemsToEmbed_NoDup (posts : list Generator.Post) :
  NoDup (Generator.itemsToEmbed existsSync posts).
Proof.
  apply (NoDup_concat_mapi_from _ (fun it => Z.to_nat (Generator.postIndex it))).
  - intros post i it Hin.
    apply itemsOfPost_In in Hin as (medias & j & m & _ & _ & Hin).
    apply itemOfMedia_In in Hin as (-> & _). lia.
  - intros post i. apply itemsOfPost_NoDup.
Qed.

(** An item points back to the media entry it was made from. *)
Lemma itemsToEmbed_In (posts : list Generator.Post) it :
  In it (Generator.itemsToEmbed existsSync posts) ->
  exists postIndex mediaIndex post medias m,
    nth_error posts postIndex = Some post /\
    Generator.media post = Some medias /\
    nth_error medias mediaIndex = Some m /\
    In it (Generator.itemOfMedia existsSync postIndex m mediaIndex).
Proof.
  unfold Generator.itemsToEmbed, mapi. intros Hin.
  apply In_concat_mapi_from in Hin as (i & post & Hnth & Hin).
  apply itemsOfPost_In in Hin as (medias & j & m & Hmedia & Hnth' & Hin).
  exists i, j, post, medias, m. now repeat split.
Qed.

Lemma itemsToEmbed_keys_NoDup (posts : list Generator.Post) :
  NoDup (map Generator.itemKey (Generator.itemsToEmbed existsSync posts)).
Proof.
  pose proof (itemsToEmbed_NoDup posts) as Hnd.
  assert (Hinj : forall a b,
             In a (Generator.itemsToEmbed existsSync posts) ->
             In b (Generator.itemsToEmbed existsSync posts) ->
             Generator.itemKey a = Generator.itemKey b -> a = b).
  { intros a b Ha Hb Hkey. apply getKey_parts in Hkey as [Hp Hm].
    apply numberToString_inj in Hp, Hm.
    apply itemsToEmbed_In in Ha as (i & j & post & medias & m & Hpost & Hmedia & Hm' & Ha).
    apply itemsToEmbed_In in Hb as (i' & j' & post' & medias' & m' & Hpost' & Hmedia' & Hm'' & Hb).
    pose proof (itemOfMedia_In _ _ _ _ Ha) as (Hai & Haj & _).
    pose proof (itemOfMedia_In _ _ _ _ Hb) as (Hbi & Hbj & _).
    assert (i = i') by lia. assert (j = j') by lia. subst i' j'.
    assert (post' = post) by congruence. subst post'.
    assert (medias' = medias) by congruence. subst medias'.
    assert (m' = m) by congruence. subst m'.
    revert Ha Hb. unfold Generator.itemOfMedia.
    destruct (Generator.title m); [|intros []].
    destruct (isBlank _); [intros []|].
    destruct (negb _); [intros []|].
    destruct (Generator.creation_timestamp m); [|intros []].
    destruct (_ =? 0)%Z; [intros []|].
    intros [<-|[]] [<-|[]]. reflexivity. }
  induction (Generator.itemsToEmbed existsSync posts) as [|a rest IH]; [constructor|].
  inversion Hnd as [|? ? Hnotin Hnd']; subst. cbn [map]. constructor.
  - intros Hin. apply in_map_iff in Hin as (b & Hkey & Hb).
    apply Hnotin. rewrite (Hinj a b); [exact Hb | now left | now right | now symmetry].
  - apply IH; [exact Hnd'|]. intros x y Hx Hy. apply Hinj; now right.
Qed.

(** X17.  Every item that the generator embeds points back to the media
    entry it was made from: its indices are the positions of the post and of
    the entry, which are not negative, its title is that of the entry and is
    not blank, its file exists and its timestamp is not zero.  No two items
    have the same key, so the corpus that the search loads has distinct keys
    and non-negative indices. *)
Theorem itemsToEmbed_invariants (posts : list Generator.Post) :
  Forall (fun it =>
            (0 <= Generator.postIndex it)%Z /\ (0 <= Generator.mediaIndex it)%Z /\
            isBlank (Generator.itemTitle it) = false /\
            existsSync (Generator.itemUri it) = true /\
            Generator.creationTimestamp it <> 0%Z /\
            exists post medias m,
              nth_error posts (Z.to_nat (Generator.postIndex it)) = Some post /\
              Generator.media post = Some medias /\
              nth_error medias (Z.to_nat (Generator.mediaIndex it)) = Some m /\
              Generator.title m = Some (Generator.itemTitle it) /\
              Generator.uri m = Generator.itemUri it)
         (Generator.itemsToEmbed existsSync posts) /\
  NoDup (map Generator.itemKey (Generator.itemsToEmbed existsSync posts)).
Proof.
  split; [|apply itemsToEmbed_keys_NoDup].
  apply Forall_forall. intros it Hin.
  apply itemsToEmbed_In in Hin as (i & j & post & medias & m & Hpost & Hmedia & Hm & Hin).
  apply itemOfMedia_In in Hin as (Hi & Hj & Htitle & Huri & Hblank & Hexists & _ & Hts).
  repeat split; try assumption; try lia.
  exists post, medias, m. rewrite Hi, Hj, !Nat2Z.id. now repeat split.
Qed.

Lemma withEmbeddings_items (batch : list Generator.Item) (vectors : list (list Q)) :
  map Generator.item (Generator.withEmbeddings batch vectors) = batch.
Proof.
  revert vectors. induction batch as [|it rest IH]; intros vectors; cbn;
    [reflexivity | now rewrite IH].
Qed.

(** The loop over the batches, for any fuel that covers the remaining
    items. *)
Lemma embedBatches_spec (fuel : nat) (remaining : list Generator.Item)
    (embeddings : list Generator.Generated) :
  (List.length remaining <= fuel)%nat ->
  let run := Generator.embedBatches embedMany fuel remaining embeddings in
  Generator.ending run <> Generator.OutOfFuel /\
  Forall (fun titles => (1 <= List.length titles <= Generator.batchSize)%nat)
         (Generator.batches run) /\
  (forall written,
      Generator.ending run = Generator.Written written ->
      map Generator.item written = map Generator.item embeddings ++ remaining /\
      List.concat (Generator.batches run) = map Generator.itemTitle remaining).
Proof.
  revert remaining embeddings.
  induction fuel as [|fuel IH]; intros remaining embeddings Hfuel.
  - destruct remaining; [|cbn in Hfuel; lia]. cbn.
    split; [discriminate|]. split; [constructor|].
    intros written [= <-]. now rewrite List.app_nil_r.
  - destruct remaining as [|it rest].
    { cbn. split; [discriminate|]. split; [constructor|].
      intros written [= <-]. now rewrite List.app_nil_r. }
    cbn [Generator.embedBatches].
    set (batch := firstn Generator.batchSize (it :: rest)).
    assert (Hbatch : (1 <= List.length batch <= Generator.batchSize)%nat).
    { subst batch. rewrite length_firstn. unfold Generator.batchSize.
      cbn [List.length]. lia. }
    destruct (embedMany (map Generator.itemTitle batch)) as [vectors|].
    2:{ cbn [Generator.batches Generator.ending].
        split; [discriminate|]. split; [|intros written H; discriminate H].
        constructor; [|constructor]. rewrite length_map. exact Hbatch. }
    specialize (IH (skipn Generator.batchSize (it :: rest))
                   (embeddings ++ Generator.withEmbeddings batch vectors)).
    destruct IH as (Hnofuel & Hsizes & Hwritten).
    { rewrite length_skipn. unfold Generator.batchSize in *.
      cbn [List.length] in *. lia. }
    cbn [Generator.batches Generator.ending].
    split; [exact Hnofuel|]. split.
    + constructor; [|exact Hsizes]. rewrite length_map. exact Hbatch.
    + intros written H. destruct (Hwritten written H) as [Hitems Htitles]. split.
      * rewrite Hitems, map_app, withEmbeddings_items, <- List.app_assoc.
        f_equal. apply firstn_skipn.
      * cbn [List.concat]. rewrite Htitles, <- map_app. f_equal. apply firstn_skipn.
Qed.

(** X18.  The generator sends the titles of the items to the provider in
    batches of 1 to 100 titles that together are all the titles in order, and
    when it writes the file, the file has one record per item, in the order of
    the items and with the fields of the item, whatever the provider
    returned; the bound on the number of batches is never reached. *)
Theorem generateEmbeddings_writes_every_item
    (apiKey : option string) (posts : list Generator.Post) :
  let run := Generator.generateEmbeddings existsSync embedMany apiKey posts in
  Generator.ending run <> Generator.OutOfFuel /\
  Forall (fun titles => (1 <= List.length titles <= 100)%nat) (Generator.batches run) /\
  (forall written,
      Generator.ending run = Generator.Written written ->
      map Generator.item written = Generator.itemsToEmbed existsSync posts /\
      written <> [] /\
      List.concat (Generator.batches run) =
        map Generator.itemTitle (Generator.itemsToEmbed existsSync posts) /\
      NoDup (map (fun g => Generator.itemKey (Generator.item g)) written)).
Proof.
  unfold Generator.generateEmbeddings.
  pose proof (itemsToEmbed_keys_NoDup posts) as Hkeys.
  destruct (Generator.itemsToEmbed existsSync posts) as [|it rest] eqn:Hitems.
  { cbn. split; [discriminate|]. split; [constructor|]. intros written H. discriminate H. }
  destruct apiKey as [key|].
  2:{ cbn. split; [discriminate|]. split; [constructor|]. intros written H. discriminate H. }
  destruct (key =? EmptyString)%string.
  { cbn. split; [discriminate|]. split; [constructor|]. intros written H. discriminate H. }
  destruct (embedBatches_spec (List.length (it :: rest)) (it :: rest) [] (le_n _))
    as (Hnofuel & Hsizes & Hwritten).
  split; [exact Hnofuel|]. split; [exact Hsizes|].
  intros written Hending. destruct (Hwritten written Hending) as [Hmap Htitles].
  cbn [map app] in Hmap. split; [exact Hmap|]. split; [|split].
  - intros ->. discriminate Hmap.
  - exact Htitles.
  - rewrite <- (map_map Generator.item Generator.itemKey), Hmap. exact Hkeys.
Qed.

End GeneratorFacts.

(** ** The further properties on concrete inputs *)

Lemma getKey_injective_witness :
  getKey (-1) 2 = getKey (-1) 2 /\ ((-1)%Z = (-1)%Z /\ 2%Z = 2%Z).
Proof.
  split; [reflexivity|].
  apply (getKey_injective (-1) 2 (-1) 2). reflexivity.
Defined.

Lemma getSemanticRanks_ranks_every_post_witness :
  isBlank "garden" = false /\ apiKeyMissing sampleEnv = false /\
  provider sampleEnv "garden" = Some [1; 0] /\
  exists ranked scored,
    getSemanticRanks sampleCosine sampleEnv "garden" corpusBA =
      mkRun ["garden"%string] (inr ranked) /\
    Permutation scored (map (semanticScored sampleCosine [1; 0]) corpusBA) /\
    StronglySorted (descendingBy ScoredPost.score) scored /\
    (forall s,
        filter (fun p => Qeq_bool (ScoredPost.score p) s) scored =
        filter (fun p => Qeq_bool (ScoredPost.score p) s)
               (map (semanticScored sampleCosine [1; 0]) corpusBA)) /\
    map rankedIndices ranked =
      map (fun p => (ScoredPost.postIndex p, ScoredPost.mediaIndex p)) scored /\
    map RankedResult.rank ranked = ranksUpTo (List.length corpusBA).
Proof.
  repeat (split; [reflexivity|]).
  apply (getSemanticRanks_ranks_every_post sampleCosine sampleEnv "garden" corpusBA [1; 0]);
    reflexivity.
Defined.

Lemma single_scorer_ties_in_corpus_order_witness :
  isBlank "garden" = false /\ apiKeyMissing sampleEnv = false /\
  embeddingsJson sampleEnv = Some corpusBA /\
  provider sampleEnv "garden" = Some [1; 0] /\
  tokenize "garden" <> [] /\
  filter (fun p => Qeq_bool (ScoredPost.score p) 1)
         (map toScored (getKeywordRanks sampleBM25 "garden" corpusBA)) =
  filter (fun p => Qeq_bool (ScoredPost.score p) 1)
         (map scoredOf
            (filter positiveScore
               (combine corpusBA
                  (sampleBM25 (map PostEmbedding.title corpusBA) (tokenize "garden")
                     (13 # 10) (9 # 10))))).
Proof.
  repeat (split; [reflexivity|]).
  assert (Htok : tokenize "garden" <> []) by (vm_compute; discriminate).
  split; [exact Htok|].
  destruct (single_scorer_ties_in_corpus_order sampleBM25 sampleCosine sampleEnv
              "garden" 10 corpusBA [1; 0] 1 eq_refl eq_refl eq_refl eq_refl) as [_ H].
  exact (H Htok).
Defined.

Lemma keyword_and_hybrid_results_descending_witness :
  exists results,
    outcome (hybridSearch sampleBM25 sampleCosine sampleEnv "garden" 10) = inr results /\
    StronglySorted (descendingBy SearchResult.similarity) results /\
    ((0 <= 10)%Z -> (Z.of_nat (List.length results) <= 10)%Z).
Proof.
  eexists. split; [vm_compute; reflexivity|].
  apply (keyword_and_hybrid_results_descending sampleBM25 sampleCosine sampleEnv "garden" 10).
  right. vm_compute. reflexivity.
Defined.

Lemma fuseRRF_of_one_list_keeps_its_order_witness :
  NoDup (semanticKeys semanticAB) /\
  StronglySorted (fun a b => (RankedResult.rank a <= RankedResult.rank b)%positive)
                 semanticAB /\
  fuseRRF semanticAB [] 60 = map (fusedOfRanked 60) semanticAB.
Proof.
  assert (H1 : NoDup (semanticKeys semanticAB)).
  { vm_compute. repeat constructor; cbn; intuition discriminate. }
  assert (H2 : StronglySorted
                 (fun a b => (RankedResult.rank a <= RankedResult.rank b)%positive)
                 semanticAB).
  { repeat constructor. cbn. lia. }
  split; [exact H1|]. split; [exact H2|].
  destruct (fuseRRF_of_one_list_keeps_its_order semanticAB [] 60) as [H _].
  exact (H H1 H2).
Defined.

Lemma fuseRRF_score_monotone_in_rank_witness :
  (1 <= 3)%positive /\
  In ("0-0"%string, 1 # 63)
     (rrfScoresOf ([] ++ RankedResult.mk 0 0 3 :: [RankedResult.mk 0 1 2]) [] 60) /\
  In ("0-0"%string, 1 # 61)
     (rrfScoresOf ([] ++ RankedResult.mk 0 0 1 :: [RankedResult.mk 0 1 2]) [] 60) /\
  (1 # 63 <= 1 # 61 /\ ("0-0"%string <> getKey 0 0 -> 1 # 63 = 1 # 61)).
Proof.
  assert (H1 : (1 <= 3)%positive) by lia.
  assert (H2 : In ("0-0"%string, 1 # 63)
                  (rrfScoresOf ([] ++ RankedResult.mk 0 0 3 :: [RankedResult.mk 0 1 2])
                               [] 60)) by (vm_compute; now left).
  assert (H3 : In ("0-0"%string, 1 # 61)
                  (rrfScoresOf ([] ++ RankedResult.mk 0 0 1 :: [RankedResult.mk 0 1 2])
                               [] 60)) by (vm_compute; now left).
  split; [exact H1|]. split; [exact H2|]. split; [exact H3|].
  exact (fuseRRF_score_monotone_in_rank [] [RankedResult.mk 0 1 2] [] 60 0 0 3 1
           "0-0" (1 # 63) (1 # 61) H1 H2 H3).
Defined.

Lemma first_in_both_lists_is_first_fused_witness :
  NoDup (semanticKeys semanticAB) /\
  NoDup (keywordKeys keywordAB) /\
  NoDup (map snd (map rankedKey semanticAB)) /\
  In ("0-0"%string, 1%positive) (map rankedKey semanticAB) /\
  In ("0-0"%string, 1%positive) (map keywordKey keywordAB) /\
  exists rest,
    fuseRRF semanticAB keywordAB 60 =
    entryToFused ("0-0"%string, reciprocalRank 60 1 + reciprocalRank 60 1) :: rest.
Proof.
  assert (H1 : NoDup (semanticKeys semanticAB)).
  { vm_compute. repeat constructor; cbn; intuition discriminate. }
  assert (H2 : NoDup (keywordKeys keywordAB)).
  { vm_compute. repeat constructor; cbn; intuition discriminate. }
  assert (H3 : NoDup (map snd (map rankedKey semanticAB))).
  { vm_compute. repeat constructor; cbn; intuition discriminate. }
  assert (H4 : In ("0-0"%string, 1%positive) (map rankedKey semanticAB))
    by (vm_compute; now left).
  assert (H5 : In ("0-0"%string, 1%positive) (map keywordKey keywordAB))
    by (vm_compute; now left).
  repeat (split; [assumption|]).
  exact (first_in_both_lists_is_first_fused semanticAB keywordAB 60 "0-0" H1 H2 H3 H4 H5).
Defined.

Lemma hybridSearch_returns_distinct_posts_witness :
  exists results,
    NoDup (map postKey (corpusOf sampleEnv)) /\
    Forall nonNegativeIndices (corpusOf sampleEnv) /\
    outcome (hybridSearch sampleBM25 sampleCosine sampleEnv "garden" 1) = inr results /\
    NoDup (map resultIndices results) /\
    List.length results = 1%nat.
Proof.
  eexists.
  assert (H1 : NoDup (map postKey (corpusOf sampleEnv))).
  { vm_compute. repeat constructor; cbn; intuition discriminate. }
  assert (H2 : Forall nonNegativeIndices (corpusOf sampleEnv)).
  { repeat constructor; cbn; lia. }
  split; [exact H1|]. split; [exact H2|]. split; [vm_compute; reflexivity|].
  destruct (hybridSearch_returns_distinct_posts sampleBM25 sampleCosine sampleEnv
              "garden" 1 _ H1 H2 eq_refl) as (_ & Hnd & Hlen).
  split; [exact Hnd|]. apply Hlen; [reflexivity | lia].
Defined.


Lemma tokenize_tokens_are_lowercase_alphanumeric_witness :
  In "garden"%string (tokenize "Lilly digs the GARDEN!") /\
  ("garden"%string <> EmptyString /\ allTokenChars "garden" = true).
Proof.
  assert (H : In "garden"%string (tokenize "Lilly digs the GARDEN!"))
    by (vm_compute; tauto).
  split; [exact H|].
  exact (tokenize_tokens_are_lowercase_alphanumeric "Lilly digs the GARDEN!" "garden" H).
Defined.


Lemma keywordSearch_needs_no_provider_witness :
  embeddingsJson sampleEnvNoKey = embeddingsJson sampleEnv /\
  keywordSearch sampleBM25 sampleEnvNoKey "garden" 10 =
  keywordSearch sampleBM25 sampleEnv "garden" 10.
Proof.
  split; [reflexivity|].
  destruct (keywordSearch_needs_no_provider sampleBM25 sampleEnv sampleEnvNoKey "garden" 10)
    as (_ & _ & H).
  apply H. reflexivity.
Defined.

Lemma GET_success_contract_witness :
  exists results count,
    SearchRoute.response (SearchRoute.GET sampleBM25 sampleCosine sampleEnv sampleRequest) =
      SearchRoute.Json200 "garden" SearchRoute.keyword results count /\
    count = List.length results /\
    StronglySorted (descendingBy SearchResult.similarity) results.
Proof.
  eexists. eexists. split; [vm_compute; reflexivity|].
  destruct (GET_success_contract sampleBM25 sampleCosine sampleEnv sampleRequest
              "garden" SearchRoute.keyword _ _ eq_refl)
    as (_ & _ & _ & Hcount & Hsorted & _).
  split; [exact Hcount | exact Hsorted].
Defined.

Lemma GET_limit_validated_and_capped_witness :
  isBlank "garden" = false /\ (50 <= 1000)%Z /\
  SearchRoute.GET sampleBM25 sampleCosine sampleEnv
    (SearchRoute.mkRequest (Some "garden") (Some (numberToString 1000)) None) =
  SearchRoute.GET sampleBM25 sampleCosine sampleEnv
    (SearchRoute.mkRequest (Some "garden") (Some "50"%string) None).
Proof.
  split; [reflexivity|]. split; [lia|].
  destruct (GET_limit_validated_and_capped sampleBM25 sampleCosine sampleEnv
              "garden" None 1000 eq_refl) as (_ & H & _).
  apply H. lia.
Defined.


Lemma generateEmbeddings_writes_every_item_witness :
  exists written,
    Generator.ending
      (Generator.generateEmbeddings sampleExistsSync sampleEmbedMany (Some "secret"%string)
         samplePosts) = Generator.Written written /\
    map Generator.item written = Generator.itemsToEmbed sampleExistsSync samplePosts /\
    List.length written = 3%nat.
Proof.
  eexists. split; [vm_compute; reflexivity|].
  destruct (generateEmbeddings_writes_every_item sampleExistsSync sampleEmbedMany
              (Some "secret"%string) samplePosts) as (_ & _ & H).
  destruct (H _ eq_refl) as (Hmap & _).
  split; [exact Hmap | reflexivity].
Defined.

(** ** The posts route *)

Lemma insert_ext {A : Type} (c1 c2 : A -> A -> Q) (x : A) (l : list A) :
  (forall a b, Qle_bool (c1 a b) 0 = Qle_bool (c2 a b) 0) ->
  insert c1 x l = insert c2 x l.
Proof.
  intros Hext. induction l as [|y rest IH]; [reflexivity|].
  cbn [insert]. now rewrite Hext, IH.
Qed.

Lemma sort_ext {A : Type} (c1 c2 : A -> A -> Q) (l : list A) :
  (forall a b, Qle_bool (c1 a b) 0 = Qle_bool (c2 a b) 0) ->
  sort c1 l = sort c2 l.
Proof.
  intros Hext. induction l as [|x rest IH]; [reflexivity|].
  cbn [sort fold_right]. fold (sort c1 rest). fold (sort c2 rest).
  rewrite IH. now apply insert_ext.
Qed.

(** The score by which a sort order sorts descending. *)
Lemma byTimestamp_descending (order : PostsRoute.SortOrder) (l : list PostsRoute.PostResult) :
  sort (PostsRoute.byTimestamp order) l =
  sort (descending (fun r =>
          match order with
          | PostsRoute.newest => inject_Z (PostsRoute.creationTimestamp r)
          | PostsRoute.oldest => inject_Z (- PostsRoute.creationTimestamp r)
          end)) l.
Proof.
  apply sort_ext. intros a b.
  destruct order; unfold PostsRoute.byTimestamp, descending, Qle_bool; cbn;
    match goal with
    | |- (?x <=? ?y)%Z = (?u <=? ?v)%Z =>
        destruct (Z.leb_spec x y), (Z.leb_spec u v); try reflexivity; lia
    end.
Qed.

Lemma sort_byTimestamp_sorted order l :
  StronglySorted (PostsRoute.inOrder order) (sort (PostsRoute.byTimestamp order) l).
Proof.
  rewrite byTimestamp_descending.
  eapply StronglySorted_weaken; [|apply sort_sorted].
  intros x y. unfold descendingBy, PostsRoute.inOrder.
  destruct order; rewrite <- Zle_Qle; lia.
Qed.

Lemma sort_byTimestamp_perm order l :
  Permutation (sort (PostsRoute.byTimestamp order) l) l.
Proof. rewrite byTimestamp_descending. apply sort_perm. Qed.

Lemma firstn_add {A : Type} (a b : nat) (l : list A) :
  firstn (a + b) l = firstn a l ++ firstn b (skipn a l).
Proof.
  revert l. induction a as [|a IH]; intros l; [reflexivity|].
  destruct l as [|x rest]; cbn [Nat.add firstn skipn app].
  - now rewrite firstn_nil.
  - now rewrite IH.
Qed.

(** Consecutive chunks of [size] elements make up a prefix. *)
Lemma chunks_firstn {A : Type} (size count : nat) (l : list A) :
  List.concat (map (fun p => firstn size (skipn (p * size) l)) (seq 0 count)) =
  firstn (count * size) l.
Proof.
  induction count as [|count IH]; [reflexivity|].
  rewrite seq_S, map_app, concat_app, IH. cbn [map List.concat Nat.add].
  rewrite List.app_nil_r, <- firstn_add. f_equal. lia.
Qed.

Lemma slice_nonneg {A : Type} (l : list A) (start n : Z) :
  (0 <= start)%Z -> (0 <= n)%Z ->
  slice l start (start + n) = firstn (Z.to_nat n) (skipn (Z.to_nat start) l).
Proof.
  intros Hstart Hn. unfold slice, sliceIndex.
  destruct (Z.ltb_spec start 0); [lia|].
  destruct (Z.ltb_spec (start + n) 0); [lia|].
  destruct (Z_le_gt_dec start (Z.of_nat (List.length l))) as [Hle|Hgt].
  - rewrite (Z.min_l start) by exact Hle.
    destruct (Z_le_gt_dec (start + n) (Z.of_nat (List.length l))) as [Hle'|Hgt'].
    + rewrite Z.min_l by exact Hle'. f_equal. f_equal. lia.
    + rewrite Z.min_r by lia.
      rewrite !firstn_all2; [reflexivity| |]; rewrite length_skipn; lia.
  - rewrite !Z.min_r by lia.
    rewrite !skipn_all2 by lia. now rewrite !firstn_nil.
Qed.

(** [Math.ceil(total / limit)] is the least number of pages of [limit]
    elements that hold [total] elements. *)
Lemma totalPages_spec (total limit : Z) :
  (0 < limit)%Z ->
  ((Qceiling (inject_Z total / inject_Z limit) - 1) * limit < total <=
   Qceiling (inject_Z total / inject_Z limit) * limit)%Z.
Proof.
  intros Hlimit. destruct limit as [|p|p]; try lia.
  unfold Qceiling, Qfloor, Qdiv, Qinv, Qmult, Qopp, inject_Z. cbn.
  rewrite Z.mul_1_r.
  pose proof (Z.div_mod (- total) (Z.pos p) ltac:(lia)) as Hdiv.
  pose proof (Z.mod_pos_bound (- total) (Z.pos p) ltac:(lia)) as Hmod.
  nia.
Qed.

Lemma paginate_fst (results : list PostsRoute.PostResult) (page limit : Z) :
  (1 <= page)%Z -> (1 <= limit)%Z ->
  fst (PostsRoute.paginate results page limit) =
  firstn (Z.to_nat limit) (skipn (Z.to_nat (page - 1) * Z.to_nat limit) results).
Proof.
  intros Hpage Hlimit. unfold PostsRoute.paginate. cbn [fst].
  rewrite slice_nonneg by nia. f_equal. f_equal.
  rewrite Z2Nat.inj_mul by lia. reflexivity.
Qed.

Lemma paginate_length (results : list PostsRoute.PostResult) (page limit : Z) :
  (1 <= page)%Z -> (1 <= limit)%Z ->
  Z.of_nat (List.length (fst (PostsRoute.paginate results page limit))) =
  Z.max 0 (Z.min limit (Z.of_nat (List.length results) - (page - 1) * limit)).
Proof.
  intros Hpage Hlimit. rewrite paginate_fst by assumption.
  rewrite length_firstn, length_skipn. nia.
Qed.

Lemma length_zero_iff_nil' {A : Type} (l : list A) :
  l = [] <-> Z.of_nat (List.length l) = 0%Z.
Proof. destruct l; cbn [List.length]; split; intros H; try reflexivity; try discriminate; lia. Qed.

(** X19. Walking the pages 1 to [totalPages] of a listing with a limit of at
    least one gives every result exactly once and in order: the pages
    concatenate to the listing, none of them is empty and none is longer
    than the limit. *)
Theorem pages_partition_the_listing (results : list PostsRoute.PostResult) (limit : Z) :
  (1 <= limit)%Z ->
  List.concat (PostsRoute.allPages results limit) = results /\
  Forall (fun pageResults =>
            pageResults <> [] /\ (Z.of_nat (List.length pageResults) <= limit)%Z)
         (PostsRoute.allPages results limit).
Proof.
  intros Hlimit. unfold PostsRoute.allPages.
  change (PostsRoute.totalPages (snd (PostsRoute.paginate results 1 limit)))
    with (Qceiling (inject_Z (Z.of_nat (List.length results)) / inject_Z limit)).
  pose proof (totalPages_spec (Z.of_nat (List.length results)) limit ltac:(lia)) as Hpages.
  set (pages := Qceiling _) in *.
  split.
  - rewrite <- seq_shift, map_map.
    rewrite (map_ext _ (fun p => firstn (Z.to_nat limit)
                                   (skipn (p * Z.to_nat limit) results))).
    + rewrite chunks_firstn. apply firstn_all2. nia.
    + intros p. rewrite paginate_fst by lia. do 3 f_equal. lia.
  - apply Forall_forall. intros pageResults Hin.
    apply in_map_iff in Hin as (p & <- & Hp). apply in_seq in Hp.
    pose proof (paginate_length results (Z.of_nat p) limit ltac:(lia) Hlimit) as Hlen.
    split; [|lia].
    intros Hnil. apply length_zero_iff_nil' in Hnil. nia.
Qed.

(** X20. For a page and a limit of at least one, [hasNextPage] is true
    exactly when the next page has results, and a page is empty exactly when
    its number is beyond [totalPages]. *)
Theorem hasNextPage_iff_next_page_has_results
    (results : list PostsRoute.PostResult) (page limit : Z) :
  (1 <= page)%Z -> (1 <= limit)%Z ->
  (PostsRoute.hasNextPage (snd (PostsRoute.paginate results page limit)) = true <->
   fst (PostsRoute.paginate results (page + 1) limit) <> []) /\
  (fst (PostsRoute.paginate results page limit) = [] <->
   (PostsRoute.totalPages (snd (PostsRoute.paginate results page limit)) < page)%Z).
Proof.
  intros Hpage Hlimit.
  pose proof (paginate_length results page limit Hpage Hlimit) as Hlen.
  pose proof (paginate_length results (page + 1) limit ltac:(lia) Hlimit) as Hnext.
  rewrite !length_zero_iff_nil'.
  change (PostsRoute.hasNextPage (snd (PostsRoute.paginate results page limit)))
    with (page <? Qceiling (inject_Z (Z.of_nat (List.length results)) / inject_Z limit))%Z.
  change (PostsRoute.totalPages (snd (PostsRoute.paginate results page limit)))
    with (Qceiling (inject_Z (Z.of_nat (List.length results)) / inject_Z limit)).
  pose proof (totalPages_spec (Z.of_nat (List.length results)) limit ltac:(lia)) as Hpages.
  set (pages := Qceiling _) in *.
  rewrite Z.ltb_lt. split; split; intros H; nia.
Qed.

Lemma In_skipn {A : Type} (n : nat) (l : list A) (x : A) : In x (skipn n l) -> In x l.
Proof.
  revert l. induction n as [|n IH]; intros [|y rest]; cbn [skipn]; auto.
  intros H. right. now apply IH.
Qed.

Lemma StronglySorted_skipn {A : Type} (R : A -> A -> Prop) (n : nat) (l : list A) :
  StronglySorted R l -> StronglySorted R (skipn n l).
Proof.
  revert l. induction n as [|n IH]; intros [|y rest] H; cbn [skipn]; auto.
  apply IH. now inversion H.
Qed.

Lemma slice_In {A : Type} (l : list A) (start finish : Z) (x : A) :
  In x (slice l start finish) -> In x l.
Proof. unfold slice. intros H. eapply In_skipn, firstn_In, H. Qed.

Lemma StronglySorted_slice {A : Type} (R : A -> A -> Prop) (l : list A) (start finish : Z) :
  StronglySorted R l -> StronglySorted R (slice l start finish).
Proof. intros H. unfold slice. now apply StronglySorted_firstn, StronglySorted_skipn. Qed.

Lemma pageOf_range (param : option string) : (1 <= PostsRoute.pageOf param)%Z.
Proof.
  unfold PostsRoute.pageOf. destruct param as [p|]; [|lia].
  destruct (p =? EmptyString)%string; [lia|].
  destruct (parseInt p) as [n| |]; try lia.
  destruct (Z.leb_spec 1 n); lia.
Qed.

Lemma postsLimitOf_range (param : option string) : (1 <= PostsRoute.limitOf param <= 100)%Z.
Proof.
  unfold PostsRoute.limitOf. destruct param as [l|]; [|lia].
  destruct (l =? EmptyString)%string; [lia|].
  destruct (parseInt l) as [n| |]; try lia.
  destruct (Z.leb_spec 1 n); lia.
Qed.

Lemma filterByType_In type r results :
  In r (PostsRoute.filterByType type results) <->
  In r results /\ PostsRoute.ofType type r = true.
Proof.
  destruct type; cbn [PostsRoute.filterByType PostsRoute.ofType];
    [tauto | apply filter_In | apply filter_In].
Qed.

Lemma filterByType_lengths (results : list PostsRoute.PostResult) :
  (List.length (PostsRoute.filterByType PostsRoute.photos results) +
   List.length (PostsRoute.filterByType PostsRoute.videos results))%nat =
  List.length (PostsRoute.filterByType PostsRoute.all results).
Proof.
  cbn [PostsRoute.filterByType].
  induction results as [|r rest IH]; [reflexivity|].
  cbn [filter List.length]. destruct (PostsRoute.isVideo r); cbn [negb List.length]; lia.
Qed.

Section PostsRouteFacts.

Variable postsJson : option (list PostsRoute.Post).
Variable mathRandom : Q.

(** What a page response was computed from. *)
Lemma GET_Json200_inv request results pagination :
  PostsRoute.GET postsJson mathRandom request = PostsRoute.Json200 results pagination ->
  exists type order posts,
    PostsRoute.validType (PostsRoute.lowerOr (PostsRoute.typeParam request) "all") = Some type /\
    PostsRoute.validSort (PostsRoute.lowerOr (PostsRoute.sortParam request) "newest") =
      Some order /\
    postsJson = Some posts /\
    (results, pagination) =
      PostsRoute.paginate
        (sort (PostsRoute.byTimestamp order)
              (PostsRoute.filterByType type (PostsRoute.flattenPosts posts)))
        (PostsRoute.pageOf (PostsRoute.pageParam request))
        (PostsRoute.limitOf (PostsRoute.limitParam request)).
Proof.
  unfold PostsRoute.GET.
  destruct (PostsRoute.validType _) as [type|]; [|discriminate].
  destruct (PostsRoute.validSort _) as [order|]; [|discriminate].
  destruct postsJson as [posts|]; [|discriminate].
  intros H. exists type, order, posts. repeat (split; [reflexivity|]).
  destruct (PostsRoute.paginate _ _ _) as [paginatedResults pagination'] eqn:Hpaginate.
  destruct (PostsRoute.isTrue (PostsRoute.randomParam request)).
  - destruct (PostsRoute.filterByType type (PostsRoute.flattenPosts posts));
      discriminate H.
  - injection H as -> ->. reflexivity.
Qed.

End PostsRouteFacts.

Lemma paginate_limit results page limit :
  PostsRoute.pageNumber (snd (PostsRoute.paginate results page limit)) = page /\
  PostsRoute.pageLimit (snd (PostsRoute.paginate results page limit)) = limit /\
  PostsRoute.total (snd (PostsRoute.paginate results page limit)) =
    Z.of_nat (List.length results).
Proof. now unfold PostsRoute.paginate. Qed.

Section PostsRoutePages.

Variable postsJson : option (list PostsRoute.Post).
Variable mathRandom : Q.

(** X21. A page answered by the posts route has at least page number one, a
    limit between 1 and 100 and no more results than the limit; its results
    are in the requested order of time and of the requested media type, and
    [total] counts all results of that type, whatever the page. *)
Theorem GET_page_contract request results pagination :
  PostsRoute.GET postsJson mathRandom request = PostsRoute.Json200 results pagination ->
  exists type order posts,
    PostsRoute.validType (PostsRoute.lowerOr (PostsRoute.typeParam request) "all") = Some type /\
    PostsRoute.validSort (PostsRoute.lowerOr (PostsRoute.sortParam request) "newest") =
      Some order /\
    postsJson = Some posts /\
    (1 <= PostsRoute.pageNumber pagination)%Z /\
    (1 <= PostsRoute.pageLimit pagination <= 100)%Z /\
    (Z.of_nat (List.length results) <= PostsRoute.pageLimit pagination)%Z /\
    PostsRoute.total pagination =
      Z.of_nat (List.length (PostsRoute.filterByType type (PostsRoute.flattenPosts posts))) /\
    StronglySorted (PostsRoute.inOrder order) results /\
    Forall (fun r => In r (PostsRoute.flattenPosts posts) /\ PostsRoute.ofType type r = true)
           results.
Proof.
  intros H. apply GET_Json200_inv in H as (type & order & posts & Htype & Horder & Hposts & H).
  exists type, order, posts.
  pose proof (pageOf_range (PostsRoute.pageParam request)) as Hpage.
  pose proof (postsLimitOf_range (PostsRoute.limitParam request)) as Hlimit.
  set (page := PostsRoute.pageOf _) in *. set (limit := PostsRoute.limitOf _) in *.
  set (listing := sort _ _) in *.
  assert (Hresults : results = fst (PostsRoute.paginate listing page limit))
    by now rewrite <- H.
  assert (Hpagination : pagination = snd (PostsRoute.paginate listing page limit))
    by now rewrite <- H.
  destruct (paginate_limit listing page limit) as (Hp & Hl & Ht).
  split; [exact Htype|]. split; [exact Horder|]. split; [exact Hposts|].
  rewrite Hpagination, Hp, Hl, Ht.
  split; [exact Hpage|]. split; [exact Hlimit|].
  split.
  { rewrite Hresults, paginate_length by lia. lia. }
  split.
  { unfold listing. f_equal. apply Permutation_length, sort_byTimestamp_perm. }
  split.
  { rewrite Hresults. apply StronglySorted_slice, sort_byTimestamp_sorted. }
  apply Forall_forall. intros r Hin. rewrite Hresults in Hin.
  apply slice_In in Hin.
  apply (Permutation_in _ (sort_byTimestamp_perm order _)) in Hin.
  now apply filterByType_In in Hin.
Qed.

(** X22. The totals of the photo listing and of the video listing add up to
    the total of the listing of all media. *)
Theorem photos_and_videos_add_up request photoResults photoPages videoResults videoPages
    allResults allPages :
  PostsRoute.GET postsJson mathRandom (PostsRoute.withType request "photos") =
    PostsRoute.Json200 photoResults photoPages ->
  PostsRoute.GET postsJson mathRandom (PostsRoute.withType request "videos") =
    PostsRoute.Json200 videoResults videoPages ->
  PostsRoute.GET postsJson mathRandom (PostsRoute.withType request "all") =
    PostsRoute.Json200 allResults allPages ->
  (PostsRoute.total photoPages + PostsRoute.total videoPages)%Z = PostsRoute.total allPages.
Proof.
  intros Hphotos Hvideos Hall.
  apply GET_Json200_inv in Hphotos as (tp & op & pp & Htp & _ & Hpp & Hphotos).
  apply GET_Json200_inv in Hvideos as (tv & ov & pv & Htv & _ & Hpv & Hvideos).
  apply GET_Json200_inv in Hall as (ta & oa & pa & Hta & _ & Hpa & Hall).
  cbn in Htp, Htv, Hta. injection Htp as <-. injection Htv as <-. injection Hta as <-.
  rewrite Hpp in Hpv, Hpa. injection Hpv as <-. injection Hpa as <-.
  apply (f_equal snd) in Hphotos, Hvideos, Hall. cbn [snd] in Hphotos, Hvideos, Hall.
  subst photoPages videoPages allPages.
  rewrite !(proj2 (proj2 (paginate_limit _ _ _))).
  rewrite !(Permutation_length (sort_byTimestamp_perm _ _)).
  rewrite <- (filterByType_lengths (PostsRoute.flattenPosts pp)). lia.
Qed.

(** X23. When [Math.random()] is in its range, a random request is answered
    with one of the posts of the requested media type, and with
    'No posts available' only when there is none. *)
Theorem random_post_is_of_requested_type request :
  0 <= mathRandom -> mathRandom < 1 ->
  (forall result,
      PostsRoute.GET postsJson mathRandom request = PostsRoute.Json200Random result ->
      exists type posts r,
        PostsRoute.validType (PostsRoute.lowerOr (PostsRoute.typeParam request) "all") =
          Some type /\
        postsJson = Some posts /\
        result = Some r /\
        In r (PostsRoute.flattenPosts posts) /\ PostsRoute.ofType type r = true) /\
  (forall error,
      PostsRoute.GET postsJson mathRandom request = PostsRoute.Json404 error ->
      exists type posts,
        PostsRoute.validType (PostsRoute.lowerOr (PostsRoute.typeParam request) "all") =
          Some type /\
        postsJson = Some posts /\
        PostsRoute.filterByType type (PostsRoute.flattenPosts posts) = []).
Proof.
  intros Hlow Hhigh. unfold PostsRoute.GET.
  destruct (PostsRoute.validType _) as [type|]; [|split; intros ? H; discriminate H].
  destruct (PostsRoute.validSort _) as [order|]; [|split; intros ? H; discriminate H].
  destruct postsJson as [posts|]; [|split; intros ? H; discriminate H].
  destruct (PostsRoute.isTrue (PostsRoute.randomParam request)).
  2:{ destruct (PostsRoute.paginate _ _ _). split; intros ? H; discriminate H. }
  destruct (PostsRoute.filterByType type (PostsRoute.flattenPosts posts))
    as [|first rest] eqn:Hresults.
  - split; intros ? H; [discriminate H|]. now exists type, posts.
  - split; intros ? H; [|discriminate H].
    set (results := first :: rest) in *.
    set (len := Z.of_nat (List.length results)).
    assert (Hlen : (0 < len)%Z) by (unfold len, results; cbn [List.length]; lia).
    assert (Hindex : (0 <= Qfloor (mathRandom * inject_Z len) < len)%Z).
    { split.
      - change 0%Z with (Qfloor 0). apply Qfloor_resp_le.
        apply Qmult_le_0_compat; [exact Hlow|]. change 0 with (inject_Z 0).
        rewrite <- Zle_Qle. lia.
      - rewrite Zlt_Qlt. eapply Qle_lt_trans; [apply Qfloor_le|].
        rewrite <- (Qmult_1_l (inject_Z len)) at 2.
        apply Qmult_lt_compat_r; [|exact Hhigh].
        change 0 with (inject_Z 0). rewrite <- Zlt_Qlt. exact Hlen. }
    change (PostsRoute.Json200Random
              (if (Qfloor (mathRandom * inject_Z len) <? 0)%Z then None
               else nth_error results (Z.to_nat (Qfloor (mathRandom * inject_Z len)))) =
            PostsRoute.Json200Random result) in H.
    destruct (Z.ltb_spec (Qfloor (mathRandom * inject_Z len)) 0) as [Hneg|_]; [lia|].
    destruct (nth_error results (Z.to_nat (Qfloor (mathRandom * inject_Z len))))
      as [r|] eqn:Hnth.
    + exists type, posts, r.
      split; [reflexivity|]. split; [reflexivity|].
      split; [now injection H as <-|].
      apply nth_error_In in Hnth. rewrite <- Hresults in Hnth.
      exact (proj1 (filterByType_In type r _) Hnth).
    + apply nth_error_None in Hnth. fold len in Hnth. assert (len = Z.of_nat (List.length results)) by reflexivity. lia.
Qed.

End PostsRoutePages.

Lemma resultOfMedia_In postIndex m mediaIndex r :
  In r (PostsRoute.resultOfMedia postIndex m mediaIndex) ->
  r = PostsRoute.mkPostResult (Z.of_nat postIndex) (Z.of_nat mediaIndex)
        (PostsRoute.title m) (PostsRoute.uri m) (PostsRoute.video_metadata m)
        (match PostsRoute.creation_timestamp m with Some t => t | None => 0%Z end) /\
  PostsRoute.uri m <> EmptyString /\ PostsRoute.title m <> EmptyString.
Proof.
  unfold PostsRoute.resultOfMedia.
  destruct (String.eqb_spec (PostsRoute.uri m) EmptyString) as [|Huri]; [intros []|].
  destruct (String.eqb_spec (PostsRoute.title m) EmptyString) as [|Htitle]; [intros []|].
  cbn [negb andb]. intros [<-|[]]. now repeat split.
Qed.

Lemma resultOfMedia_NoDup postIndex m mediaIndex :
  NoDup (PostsRoute.resultOfMedia postIndex m mediaIndex).
Proof.
  unfold PostsRoute.resultOfMedia. destruct (_ && _); repeat constructor. intros [].
Qed.

Lemma resultsOfPost_In post postIndex r :
  In r (PostsRoute.resultsOfPost post postIndex) ->
  exists medias mediaIndex m,
    PostsRoute.media post = Some medias /\
    nth_error medias mediaIndex = Some m /\
    In r (PostsRoute.resultOfMedia postIndex m mediaIndex).
Proof.
  unfold PostsRoute.resultsOfPost.
  destruct (PostsRoute.media post) as [medias|]; [|intros []].
  unfold mapi. intros Hin. apply In_concat_mapi_from in Hin as (i & m & Hnth & Hin).
  exists medias, i, m. now repeat split.
Qed.

Lemma flattenPosts_In posts r :
  In r (PostsRoute.flattenPosts posts) ->
  exists postIndex mediaIndex post medias m,
    nth_error posts postIndex = Some post /\
    PostsRoute.media post = Some medias /\
    nth_error medias mediaIndex = Some m /\
    In r (PostsRoute.resultOfMedia postIndex m mediaIndex).
Proof.
  unfold PostsRoute.flattenPosts, mapi. intros Hin.
  apply In_concat_mapi_from in Hin as (i & post & Hnth & Hin).
  apply resultsOfPost_In in Hin as (medias & j & m & Hmedia & Hnth' & Hin).
  exists i, j, post, medias, m. now repeat split.
Qed.

Lemma flattenPosts_NoDup posts : NoDup (PostsRoute.flattenPosts posts).
Proof.
  apply (NoDup_concat_mapi_from _ (fun r => Z.to_nat (PostsRoute.postIndex r))).
  - intros post i r Hin.
    apply resultsOfPost_In in Hin as (medias & j & m & _ & _ & Hin).
    apply resultOfMedia_In in Hin as (-> & _). cbn. lia.
  - intros post i. unfold PostsRoute.resultsOfPost.
    destruct (PostsRoute.media post) as [medias|]; [|constructor].
    apply (NoDup_concat_mapi_from _ (fun r => Z.to_nat (PostsRoute.mediaIndex r))).
    + intros m j r Hin. apply resultOfMedia_In in Hin as (-> & _). cbn. lia.
    + intros m j. apply resultOfMedia_NoDup.
Qed.

(** X24. Every result of the posts listing points back to the media entry
    it was made from: its indices are the positions of the post and of the
    entry, its title and uri are those of the entry and are not empty, and
    an absent timestamp is listed as 0. No two results have the same
    [postIndex-mediaIndex] key. *)
Theorem flattenPosts_invariants (posts : list PostsRoute.Post) :
  Forall (fun r =>
            (0 <= PostsRoute.postIndex r)%Z /\ (0 <= PostsRoute.mediaIndex r)%Z /\
            PostsRoute.resultTitle r <> EmptyString /\
            PostsRoute.resultUri r <> EmptyString /\
            exists post medias m,
              nth_error posts (Z.to_nat (PostsRoute.postIndex r)) = Some post /\
              PostsRoute.media post = Some medias /\
              nth_error medias (Z.to_nat (PostsRoute.mediaIndex r)) = Some m /\
              PostsRoute.title m = PostsRoute.resultTitle r /\
              PostsRoute.uri m = PostsRoute.resultUri r /\
              PostsRoute.video_metadata m = PostsRoute.isVideo r /\
              (PostsRoute.creation_timestamp m = None -> PostsRoute.creationTimestamp r = 0%Z))
         (PostsRoute.flattenPosts posts) /\
  NoDup (map PostsRoute.resultKey (PostsRoute.flattenPosts posts)).
Proof.
  split.
  - apply Forall_forall. intros r Hin.
    apply flattenPosts_In in Hin as (i & j & post & medias & m & Hpost & Hmedia & Hm & Hin).
    apply resultOfMedia_In in Hin as (-> & Huri & Htitle). cbn.
    split; [lia|]. split; [lia|]. split; [exact Htitle|]. split; [exact Huri|].
    exists post, medias, m. rewrite !Nat2Z.id.
    split; [exact Hpost|]. split; [exact Hmedia|]. split; [exact Hm|].
    split; [reflexivity|]. split; [reflexivity|]. split; [reflexivity|].
    now intros ->.
  - pose proof (flattenPosts_NoDup posts) as Hnd.
    assert (Hinj : forall a b,
               In a (PostsRoute.flattenPosts posts) ->
               In b (PostsRoute.flattenPosts posts) ->
               PostsRoute.resultKey a = PostsRoute.resultKey b -> a = b).
    { intros a b Ha Hb Hkey. apply getKey_parts in Hkey as [Hp Hm].
      apply numberToString_inj in Hp, Hm.
      apply flattenPosts_In in Ha as (i & j & post & medias & m & Hpost & Hmedia & Hm' & Ha).
      apply flattenPosts_In in Hb
        as (i' & j' & post' & medias' & m' & Hpost' & Hmedia' & Hm'' & Hb).
      apply resultOfMedia_In in Ha as (-> & _). apply resultOfMedia_In in Hb as (-> & _).
      cbn in Hp, Hm.
      assert (i = i') by lia. assert (j = j') by lia. subst i' j'.
      assert (post' = post) by congruence. subst post'.
      assert (medias' = medias) by congruence. subst medias'.
      assert (m' = m) by congruence. subst m'. reflexivity. }
    induction (PostsRoute.flattenPosts posts) as [|a rest IH]; [constructor|].
    inversion Hnd as [|? ? Hnotin Hnd']; subst. cbn [map]. constructor.
    + intros Hin. apply in_map_iff in Hin as (b & Hkey & Hb).
      apply Hnotin. rewrite (Hinj a b); [exact Hb | now left | now right | now symmetry].
    + apply IH; [exact Hnd'|]. intros x y Hx Hy. apply Hinj; now right.
Qed.


Lemma pages_partition_the_listing_witness :
  (1 <= 2)%Z /\
  List.concat (PostsRoute.allPages (PostsRoute.flattenPosts sampleListing) 2) =
    PostsRoute.flattenPosts sampleListing /\
  Forall (fun pageResults =>
            pageResults <> [] /\ (Z.of_nat (List.length pageResults) <= 2)%Z)
         (PostsRoute.allPages (PostsRoute.flattenPosts sampleListing) 2).
Proof.
  assert (H : (1 <= 2)%Z) by lia.
  split; [exact H|].
  exact (pages_partition_the_listing (PostsRoute.flattenPosts sampleListing) 2 H).
Defined.

Lemma hasNextPage_iff_next_page_has_results_witness :
  (1 <= 1)%Z /\ (1 <= 2)%Z /\
  PostsRoute.hasNextPage
    (snd (PostsRoute.paginate (PostsRoute.flattenPosts sampleListing) 1 2)) = true /\
  fst (PostsRoute.paginate (PostsRoute.flattenPosts sampleListing) (1 + 1) 2) <> [].
Proof.
  assert (Hpage : (1 <= 1)%Z) by lia. assert (Hlimit : (1 <= 2)%Z) by lia.
  split; [exact Hpage|]. split; [exact Hlimit|].
  destruct (hasNextPage_iff_next_page_has_results (PostsRoute.flattenPosts sampleListing)
              1 2 Hpage Hlimit) as [[Hnext _] _].
  assert (Hflag : PostsRoute.hasNextPage
                    (snd (PostsRoute.paginate (PostsRoute.flattenPosts sampleListing) 1 2)) =
                  true) by (vm_compute; reflexivity).
  split; [exact Hflag | exact (Hnext Hflag)].
Defined.

Lemma GET_page_contract_witness :
  exists results pagination,
    PostsRoute.GET (Some sampleListing) 0 sampleListingRequest =
      PostsRoute.Json200 results pagination /\
    exists type order posts,
      PostsRoute.validType
        (PostsRoute.lowerOr (PostsRoute.typeParam sampleListingRequest) "all") = Some type /\
      PostsRoute.validSort
        (PostsRoute.lowerOr (PostsRoute.sortParam sampleListingRequest) "newest") =
        Some order /\
      Some sampleListing = Some posts /\
      (1 <= PostsRoute.pageNumber pagination)%Z /\
      (1 <= PostsRoute.pageLimit pagination <= 100)%Z /\
      (Z.of_nat (List.length results) <= PostsRoute.pageLimit pagination)%Z /\
      PostsRoute.total pagination =
        Z.of_nat (List.length (PostsRoute.filterByType type (PostsRoute.flattenPosts posts))) /\
      StronglySorted (PostsRoute.inOrder order) results /\
      Forall (fun r => In r (PostsRoute.flattenPosts posts) /\ PostsRoute.ofType type r = true)
             results.
Proof.
  eexists. eexists. split; [vm_compute; reflexivity|].
  apply (GET_page_contract (Some sampleListing) 0 sampleListingRequest).
  vm_compute. reflexivity.
Defined.

Lemma photos_and_videos_add_up_witness :
  exists photoResults photoPages videoResults videoPages allResults allPages,
    PostsRoute.GET (Some sampleListing) 0 (PostsRoute.withType sampleListingRequest "photos") =
      PostsRoute.Json200 photoResults photoPages /\
    PostsRoute.GET (Some sampleListing) 0 (PostsRoute.withType sampleListingRequest "videos") =
      PostsRoute.Json200 videoResults videoPages /\
    PostsRoute.GET (Some sampleListing) 0 (PostsRoute.withType sampleListingRequest "all") =
      PostsRoute.Json200 allResults allPages /\
    (PostsRoute.total photoPages + PostsRoute.total videoPages)%Z = PostsRoute.total allPages.
Proof.
  do 6 eexists.
  split; [vm_compute; reflexivity|]. split; [vm_compute; reflexivity|].
  split; [vm_compute; reflexivity|].
  eapply (photos_and_videos_add_up (Some sampleListing) 0 sampleListingRequest);
    vm_compute; reflexivity.
Defined.

Lemma random_post_is_of_requested_type_witness :
  0 <= 1 # 2 /\ 1 # 2 < 1 /\
  forall result,
    PostsRoute.GET (Some sampleListing) (1 # 2) sampleRandomRequest =
      PostsRoute.Json200Random result ->
    exists type posts r,
      PostsRoute.validType
        (PostsRoute.lowerOr (PostsRoute.typeParam sampleRandomRequest) "all") = Some type /\
      Some sampleListing = Some posts /\
      result = Some r /\
      In r (PostsRoute.flattenPosts posts) /\ PostsRoute.ofType type r = true.
Proof.
  assert (Hlow : 0 <= 1 # 2) by (unfold Qle; cbn; lia).
  assert (Hhigh : 1 # 2 < 1) by (unfold Qlt; cbn; lia).
  split; [exact Hlow|]. split; [exact Hhigh|].
  exact (proj1 (random_post_is_of_requested_type (Some sampleListing) (1 # 2)
                  sampleRandomRequest Hlow Hhigh)).
Defined.

(** ** The chat route *)

Lemma transform_fields (msg : ChatRoute.Message) :
  ChatRoute.prompt (ChatRoute.transform msg) = ChatRoute.prompt msg /\
  ChatRoute.content (ChatRoute.transform msg) = ChatRoute.content msg /\
  (ChatRoute.parts msg <> None -> ChatRoute.transform msg = msg) /\
  (ChatRoute.orString (ChatRoute.prompt msg) EmptyString <> EmptyString ->
   ChatRoute.parts (ChatRoute.transform msg) <> None).
Proof.
  unfold ChatRoute.transform, ChatRoute.orString.
  destruct msg as [[text|] content [parts|]]; cbn;
    try destruct (text =? EmptyString)%string; cbn;
    repeat split; try reflexivity; try congruence.
Qed.

Section ChatRouteFacts.

Variable BM25 : list string -> list string -> Q -> Q -> list Q.
Variable cosineSimilarity : list Q -> list Q -> Q.

Lemma searchQueryOf_textOnlyInParts messages :
  (forall last, ChatRoute.lastMessage messages = Some last ->
                ChatRoute.textOnlyInParts last = true) ->
  ChatRoute.searchQueryOf messages = EmptyString.
Proof.
  intros H. unfold ChatRoute.searchQueryOf.
  destruct (ChatRoute.lastMessage messages) as [last|]; [|reflexivity].
  specialize (H last eq_refl). now apply String.eqb_eq in H.
Qed.

(** X26. When the last message of a chat request has no prompt and no
    content, which is the case when its text is only in [parts], the chat
    route searches for the empty query: it calls no embedding provider,
    reads no embeddings and hands no post to the language model. *)
Theorem chat_has_no_context_when_text_is_in_parts (env : Env)
    (messages : list ChatRoute.Message) :
  apiKeyMissing env = false ->
  (forall last, ChatRoute.lastMessage messages = Some last ->
                ChatRoute.textOnlyInParts last = true) ->
  ChatRoute.POST BM25 cosineSimilarity env (ChatRoute.Json (Some messages)) =
  ChatRoute.mkServed [] (ChatRoute.Streamed [] (map ChatRoute.transform messages)).
Proof.
  intros Hkey Hlast. unfold ChatRoute.POST. rewrite Hkey.
  rewrite (searchQueryOf_textOnlyInParts messages Hlast).
  rewrite hybridSearch_outcome, hybridSearch_calls. reflexivity.
Qed.

(** X27. With a key and a query that is not blank, the chat route answers
    with an error whenever the search fails: a missing embeddings file and a
    failing provider both give status 500, and there is no answer without
    the search. Without a key the route answers 500 before it searches, so
    the search never reports the missing key itself. *)
Theorem chat_fails_when_search_fails (env : Env) (messages : list ChatRoute.Message) :
  isBlank (ChatRoute.searchQueryOf messages) = false ->
  (apiKeyMissing env = true ->
   ChatRoute.POST BM25 cosineSimilarity env (ChatRoute.Json (Some messages)) =
   ChatRoute.mkServed [] ChatRoute.Text500) /\
  (apiKeyMissing env = false -> embeddingsJson env = None ->
   ChatRoute.POST BM25 cosineSimilarity env (ChatRoute.Json (Some messages)) =
   ChatRoute.mkServed [] (ChatRoute.Json500 (Some LoadEmbeddingsError))) /\
  (apiKeyMissing env = false -> embeddingsJson env <> None ->
   provider env (ChatRoute.searchQueryOf messages) = None ->
   ChatRoute.POST BM25 cosineSimilarity env (ChatRoute.Json (Some messages)) =
   ChatRoute.mkServed [ChatRoute.searchQueryOf messages]
     (ChatRoute.Json500 (Some EmbeddingProviderError))) /\
  ChatRoute.response
    (ChatRoute.POST BM25 cosineSimilarity env (ChatRoute.Json (Some messages))) <>
  ChatRoute.Json500 (Some ConfigurationError).
Proof.
  intros Hblank. unfold ChatRoute.POST.
  rewrite hybridSearch_outcome, hybridSearch_calls, Hblank.
  split; [intros ->; reflexivity|].
  split; [intros -> ->; reflexivity|].
  split.
  - intros -> Hfile Hprovider.
    destruct (embeddingsJson env) as [corpus|]; [|congruence].
    now rewrite Hprovider.
  - destruct (apiKeyMissing env); [discriminate|].
    destruct (embeddingsJson env) as [corpus|]; [|discriminate].
    destruct (provider env _); [|discriminate].
    destruct (outcome (mapM _ _)) as [error|results] eqn:Hresolve; [|discriminate].
    cbn [ChatRoute.response]. intros [= ->].
    apply mapM_error in Hresolve as (fused & _ & Hresolve).
    unfold resolve in Hresolve.
    destruct (map_get _ _); discriminate Hresolve.
Qed.

(** X28. When the chat route answers, it hands at most five posts to the
    language model, in descending order of their score; it has sent at most
    the one search query to the embedding provider; and the messages it
    hands on are the received ones, where every message with a prompt has
    parts and a message that had parts is unchanged. *)
Theorem chat_answer_contract (env : Env) (body : ChatRoute.Body)
    (moments : list SearchResult.t) (handed : list ChatRoute.Message) :
  ChatRoute.response (ChatRoute.POST BM25 cosineSimilarity env body) =
    ChatRoute.Streamed moments handed ->
  exists messages,
    body = ChatRoute.Json (Some messages) /\
    (List.length moments <= 5)%nat /\
    StronglySorted (descendingBy SearchResult.similarity) moments /\
    (ChatRoute.providerCalls (ChatRoute.POST BM25 cosineSimilarity env body) = [] \/
     ChatRoute.providerCalls (ChatRoute.POST BM25 cosineSimilarity env body) =
       [ChatRoute.searchQueryOf messages]) /\
    Forall2 (fun received msg =>
               ChatRoute.prompt msg = ChatRoute.prompt received /\
               ChatRoute.content msg = ChatRoute.content received /\
               (ChatRoute.parts received <> None -> msg = received) /\
               (ChatRoute.orString (ChatRoute.prompt received) EmptyString <> EmptyString ->
                ChatRoute.parts msg <> None))
            messages handed.
Proof.
  destruct body as [|[messages|]]; try discriminate.
  unfold ChatRoute.POST.
  destruct (apiKeyMissing env) eqn:Hkey; [discriminate|].
  destruct (outcome (hybridSearch _ _ _ _ _)) as [error|results] eqn:Hsearch;
    [discriminate|].
  cbn [ChatRoute.response ChatRoute.providerCalls]. intros [= <- <-].
  exists messages. split; [reflexivity|].
  destruct (every_mode_descending BM25 cosineSimilarity env _ 5 results
              (or_intror (or_intror Hsearch))) as [Hsorted Hlength].
  split; [specialize (Hlength ltac:(lia)); lia|]. split; [exact Hsorted|].
  split.
  - rewrite hybridSearch_calls.
    destruct (isBlank _); [now left|].
    destruct (embeddingsJson env); [|now left]. rewrite Hkey. now right.
  - clear. induction messages as [|msg rest IH]; cbn [map]; constructor; [|exact IH].
    destruct (transform_fields msg) as (Hp & Hc & Hparts & Hprompt).
    rewrite Hp. now repeat split.
Qed.

End ChatRouteFacts.

Lemma chat_has_no_context_when_text_is_in_parts_witness :
  apiKeyMissing sampleEnvNoFile = false /\
  (forall last, ChatRoute.lastMessage [samplePromptMessage; sampleChatMessage] = Some last ->
                ChatRoute.textOnlyInParts last = true) /\
  ChatRoute.POST sampleBM25 sampleCosine sampleEnvNoFile
    (ChatRoute.Json (Some [samplePromptMessage; sampleChatMessage])) =
  ChatRoute.mkServed []
    (ChatRoute.Streamed [] (map ChatRoute.transform [samplePromptMessage; sampleChatMessage])).
Proof.
  assert (Hlast : forall last,
             ChatRoute.lastMessage [samplePromptMessage; sampleChatMessage] = Some last ->
             ChatRoute.textOnlyInParts last = true).
  { intros last H. cbn in H. injection H as <-. reflexivity. }
  split; [reflexivity|]. split; [exact Hlast|].
  exact (chat_has_no_context_when_text_is_in_parts sampleBM25 sampleCosine sampleEnvNoFile
           [samplePromptMessage; sampleChatMessage] eq_refl Hlast).
Defined.

Lemma chat_fails_when_search_fails_witness :
  isBlank (ChatRoute.searchQueryOf [samplePromptMessage]) = false /\
  apiKeyMissing sampleEnvNoFile = false /\ embeddingsJson sampleEnvNoFile = None /\
  ChatRoute.POST sampleBM25 sampleCosine sampleEnvNoFile
    (ChatRoute.Json (Some [samplePromptMessage])) =
  ChatRoute.mkServed [] (ChatRoute.Json500 (Some LoadEmbeddingsError)).
Proof.
  split; [reflexivity|]. split; [reflexivity|]. split; [reflexivity|].
  destruct (chat_fails_when_search_fails sampleBM25 sampleCosine sampleEnvNoFile
              [samplePromptMessage] eq_refl) as (_ & H & _).
  exact (H eq_refl eq_refl).
Defined.

Lemma chat_answer_contract_witness :
  exists moments handed,
    ChatRoute.response
      (ChatRoute.POST sampleBM25 sampleCosine sampleEnv
         (ChatRoute.Json (Some [samplePromptMessage]))) =
      ChatRoute.Streamed moments handed /\
    (List.length moments <= 5)%nat /\
    StronglySorted (descendingBy SearchResult.similarity) moments.
Proof.
  eexists. eexists. split; [vm_compute; reflexivity|].
  destruct (chat_answer_contract sampleBM25 sampleCosine sampleEnv
              (ChatRoute.Json (Some [samplePromptMessage])) _ _ eq_refl)
    as (messages & _ & Hlength & Hsorted & _).
  split; [exact Hlength | exact Hsorted].
Defined.
